(** * Polymarket gasless redeem CLI: a shallow embedding and its properties

    The development follows the TypeScript sources ([src/utils.ts],
    [src/rateLimiter.ts], [src/transactions.ts], [src/config.ts],
    [src/keyManager.ts], [src/transactionManager.ts], [src/redeem.ts]) and,
    where a property is also stated of them, the earlier JavaScript files
    ([utils.js], [rateLimiter.js], [redeem.js]).

    Conventions.
    - JavaScript numbers that carry integers (millisecond timestamps, counters,
      delays, base-unit amounts) are [Z].
    - Strings are [string]; a string stands for its UTF-8 bytes.
    - A promise that rejects, or a [throw], is the left summand of a sum or a
      dedicated constructor; nothing is ever silently dropped.
    - Calls into the runtime or into third-party packages ([Date.now], the
      relayer client, [node:crypto]) are inputs of the functions that make
      them: a clock reading is an argument, a remote answer is an argument. *)

From Stdlib Require Import ZArith List String Ascii Bool Lia Arith.
From Stdlib Require SpecFloat.
Import ListNotations.
Local Open Scope string_scope.
Local Open Scope list_scope.
Local Open Scope Z_scope.

(* ===================================================================== *)
(** * Retry policy ([src/utils.ts], [utils.js]) *)
(* ===================================================================== *)

Module Retry.

(** A value caught by [catch (error)]: an [Error] instance with its message;
    [null] or [undefined], the two values that have no properties; or any other
    thrown value that [String(error)] converts and whose [message] can be read
    (a primitive, an ordinary object), kept by what [String(error)] prints. *)
Inductive Thrown : Type :=
| ErrorObj (message : string)
| NonError (shown : string)
| Nullish (isNull : bool).

(** [String(null)] and [String(undefined)]. *)
Definition shownNullish (isNull : bool) : string :=
  if isNull then "null" else "undefined".

(** The two revisions of [retryWithBackoff] differ in what they keep of the
    caught value: [utils.ts] keeps
    [error instanceof Error ? error : new Error(String(error))] and prints
    [lastError.message]; [utils.js] keeps [error] itself and prints
    [error.message]. *)
Inductive Revision : Type := TS | JS.

Definition lastErrorOf (rev : Revision) (error : Thrown) : Thrown :=
  match rev, error with
  | TS, NonError s => ErrorObj s
  | TS, Nullish isNull => ErrorObj (shownNullish isNull)
  | _, _ => error
  end.

(** The line [console.warn(`   Error: ${error.message}`)] of the [catch] block,
    which is reached when a retry is left: [None] when it prints, and the
    [TypeError] it throws when [error] has no properties to read. That happens
    in [utils.js] only, for a rejection by [null] or [undefined]; [utils.ts]
    reads the message of the [Error] it has kept or made. *)
Definition messageLine (rev : Revision) (error : Thrown) : option Thrown :=
  match rev, error with
  | JS, Nullish isNull =>
      Some (ErrorObj ("Cannot read properties of " ++ shownNullish isNull
                      ++ " (reading 'message')"))
  | _, _ => None
  end.

(** What one call [await fn()] does. *)
Inductive Outcome (T : Type) : Type :=
| Resolved (value : T)
| Rejected (error : Thrown).
Arguments Resolved {T} value.
Arguments Rejected {T} error.

(** How [retryWithBackoff] ends. [ReturnedUndefined] is the fall-through of
    [utils.js], whose loop has no statement after it. *)
Inductive Completion (T : Type) : Type :=
| Returned (value : T)
| ReturnedUndefined
| Threw (error : Thrown).
Arguments Returned {T} value.
Arguments ReturnedUndefined {T}.
Arguments Threw {T} error.

(** What the function does to the outside, in order. *)
Inductive Event : Type :=
| Invoke (attempt : nat)          (* [await fn()] in iteration [attempt] *)
| SetTimeout (delay : Z).         (* [await new Promise(r => setTimeout(r, delay))] *)

Section RetryWithBackoff.

Variable T : Type.

(** [CONFIG.api.backoffMultiplier] and [CONFIG.api.maxBackoffTime]. *)
Variable backoffMultiplier : Z.
Variable maxBackoffTime : Z.

Variable rev : Revision.

(** The operation is called once per iteration; [fn k] is what its call in
    iteration [k] does (it may differ from call to call). *)
Variable fn : nat -> Outcome T.

Variable maxRetries : Z.
Variable baseDelay : Z.

(** [Math.min(baseDelay * Math.pow(CONFIG.api.backoffMultiplier, attempt),
    CONFIG.api.maxBackoffTime)], for integer delays and an integer multiplier
    (the configuration has 2 and 30000, the callers pass 1000 or 2000). *)
Definition delayFor (attempt : nat) : Z :=
  Z.min (baseDelay * backoffMultiplier ^ Z.of_nat attempt) maxBackoffTime.

(** The statement after the loop: [throw lastError ?? new Error('Retry failed')]
    in [utils.ts], nothing in [utils.js]. *)
Definition afterLoop (lastError : option Thrown) : Completion T :=
  match rev with
  | TS => Threw (match lastError with
                 | Some e => e
                 | None => ErrorObj "Retry failed"
                 end)
  | JS => ReturnedUndefined
  end.

(** The [for] loop, by the number of iterations it still has to run:
    [attempt] goes from 0 while [attempt <= maxRetries], so the loop is entered
    with [Z.to_nat (maxRetries + 1)] iterations ahead. A rejection in the last
    permitted iteration is rethrown before anything of it is read; in an
    earlier one the delay is computed, the two warnings are printed, and an
    exception of the second warning leaves the function before the timer is
    set. *)
Fixpoint loop (remaining : nat) (attempt : nat) (lastError : option Thrown)
  : list Event * Completion T :=
  match remaining with
  | O => ([], afterLoop lastError)
  | S remaining' =>
      match fn attempt with
      | Resolved v => ([Invoke attempt], Returned v)
      | Rejected error =>
          let lastError' := lastErrorOf rev error in
          if Z.of_nat attempt =? maxRetries
          then ([Invoke attempt], Threw lastError')
          else
            let delay := delayFor attempt in
            match messageLine rev error with
            | Some typeError => ([Invoke attempt], Threw typeError)
            | None =>
                let '(evs, c) := loop remaining' (S attempt) (Some lastError') in
                (Invoke attempt :: SetTimeout delay :: evs, c)
            end
      end
  end.

Definition retryWithBackoff : list Event * Completion T :=
  loop (Z.to_nat (maxRetries + 1)) 0 None.

(** Readings of a trace. *)
Definition invocations (evs : list Event) : nat :=
  List.length (filter (fun e => match e with Invoke _ => true | _ => false end) evs).

Fixpoint delays (evs : list Event) : list Z :=
  match evs with
  | [] => []
  | SetTimeout d :: evs' => d :: delays evs'
  | Invoke _ :: evs' => delays evs'
  end.

(** ** Properties *)


(** The rejections the [catch] block gets through: every one in [utils.ts],
    and in [utils.js] every one whose value is not [null] or [undefined]. *)
Definition printable (error : Thrown) : Prop := messageLine rev error = None.

(** A run that meets a success at call [attempt + k], after [k] rejections,
    with enough iterations left. *)
Lemma loop_success :
  forall k remaining attempt lastError v,
    (k < remaining)%nat ->
    Z.of_nat (attempt + k) <= maxRetries ->
    (forall j, (j < k)%nat ->
       exists e, fn (attempt + j)%nat = Rejected e /\ printable e) ->
    fn (attempt + k)%nat = Resolved v ->
    let '(evs, c) := loop remaining attempt lastError in
    c = Returned v /\
    invocations evs = S k /\
    delays evs = map delayFor (seq attempt k).
Proof.
  induction k as [|k IH]; intros remaining attempt lastError v Hlt Hle Hfail Hok.
  - destruct remaining as [|r]; [inversion Hlt|]. simpl.
    rewrite Nat.add_0_r in Hok. rewrite Hok. simpl. auto.
  - destruct remaining as [|r]; [inversion Hlt|]. simpl.
    destruct (Hfail 0%nat (Nat.lt_0_succ _)) as (e & He & Hprint).
    rewrite Nat.add_0_r in He. rewrite He.
    assert (Hne : (Z.of_nat attempt =? maxRetries) = false) by (apply Z.eqb_neq; lia).
    rewrite Hne. unfold printable in Hprint. rewrite Hprint.
    specialize (IH r (S attempt) (Some (lastErrorOf rev e)) v).
    destruct (loop r (S attempt) (Some (lastErrorOf rev e))) as [evs c].
    destruct IH as (Hc & Hi & Hd).
    + lia.
    + replace (S attempt + k)%nat with (attempt + S k)%nat by lia. exact Hle.
    + intros j Hj. replace (S attempt + j)%nat with (attempt + S j)%nat by lia.
      apply Hfail. lia.
    + replace (S attempt + k)%nat with (attempt + S k)%nat by lia. exact Hok.
    + unfold invocations in *. simpl.
      repeat split; [exact Hc | now rewrite Hi | now rewrite Hd].
Qed.

(** A run in which every call up to the last permitted one rejects; the value
    of the last rejection is rethrown unread. *)
Lemma loop_exhausted :
  forall remaining attempt lastError,
    Z.of_nat attempt + Z.of_nat remaining = maxRetries + 1 ->
    (0 < remaining)%nat ->
    (forall j, (j < remaining)%nat ->
       exists e, fn (attempt + j)%nat = Rejected e
                 /\ (Z.of_nat (attempt + j) < maxRetries -> printable e)) ->
    let '(evs, c) := loop remaining attempt lastError in
    (exists e, fn (Z.to_nat maxRetries) = Rejected e /\ c = Threw (lastErrorOf rev e)) /\
    invocations evs = remaining /\
    delays evs = map delayFor (seq attempt (remaining - 1)).
Proof.
  induction remaining as [|r IH]; intros attempt lastError Hsum Hpos Hfail.
  - inversion Hpos.
  - simpl. destruct (Hfail 0%nat (Nat.lt_0_succ _)) as (e & He & Hprint).
    rewrite Nat.add_0_r in He. rewrite He.
    destruct (Z.eqb_spec (Z.of_nat attempt) maxRetries) as [Heq|Hne].
    + assert (r = 0%nat) by lia. subst r. simpl.
      repeat split; auto. exists e. split; [|reflexivity].
      rewrite <- Heq, Nat2Z.id. exact He.
    + assert (Hr : (0 < r)%nat) by lia.
      unfold printable in Hprint. rewrite Hprint by lia.
      specialize (IH (S attempt) (Some (lastErrorOf rev e))).
      destruct (loop r (S attempt) (Some (lastErrorOf rev e))) as [evs c].
      destruct IH as (Hc & Hi & Hd).
      * lia.
      * exact Hr.
      * intros j Hj. replace (S attempt + j)%nat with (attempt + S j)%nat by lia.
        apply Hfail. lia.
      * unfold invocations in *. simpl.
        repeat split; [exact Hc | now rewrite Hi |].
        rewrite Hd. destruct r as [|r']; [inversion Hr|].
        simpl. now rewrite Nat.sub_0_r.
Qed.

(** A loop that is entered with the iterations [attempt .. maxRetries] ahead
    sets a timer after each of them but the last, and the [k]-th timer of a
    run is [delayFor k], whatever the calls do. *)
Lemma loop_timers_le :
  forall remaining attempt lastError,
    Z.of_nat attempt + Z.of_nat remaining = maxRetries + 1 ->
    exists n, (n <= remaining - 1)%nat
              /\ delays (fst (loop remaining attempt lastError))
                 = map delayFor (seq attempt n).
Proof.
  induction remaining as [|r IH]; intros attempt lastError Hsum; simpl.
  - now exists 0%nat.
  - destruct (fn attempt) as [v|e]; simpl.
    + exists 0%nat. split; [lia|reflexivity].
    + destruct (Z.eqb_spec (Z.of_nat attempt) maxRetries) as [Heq|Hne]; simpl.
      * exists 0%nat. split; [lia|reflexivity].
      * destruct (messageLine rev e); simpl; [exists 0%nat; split; [lia|reflexivity]|].
        destruct (IH (S attempt) (Some (lastErrorOf rev e))) as (n & Hn & Hd); [lia|].
        destruct (loop r (S attempt) (Some (lastErrorOf rev e))) as [evs c].
        simpl in *. exists (S n). split; [lia|]. simpl. now rewrite Hd.
Qed.


End RetryWithBackoff.

(** The call of [getRedeemablePositions]: three retries from 2000 ms, doubling,
    capped at 30000 ms; the first two calls reject, the third resolves. *)
Definition flaky (k : nat) : Outcome Z :=
  if (k <? 2)%nat then Rejected (ErrorObj "Data API error 503") else Resolved 7.

Example retry_flaky_run :
  retryWithBackoff Z 2 30000 TS flaky 3 2000
  = ([Invoke 0; SetTimeout 2000; Invoke 1; SetTimeout 4000; Invoke 2], Returned 7).
Proof. reflexivity. Qed.

Example retry_exhausted_run :
  retryWithBackoff Z 2 30000 TS (fun _ => Rejected (NonError "timeout")) 3 20000
  = ([Invoke 0; SetTimeout 20000; Invoke 1; SetTimeout 30000;
      Invoke 2; SetTimeout 30000; Invoke 3],
     Threw (ErrorObj "timeout")).
Proof. reflexivity. Qed.


(** ** A rejection by [null]

    The first call rejects with [null] and the second would resolve.
    [utils.ts] makes [Error("null")] of the value, waits and calls again.
    [utils.js] reads [error.message] of it: the [TypeError] of that line leaves
    the function after one call, before any timer, and the operation is never
    retried. Only in the last permitted iteration, where [throw error] comes
    first, [utils.js] throws the caught value itself. *)
Definition nullThenValue (k : nat) : Outcome Z :=
  if (k =? 0)%nat then Rejected (Nullish true) else Resolved 7.

(** C7, on the code of [utils.js]: a rejection by [null] is not retried, and
    what is thrown is not the error that was observed. *)
Theorem retryWithBackoff_null_rejection :
  retryWithBackoff Z 2 30000 JS nullThenValue 3 1000
  = ([Invoke 0], Threw (ErrorObj "Cannot read properties of null (reading 'message')"))
  /\ retryWithBackoff Z 2 30000 TS nullThenValue 3 1000
     = ([Invoke 0; SetTimeout 1000; Invoke 1], Returned 7)
  /\ retryWithBackoff Z 2 30000 JS (fun _ => Rejected (Nullish false)) 3 1000
     = ([Invoke 0],
        Threw (ErrorObj "Cannot read properties of undefined (reading 'message')"))
  /\ retryWithBackoff Z 2 30000 JS (fun _ => Rejected (Nullish true)) 0 1000
     = ([Invoke 0], Threw (Nullish true))
  /\ retryWithBackoff Z 2 30000 JS
       (fun k => if (k =? 0)%nat then Rejected (NonError "busy") else Resolved 7) 3 1000
     = ([Invoke 0; SetTimeout 1000; Invoke 1], Returned 7).
Proof. repeat split. Qed.

(** ** The time spent in back-off *)

(** The sum of the timers of a trace. *)
Definition totalDelay (evs : list Event) : Z := fold_right Z.add 0 (delays evs).

Section Backoff.

Variable T : Type.
Variable backoffMultiplier : Z.
Variable maxBackoffTime : Z.
Variable rev : Revision.
Variable fn : nat -> Outcome T.
Variable maxRetries : Z.
Variable baseDelay : Z.

Local Abbreviation delayFor := (delayFor backoffMultiplier maxBackoffTime baseDelay).
Local Abbreviation loop :=
  (loop T backoffMultiplier maxBackoffTime rev fn maxRetries baseDelay).
Local Abbreviation retryWithBackoff :=
  (retryWithBackoff T backoffMultiplier maxBackoffTime rev fn maxRetries baseDelay).

Lemma delayFor_capped : forall k, delayFor k <= maxBackoffTime.
Proof. intros k. unfold Retry.delayFor. lia. Qed.

Lemma delayFor_monotone :
  0 <= baseDelay -> 1 <= backoffMultiplier ->
  forall j k, (j <= k)%nat -> delayFor j <= delayFor k.
Proof.
  intros Hb Hm j k Hjk. unfold Retry.delayFor.
  assert (Hpow : backoffMultiplier ^ Z.of_nat j <= backoffMultiplier ^ Z.of_nat k).
  { apply Z.pow_le_mono_r; lia. }
  assert (baseDelay * backoffMultiplier ^ Z.of_nat j
          <= baseDelay * backoffMultiplier ^ Z.of_nat k).
  { apply Z.mul_le_mono_nonneg_l; assumption. }
  lia.
Qed.

Lemma sum_capped : forall (l : list Z) cap,
  Forall (fun d => d <= cap) l ->
  fold_right Z.add 0 l <= Z.of_nat (List.length l) * cap.
Proof.
  induction 1 as [|d l Hd _ IH]; simpl fold_right; [simpl; lia|].
  rewrite length_cons, Nat2Z.inj_succ. lia.
Qed.

(** The back-off of [retryWithBackoff], for a non-negative retry budget: it
    sets at most [maxRetries] timers, the first [n] delays of the schedule for
    some [n]; no delay exceeds [CONFIG.api.maxBackoffTime]; with a non-negative
    base delay and a multiplier of at least 1 a later delay is never shorter
    than an earlier one; and with a non-negative cap the time slept in all is
    at most [maxRetries * maxBackoffTime], whatever the calls do. *)
Theorem retryWithBackoff_sleep_bound :
  0 <= maxRetries ->
  (exists n, Z.of_nat n <= maxRetries
             /\ delays (fst retryWithBackoff) = map delayFor (seq 0 n))
  /\ Forall (fun d => d <= maxBackoffTime) (delays (fst retryWithBackoff))
  /\ (0 <= baseDelay -> 1 <= backoffMultiplier ->
      forall j k, (j <= k)%nat -> delayFor j <= delayFor k)
  /\ (0 <= maxBackoffTime ->
      totalDelay (fst retryWithBackoff) <= maxRetries * maxBackoffTime).
Proof.
  intros Hnn. unfold Retry.retryWithBackoff.
  destruct (loop_timers_le T backoffMultiplier maxBackoffTime rev fn maxRetries baseDelay
              (Z.to_nat (maxRetries + 1)) 0 None) as (n & Hn & Hd);
    [simpl; lia|].
  assert (Hcap : Forall (fun d => d <= maxBackoffTime)
                   (delays (fst (loop (Z.to_nat (maxRetries + 1)) 0%nat None)))).
  { rewrite Hd. apply Forall_map. apply Forall_forall. intros k _. apply delayFor_capped. }
  split; [exists n; split; [lia | exact Hd]|].
  split; [exact Hcap|].
  split; [apply delayFor_monotone|].
  intros Hcapnn. unfold totalDelay.
  pose proof (sum_capped _ _ Hcap) as Hsum.
  rewrite Hd in Hsum at 2. rewrite length_map, length_seq in Hsum.
  assert (Z.of_nat n * maxBackoffTime <= maxRetries * maxBackoffTime).
  { apply Z.mul_le_mono_nonneg_r; lia. }
  lia.
Qed.

End Backoff.

(** The fetch of [getRedeemablePositions] sleeps 2000, 4000 and 8000 ms when
    all four calls fail: 14 seconds, within the bound of 90. *)
Example retry_fetch_total_delay :
  totalDelay (fst (retryWithBackoff Z 2 30000 TS
                     (fun _ => Rejected (ErrorObj "Data API error 500")) 3 2000))
  = 14000.
Proof. reflexivity. Qed.

Lemma retryWithBackoff_sleep_bound_witness :
  0 <= 3 /\ 0 <= 30000
  /\ totalDelay (fst (retryWithBackoff Z 2 30000 TS flaky 3 2000)) <= 3 * 30000.
Proof.
  split; [lia|]. split; [lia|].
  apply (retryWithBackoff_sleep_bound Z 2 30000 TS flaky 3 2000); lia.
Defined.

End Retry.

(* ===================================================================== *)
(** * Rate limiter ([src/rateLimiter.ts], [rateLimiter.js]) *)
(* ===================================================================== *)

Module RateLimiter.

(** The object's four fields. [requests] holds [Date.now()] readings in the
    order they were pushed. *)
Record t : Type := mk {
  requestsPerMinute : Z;
  burstLimit : Z;
  windowMs : Z;
  requests : list Z
}.

(** [new RateLimiter()] with the constructor's defaults. *)
Definition globalRateLimiter : t := mk 30 10 60000 [].

Definition setRequests (rl : t) (reqs : list Z) : t :=
  mk (requestsPerMinute rl) (burstLimit rl) (windowMs rl) reqs.

(** [timestamp => now - timestamp < w]. *)
Definition within (w now : Z) (timestamp : Z) : bool := now - timestamp <? w.

(** [canMakeRequest()]; [now] is its reading of [Date.now()]. The assignment
    to [this.requests] is the second component. *)
Definition canMakeRequest (now : Z) (rl : t) : bool * t :=
  let kept := filter (within (windowMs rl) now) (requests rl) in
  let rl' := setRequests rl kept in
  if Z.of_nat (List.length kept) >=? burstLimit rl then (false, rl')
  else
    let requestsInWindow := filter (within 60000 now) kept in
    if Z.of_nat (List.length requestsInWindow) >=? requestsPerMinute rl
    then (false, rl')
    else (true, rl').

(** [recordRequest()]: [this.requests.push(Date.now())]. *)
Definition recordRequest (now : Z) (rl : t) : t :=
  setRequests rl (requests rl ++ [now]).

(** [Math.min(...l)] of a non-empty array. *)
Definition minimum (l : list Z) : option Z :=
  match l with
  | [] => None
  | x :: l' => Some (fold_left Z.min l' x)
  end.

(** [getTimeUntilNextRequest()] of [rateLimiter.ts]. It reads the clock twice:
    [now1] inside [canMakeRequest()], [now2] in its own [const now]. *)
Definition getTimeUntilNextRequest (now1 now2 : Z) (rl : t) : Z * t :=
  let '(ok, rl') := canMakeRequest now1 rl in
  if ok then (0, rl')
  else
    match minimum (requests rl') with
    | None => (0, rl')                            (* requests.length === 0 *)
    | Some oldestRequest =>
        let timeSinceOldest := now2 - oldestRequest in
        let burstClearTime := windowMs rl' - timeSinceOldest in
        let recentRequests := filter (within 60000 now2) (requests rl') in
        match minimum recentRequests with
        | None => (Z.max 0 burstClearTime, rl')   (* recentRequests.length === 0 *)
        | Some oldestRecent =>
            let rateClearTime := 60000 - (now2 - oldestRecent) in
            (Z.max 0 (Z.min burstClearTime rateClearTime), rl')
        end
    end.

(** ** The earlier revision, [rateLimiter.js]

    It computes the same two clear times but spreads possibly empty arrays into
    [Math.min] and returns the smaller one as it is. [Math.min()] of no
    argument is [Infinity], so its numbers are integers or an infinity. *)
Inductive jsnum : Type := Fin (z : Z) | PosInf | NegInf.

(** [Math.min(...l)]. *)
Definition jsMinimum (l : list Z) : jsnum :=
  match minimum l with
  | Some m => Fin m
  | None => PosInf
  end.

(** [a - b] for a finite [a]. *)
Definition jsSubFrom (a : Z) (b : jsnum) : jsnum :=
  match b with
  | Fin z => Fin (a - z)
  | PosInf => NegInf
  | NegInf => PosInf
  end.

(** [Math.min(a, b)]. *)
Definition jsMin (a b : jsnum) : jsnum :=
  match a, b with
  | NegInf, _ | _, NegInf => NegInf
  | PosInf, x | x, PosInf => x
  | Fin x, Fin y => Fin (Z.min x y)
  end.

Definition getTimeUntilNextRequestJS (now1 now2 : Z) (rl : t) : jsnum * t :=
  let '(ok, rl') := canMakeRequest now1 rl in
  if ok then (Fin 0, rl')
  else
    let oldestRequest := jsMinimum (requests rl') in
    let timeSinceOldest := jsSubFrom now2 oldestRequest in
    let burstClearTime := jsSubFrom (windowMs rl') timeSinceOldest in
    let rateClearTime :=
      jsSubFrom 60000
        (jsSubFrom now2 (jsMinimum (filter (within 60000 now2) (requests rl')))) in
    (jsMin burstClearTime rateClearTime, rl').

(** ** [executeWithRateLimit] *)

(** What the caller of [executeWithRateLimit] can observe, in order. *)
Inductive Event : Type :=
| Sleep (waitTime : Z)     (* the timer of [waitForNextRequest] *)
| Call                     (* [await fn()] *)
| RecordRequest (timestamp : Z).  (* [this.recordRequest()] *)

(** What [await fn()] does: it resolves to a value or rejects with an error. *)
Inductive Settled (T E : Type) : Type :=
| Fulfilled (value : T)
| Failed (error : E).
Arguments Fulfilled {T E} value.
Arguments Failed {T E} error.

(** [waitForNextRequest()]: the wait time, and a timer only when it is
    positive. *)
Definition waitForNextRequest (now1 now2 : Z) (rl : t) : list Event * t :=
  let '(waitTime, rl') := getTimeUntilNextRequest now1 now2 rl in
  if waitTime >? 0 then ([Sleep waitTime], rl') else ([], rl').

(** [executeWithRateLimit(fn)]. [now1], [now2] are the clock readings of the
    wait, [now3] the one of [recordRequest()]. The wrapped operation may itself
    use the limiter while it runs: [fn] maps the limiter it finds to its
    outcome and the limiter it leaves. Both branches of the [try] record, and
    the [catch] rethrows what it caught. *)
Definition executeWithRateLimit {T E : Type}
    (fn : t -> Settled T E * t) (now1 now2 now3 : Z) (rl : t)
  : list Event * Settled T E * t :=
  let '(waited, rl1) := waitForNextRequest now1 now2 rl in
  let '(outcome, rl2) := fn rl1 in
  match outcome with
  | Fulfilled result =>
      (waited ++ [Call; RecordRequest now3], Fulfilled result, recordRequest now3 rl2)
  | Failed error =>
      (waited ++ [Call; RecordRequest now3], Failed error, recordRequest now3 rl2)
  end.

(** ** Specification vocabulary *)

(** The number of entries of [l] that are within [w] milliseconds of [now]. *)
Definition countWithin (w now : Z) (l : list Z) : Z :=
  Z.of_nat (List.length (filter (within w now) l)).

(** The entries left by the pruning at [now]. *)
Definition pruned (now : Z) (rl : t) : list Z :=
  filter (within (windowMs rl) now) (requests rl).

(** Until when the oldest entry of [l] stays within [w] of the clock: none
    when [l] is empty. *)
Definition timeUntilClear (w now : Z) (l : list Z) : option Z :=
  match minimum l with
  | Some oldest => Some (w - (now - oldest))
  | None => None
  end.

Definition recorded (evs : list Event) : list Z :=
  flat_map (fun e => match e with RecordRequest ts => [ts] | _ => [] end) evs.

Definition calls (evs : list Event) : nat :=
  List.length (filter (fun e => match e with Call => true | _ => false end) evs).

(** ** Properties *)

Lemma fold_min_le_init : forall l x, fold_left Z.min l x <= x.
Proof.
  induction l as [|y l IH]; intros x; simpl; [lia|].
  specialize (IH (Z.min x y)). lia.
Qed.

Lemma fold_min_lower : forall l x y, In y l -> fold_left Z.min l x <= y.
Proof.
  induction l as [|z l IH]; intros x y Hin; simpl in *; [contradiction|].
  destruct Hin as [->|Hin].
  - pose proof (fold_min_le_init l (Z.min x y)). lia.
  - now apply IH.
Qed.

Lemma fold_min_in : forall l x, fold_left Z.min l x = x \/ In (fold_left Z.min l x) l.
Proof.
  induction l as [|y l IH]; intros x; simpl; [now left|].
  destruct (IH (Z.min x y)) as [H|H].
  - rewrite H. destruct (Z.min_spec x y) as [[_ ->]|[_ ->]]; auto.
  - auto.
Qed.

(** [minimum] is the least element. *)
Lemma minimum_spec : forall l m,
  minimum l = Some m -> In m l /\ forall y, In y l -> m <= y.
Proof.
  intros [|x l] m H; simpl in H; [discriminate|].
  injection H as <-. split.
  - destruct (fold_min_in l x) as [->|Hin]; simpl; auto.
  - intros y [<-|Hin].
    + apply fold_min_le_init.
    + now apply fold_min_lower.
Qed.

Lemma minimum_none : forall l, minimum l = None <-> l = [].
Proof. intros [|x l]; simpl; split; intros H; congruence. Qed.

(** [timeUntilClear w now l] is the least delay after which some entry of [l]
    has left the window [w]: a slot of that window frees then, not before. *)
Lemma timeUntilClear_least : forall w now l c,
  timeUntilClear w now l = Some c ->
  forall d, (exists ts, In ts l /\ within w (now + d) ts = false) <-> c <= d.
Proof.
  unfold timeUntilClear, within. intros w now l c H d.
  destruct (minimum l) as [oldest|] eqn:Hm; [|discriminate].
  injection H as <-. apply minimum_spec in Hm as [Hin Hle].
  split.
  - intros (ts & Hts & Hout). apply Z.ltb_ge in Hout.
    specialize (Hle ts Hts). lia.
  - intros Hd. exists oldest. split; [exact Hin|]. apply Z.ltb_ge. lia.
Qed.

Lemma canMakeRequest_requests : forall now rl,
  requests (snd (canMakeRequest now rl)) = pruned now rl.
Proof.
  intros now rl. unfold canMakeRequest, pruned.
  destruct (_ >=? burstLimit rl); [reflexivity|].
  destruct (_ >=? requestsPerMinute rl); reflexivity.
Qed.

Lemma canMakeRequest_config : forall now rl,
  windowMs (snd (canMakeRequest now rl)) = windowMs rl.
Proof.
  intros now rl. unfold canMakeRequest.
  destruct (_ >=? burstLimit rl); [reflexivity|].
  destruct (_ >=? requestsPerMinute rl); reflexivity.
Qed.

Lemma canMakeRequest_denied : forall now rl,
  fst (canMakeRequest now rl) = false <->
  burstLimit rl <= countWithin (windowMs rl) now (requests rl)
  \/ requestsPerMinute rl <= countWithin 60000 now (pruned now rl).
Proof.
  intros now rl. unfold canMakeRequest, countWithin, pruned.
  destruct (Z.geb_spec (Z.of_nat (List.length (filter (within (windowMs rl) now) (requests rl))))
              (burstLimit rl)) as [Hb|Hb]; simpl.
  - split; [intros _; left; lia | reflexivity].
  - destruct (Z.geb_spec
                (Z.of_nat (List.length (filter (within 60000 now)
                                          (filter (within (windowMs rl) now) (requests rl)))))
                (requestsPerMinute rl)) as [Hr|Hr]; simpl.
    + split; [intros _; right; lia | reflexivity].
    + split; [discriminate | intros [H|H]; lia].
Qed.

(** The admission decision and the wait time of [rateLimiter.ts]: the
    pruning keeps the entries within [windowMs]; admission is refused exactly
    when the kept entries number at least [burstLimit], or those of them
    within 60000 ms number at least [requestsPerMinute]; the wait time is never
    negative, is 0 when admission is granted, and otherwise is the smaller of
    the two times until the oldest entry of each window leaves it, cut at 0. *)
Theorem getTimeUntilNextRequest_spec : forall now1 now2 rl,
  requests (snd (canMakeRequest now1 rl)) = pruned now1 rl
  /\ (fst (canMakeRequest now1 rl) = false <->
        burstLimit rl <= countWithin (windowMs rl) now1 (requests rl)
        \/ requestsPerMinute rl <= countWithin 60000 now1 (pruned now1 rl))
  /\ 0 <= fst (getTimeUntilNextRequest now1 now2 rl)
  /\ (fst (canMakeRequest now1 rl) = true ->
        fst (getTimeUntilNextRequest now1 now2 rl) = 0)
  /\ (fst (canMakeRequest now1 rl) = false ->
        fst (getTimeUntilNextRequest now1 now2 rl) =
        match timeUntilClear (windowMs rl) now2 (pruned now1 rl),
              timeUntilClear 60000 now2 (filter (within 60000 now2) (pruned now1 rl))
        with
        | None, _ => 0
        | Some burstClear, None => Z.max 0 burstClear
        | Some burstClear, Some rateClear => Z.max 0 (Z.min burstClear rateClear)
        end).
Proof.
  intros now1 now2 rl.
  split; [apply canMakeRequest_requests|].
  split; [apply canMakeRequest_denied|].
  pose proof (canMakeRequest_requests now1 rl) as Hreq.
  pose proof (canMakeRequest_config now1 rl) as Hcfg.
  unfold getTimeUntilNextRequest, timeUntilClear.
  destruct (canMakeRequest now1 rl) as [ok rl'] eqn:Hcan. cbn [fst snd] in *.
  rewrite Hreq, Hcfg.
  destruct ok; cbn [fst snd].
  - repeat split; intros; try discriminate; lia.
  - destruct (minimum (pruned now1 rl)) as [oldest|]; cbn [fst snd].
    + destruct (minimum (filter (within 60000 now2) (pruned now1 rl))) as [recent|];
        cbn [fst snd]; (repeat split; intros; try discriminate; lia).
    + repeat split; intros; try discriminate; lia.
Qed.

(** The burst test of the default limiter: ten requests in the same
    millisecond fill it, and the eleventh has to wait a full window. *)
Example burst_full_waits :
  fst (getTimeUntilNextRequest 5 5 (mk 30 10 60000 (repeat 5 10))) = 60000.
Proof. reflexivity. Qed.

(** C5, on [rateLimiter.js]: with the default limiter holding ten requests
    made at time 0, a check at 59999 ms refuses admission (all ten are still in
    the window), and if the clock reads 60001 ms when the wait is computed the
    function returns -1. [rateLimiter.ts] returns 0 there. *)
Theorem getTimeUntilNextRequestJS_negative :
  fst (canMakeRequest 59999 (mk 30 10 60000 (repeat 0 10))) = false
  /\ fst (getTimeUntilNextRequestJS 59999 60001 (mk 30 10 60000 (repeat 0 10))) = Fin (-1)
  /\ fst (getTimeUntilNextRequest 59999 60001 (mk 30 10 60000 (repeat 0 10))) = 0.
Proof. repeat split; reflexivity. Qed.

(** With a single clock reading the earlier revision agrees with the current
    one whenever the limiter holds an entry: the difference is the missing cut
    at 0 and the empty case. *)
Lemma getTimeUntilNextRequestJS_same_clock : forall now rl,
  fst (canMakeRequest now rl) = false ->
  pruned now rl <> [] ->
  0 < windowMs rl ->
  fst (getTimeUntilNextRequestJS now now rl) = Fin (fst (getTimeUntilNextRequest now now rl)).
Proof.
  intros now rl Hden Hne Hw.
  pose proof (canMakeRequest_requests now rl) as Hreq.
  pose proof (canMakeRequest_config now rl) as Hcfg.
  unfold getTimeUntilNextRequestJS, getTimeUntilNextRequest, jsMinimum.
  destruct (canMakeRequest now rl) as [ok rl'] eqn:Hcan. cbn [fst snd] in *. subst ok.
  rewrite Hreq, Hcfg.
  destruct (minimum (pruned now rl)) as [oldest|] eqn:Hm;
    [|apply minimum_none in Hm; contradiction].
  assert (Hold : now - oldest < windowMs rl).
  { apply minimum_spec in Hm as [Hin _]. unfold pruned in Hin.
    apply filter_In in Hin as [_ Hin]. unfold within in Hin. now apply Z.ltb_lt in Hin. }
  destruct (minimum (filter (within 60000 now) (pruned now rl))) as [recent|] eqn:Hr;
    cbn [fst snd jsMin jsSubFrom].
  - assert (now - recent < 60000).
    { apply minimum_spec in Hr as [Hin _].
      apply filter_In in Hin as [_ Hin]. unfold within in Hin. now apply Z.ltb_lt in Hin. }
    f_equal. lia.
  - f_equal. lia.
Qed.

(** C8. [executeWithRateLimit] waits for admission, calls the operation once
    and records once: the events are the wait's, then the call, then one
    [recordRequest]; the limiter ends with exactly one timestamp more than the
    operation left it with, whether the operation resolved or rejected; and the
    outcome handed to the caller is the operation's own, a rejection being
    rethrown as it was caught. *)
Theorem executeWithRateLimit_records_once :
  forall (T E : Type) (fn : t -> Settled T E * t) (now1 now2 now3 : Z) (rl : t),
    let rl1 := snd (waitForNextRequest now1 now2 rl) in
    let run := executeWithRateLimit fn now1 now2 now3 rl in
    fst (fst run) = fst (waitForNextRequest now1 now2 rl) ++ [Call; RecordRequest now3]
    /\ calls (fst (fst run)) = 1%nat
    /\ recorded (fst (fst run)) = [now3]
    /\ snd (fst run) = fst (fn rl1)
    /\ requests (snd run) = requests (snd (fn rl1)) ++ [now3]
    /\ List.length (requests (snd run)) = S (List.length (requests (snd (fn rl1)))).
Proof.
  intros T E fn now1 now2 now3 rl. cbv zeta.
  unfold executeWithRateLimit.
  destruct (waitForNextRequest now1 now2 rl) as [waited rl1] eqn:Hw. simpl.
  assert (Hwaited : calls waited = 0%nat /\ recorded waited = []).
  { unfold waitForNextRequest in Hw.
    destruct (getTimeUntilNextRequest now1 now2 rl) as [w r].
    destruct (w >? 0); injection Hw as <- <-; split; reflexivity. }
  destruct Hwaited as [Hc Hr].
  assert (Hcalls : calls (waited ++ [Call; RecordRequest now3]) = 1%nat).
  { unfold calls in *. rewrite filter_app, length_app, Hc. reflexivity. }
  assert (Hrec : recorded (waited ++ [Call; RecordRequest now3]) = [now3]).
  { unfold recorded in *. rewrite flat_map_app, Hr. reflexivity. }
  destruct (fn rl1) as [[v|e] rl2]; simpl;
    repeat split; auto; rewrite length_app; simpl; lia.
Qed.

(** A rejected fetch on the fresh global limiter: no wait, one call, one
    timestamp, the same error. *)
Example executeWithRateLimit_failed_call :
  executeWithRateLimit (fun rl => (Failed "Data API error 500" : Settled Z string, rl))
    1000 1000 1250 globalRateLimiter
  = ([Call; RecordRequest 1250], Failed "Data API error 500", mk 30 10 60000 [1250]).
Proof. reflexivity. Qed.

(** ** Sequential use of [executeWithRateLimit]

    A caller that awaits each call before it makes the next one, as
    [getRedeemablePositions] does, with operations that leave the limiter
    alone. *)

(** One call: what the operation settles with, and the three readings of
    [Date.now()] the call makes, in [canMakeRequest()], in
    [getTimeUntilNextRequest()] and in [recordRequest()]. *)
Record Invocation (T E : Type) : Type := mkInvocation {
  callOutcome : Settled T E;
  atCheck : Z;
  atWait : Z;
  atRecord : Z
}.
Arguments mkInvocation {T E} callOutcome atCheck atWait atRecord.
Arguments callOutcome {T E} _.
Arguments atCheck {T E} _.
Arguments atWait {T E} _.
Arguments atRecord {T E} _.

Definition executeCall {T E : Type} (c : Invocation T E) (rl : t) : t :=
  snd (executeWithRateLimit (fun r => (callOutcome c, r))
         (atCheck c) (atWait c) (atRecord c) rl).

Definition executeAll {T E : Type} (cs : list (Invocation T E)) (rl : t) : t :=
  fold_left (fun r c => executeCall c r) cs rl.

(** The readings are those of a clock that does not go back, read after
    [since], and the timer of [waitForNextRequest] does not fire early: the
    reading of [recordRequest()] comes no sooner than the wait time after the
    reading the wait time was computed from. *)
Fixpoint timed {T E : Type} (since : Z) (cs : list (Invocation T E)) (rl : t) : bool :=
  match cs with
  | [] => true
  | c :: cs' =>
      (since <=? atCheck c) && (atCheck c <=? atWait c)
      && (atWait c + fst (getTimeUntilNextRequest (atCheck c) (atWait c) rl) <=? atRecord c)
      && timed (atRecord c) cs' (executeCall c rl)
  end.

(** The reading of the last [recordRequest()]. *)
Fixpoint lastRecord {T E : Type} (since : Z) (cs : list (Invocation T E)) : Z :=
  match cs with
  | [] => since
  | c :: cs' => lastRecord (atRecord c) cs'
  end.

Lemma filter_length_mono : forall (A : Type) (p q : A -> bool) l,
  (forall x, In x l -> p x = true -> q x = true) ->
  (List.length (filter p l) <= List.length (filter q l))%nat.
Proof.
  induction l as [|x l IH]; intros H; simpl; [lia|].
  assert (IH' : (List.length (filter p l) <= List.length (filter q l))%nat).
  { apply IH. intros y Hy. apply H. now right. }
  destruct (p x) eqn:Hp.
  - rewrite (H x (or_introl eq_refl) Hp). simpl. lia.
  - destruct (q x); simpl; lia.
Qed.

Lemma filter_length_drops : forall (A : Type) (p : A -> bool) l x,
  In x l -> p x = false -> (List.length (filter p l) < List.length l)%nat.
Proof.
  induction l as [|y l IH]; intros x Hin Hp; simpl; [contradiction|].
  pose proof (filter_length_le p l) as Hle.
  destruct Hin as [->|Hin].
  - rewrite Hp. lia.
  - specialize (IH x Hin Hp). destruct (p y); simpl; lia.
Qed.

(** As the clock advances, entries only leave a window. *)
Lemma countWithin_later : forall w now now' l,
  now <= now' -> countWithin w now' l <= countWithin w now l.
Proof.
  intros w now now' l Hle. unfold countWithin. apply inj_le.
  apply filter_length_mono. intros x _. unfold within.
  intros H. apply Z.ltb_lt in H. apply Z.ltb_lt. lia.
Qed.

Lemma filter_within_wider : forall w w' now l,
  w <= w' -> filter (within w' now) (filter (within w now) l) = filter (within w now) l.
Proof.
  intros w w' now l Hle. induction l as [|x l IH]; simpl; [reflexivity|].
  destruct (within w now x) eqn:Hx; simpl; [|exact IH].
  assert (Hx' : within w' now x = true).
  { unfold within in *. apply Z.ltb_lt in Hx. apply Z.ltb_lt. lia. }
  rewrite Hx', IH. reflexivity.
Qed.

Lemma getTimeUntilNextRequest_limiter : forall now1 now2 rl,
  snd (getTimeUntilNextRequest now1 now2 rl) = snd (canMakeRequest now1 rl).
Proof.
  intros now1 now2 rl. unfold getTimeUntilNextRequest.
  destruct (canMakeRequest now1 rl) as [[|] rl']; cbn [snd]; [reflexivity|].
  destruct (minimum (requests rl')); [|reflexivity].
  destruct (minimum (filter (within 60000 now2) (requests rl'))); reflexivity.
Qed.

Lemma canMakeRequest_limiter : forall now rl,
  snd (canMakeRequest now rl) = setRequests rl (pruned now rl).
Proof.
  intros now rl. unfold canMakeRequest, pruned.
  destruct (_ >=? burstLimit rl); [reflexivity|].
  destruct (_ >=? requestsPerMinute rl); reflexivity.
Qed.

(** The limiter a sequential call leaves: the entries pruned at the first
    reading, and the new one. *)
Lemma executeCall_limiter : forall (T E : Type) (c : Invocation T E) rl,
  executeCall c rl = setRequests rl (pruned (atCheck c) rl ++ [atRecord c]).
Proof.
  intros T E c rl. unfold executeCall, executeWithRateLimit, waitForNextRequest.
  pose proof (getTimeUntilNextRequest_limiter (atCheck c) (atWait c) rl) as Hl.
  rewrite canMakeRequest_limiter in Hl.
  destruct (getTimeUntilNextRequest (atCheck c) (atWait c) rl) as [waitTime rl'].
  cbn [snd] in Hl. subst rl'.
  destruct (waitTime >? 0); destruct (callOutcome c); reflexivity.
Qed.

(** When the pruned entries fill the smaller of the two limits and the window
    is at most a minute, admission is refused and the wait time reaches at
    least to the moment the oldest entry leaves the window. *)
Lemma wait_covers_oldest : forall now1 now2 rl,
  windowMs rl <= 60000 ->
  now1 <= now2 ->
  Z.min (requestsPerMinute rl) (burstLimit rl) <= Z.of_nat (List.length (pruned now1 rl)) ->
  pruned now1 rl <> [] ->
  exists oldest,
    In oldest (pruned now1 rl)
    /\ windowMs rl - (now2 - oldest) <= fst (getTimeUntilNextRequest now1 now2 rl).
Proof.
  intros now1 now2 rl Hw Hclock Hfull Hne.
  pose proof (canMakeRequest_limiter now1 rl) as Hl.
  assert (Hden : fst (canMakeRequest now1 rl) = false).
  { apply canMakeRequest_denied. unfold countWithin.
    fold (pruned now1 rl). unfold pruned at 2.
    rewrite (filter_within_wider _ _ _ _ Hw). fold (pruned now1 rl). lia. }
  unfold getTimeUntilNextRequest.
  destruct (canMakeRequest now1 rl) as [ok rl']. cbn [fst snd] in *. subst ok rl'.
  cbn [requests setRequests windowMs].
  destruct (minimum (pruned now1 rl)) as [oldest|] eqn:Hm;
    [|apply minimum_none in Hm; contradiction].
  destruct (minimum_spec _ _ Hm) as [Hin Hleast].
  exists oldest. split; [exact Hin|].
  destruct (minimum (filter (within 60000 now2) (pruned now1 rl))) as [recent|] eqn:Hr;
    cbn [fst].
  - destruct (minimum_spec _ _ Hr) as [Hrin _].
    apply filter_In in Hrin as [Hrin _]. specialize (Hleast recent Hrin). lia.
  - lia.
Qed.

(** One sequential call keeps the bound: if at most
    [min requestsPerMinute burstLimit] entries were within the window at
    [since], the same holds at the reading of [recordRequest()], the new entry
    counted. *)
Lemma executeCall_keeps_bound : forall (T E : Type) (c : Invocation T E) rl since,
  1 <= requestsPerMinute rl -> 1 <= burstLimit rl -> windowMs rl <= 60000 ->
  since <= atCheck c -> atCheck c <= atWait c ->
  atWait c + fst (getTimeUntilNextRequest (atCheck c) (atWait c) rl) <= atRecord c ->
  countWithin (windowMs rl) since (requests rl)
    <= Z.min (requestsPerMinute rl) (burstLimit rl) ->
  countWithin (windowMs rl) (atRecord c) (requests (executeCall c rl))
    <= Z.min (requestsPerMinute rl) (burstLimit rl).
Proof.
  intros T E c rl since Hrpm Hburst Hw H1 H2 H3 Hinv.
  rewrite executeCall_limiter. cbn [requests setRequests].
  set (L := Z.min (requestsPerMinute rl) (burstLimit rl)) in *.
  set (kept := pruned (atCheck c) rl).
  assert (Hk : Z.of_nat (List.length kept) <= L).
  { pose proof (countWithin_later (windowMs rl) since (atCheck c) (requests rl) H1) as Hm.
    unfold countWithin in Hm, Hinv. unfold kept, pruned. lia. }
  assert (Hnew : countWithin (windowMs rl) (atRecord c) (kept ++ [atRecord c])
                 <= countWithin (windowMs rl) (atRecord c) kept + 1).
  { unfold countWithin. rewrite filter_app, length_app. cbn [filter].
    destruct (within (windowMs rl) (atRecord c) (atRecord c)); simpl; lia. }
  assert (Hold : countWithin (windowMs rl) (atRecord c) kept <= Z.of_nat (List.length kept)).
  { unfold countWithin. apply inj_le. apply filter_length_le. }
  destruct (Z.eq_dec (Z.of_nat (List.length kept)) L) as [Hfull|Hroom]; [|lia].
  assert (Hne : kept <> []).
  { intros Heq. rewrite Heq in Hfull. simpl in Hfull. lia. }
  destruct (wait_covers_oldest (atCheck c) (atWait c) rl Hw H2) as (oldest & Hin & Hwait);
    [fold kept; fold L; lia | exact Hne |].
  fold kept in Hin.
  assert (Hlt : (List.length (filter (within (windowMs rl) (atRecord c)) kept)
                 < List.length kept)%nat).
  { apply (filter_length_drops _ _ kept oldest); [exact Hin|].
    unfold within. apply Z.ltb_ge. lia. }
  unfold countWithin in *. lia.
Qed.

Lemma executeCall_config : forall (T E : Type) (c : Invocation T E) rl,
  requestsPerMinute (executeCall c rl) = requestsPerMinute rl
  /\ burstLimit (executeCall c rl) = burstLimit rl
  /\ windowMs (executeCall c rl) = windowMs rl.
Proof. intros T E c rl. rewrite executeCall_limiter. repeat split. Qed.

(** The sliding-window guarantee of sequential use. With both limits at least
    1 and a window of at most a minute, a limiter that holds at most
    [min requestsPerMinute burstLimit] entries within the window keeps doing so
    through any number of calls made one after the other: at the reading of
    each [recordRequest()], and at any later time, at most that many recorded
    requests, the newest included, lie within the last [windowMs]
    milliseconds. *)
Theorem sequential_calls_keep_window :
  forall (T E : Type) (cs : list (Invocation T E)) (rl : t) (since : Z),
    1 <= requestsPerMinute rl -> 1 <= burstLimit rl -> windowMs rl <= 60000 ->
    timed since cs rl = true ->
    countWithin (windowMs rl) since (requests rl)
      <= Z.min (requestsPerMinute rl) (burstLimit rl) ->
    forall now, lastRecord since cs <= now ->
      countWithin (windowMs rl) now (requests (executeAll cs rl))
        <= Z.min (requestsPerMinute rl) (burstLimit rl).
Proof.
  intros T E cs. induction cs as [|c cs IH]; intros rl since Hrpm Hburst Hw Htimed Hinv now Hnow.
  - cbn [executeAll fold_left lastRecord] in *.
    pose proof (countWithin_later (windowMs rl) since now (requests rl) Hnow). lia.
  - cbn [timed] in Htimed.
    apply andb_true_iff in Htimed as [Htimed Hrest].
    apply andb_true_iff in Htimed as [Htimed H3].
    apply andb_true_iff in Htimed as [H1 H2].
    apply Z.leb_le in H1, H2, H3.
    destruct (executeCall_config T E c rl) as (Hc1 & Hc2 & Hc3).
    pose proof (executeCall_keeps_bound T E c rl since Hrpm Hburst Hw H1 H2 H3 Hinv) as Hstep.
    cbn [executeAll fold_left lastRecord] in *.
    specialize (IH (executeCall c rl) (atRecord c)).
    rewrite Hc1, Hc2, Hc3 in IH.
    apply IH; auto.
Qed.

(** Twelve calls in a row on the fresh global limiter, each taking 100 ms: the
    eleventh is made to wait until the first entry is a minute old. *)
Definition burstOfCalls : list (Invocation Z string) :=
  map (fun i => mkInvocation (Fulfilled i) (100 * i) (100 * i) (100 * i + 100))
      [0; 1; 2; 3; 4; 5; 6; 7; 8; 9]
  ++ [mkInvocation (Fulfilled 10) 1000 1000 60100; mkInvocation (Fulfilled 11) 60100 60100 60200].

Example burstOfCalls_waits :
  fst (getTimeUntilNextRequest 1000 1000 (executeAll (firstn 10 burstOfCalls) globalRateLimiter))
  = 59100.
Proof. reflexivity. Qed.

Lemma sequential_calls_keep_window_witness :
  timed 0 burstOfCalls globalRateLimiter = true
  /\ countWithin 60000 60200 (requests (executeAll burstOfCalls globalRateLimiter)) <= 10.
Proof.
  split; [reflexivity|].
  apply (sequential_calls_keep_window Z string burstOfCalls globalRateLimiter 0);
    cbn [requestsPerMinute burstLimit windowMs globalRateLimiter requests]; try lia;
    try reflexivity.
  unfold countWithin. simpl. lia.
Defined.

End RateLimiter.

(* ===================================================================== *)
(** * Hexadecimal text and the validators ([src/utils.ts]) *)
(* ===================================================================== *)

Module Hex.

(** The value of a character of [[0-9a-fA-F]]. *)
Definition digitValue (c : ascii) : option Z :=
  let n := Z.of_nat (nat_of_ascii c) in
  if (48 <=? n) && (n <=? 57) then Some (n - 48)
  else if (97 <=? n) && (n <=? 102) then Some (n - 87)
  else if (65 <=? n) && (n <=? 70) then Some (n - 55)
  else None.

Definition isHexDigit (c : ascii) : bool :=
  match digitValue c with Some _ => true | None => false end.

Fixpoint allHex (s : string) : bool :=
  match s with
  | EmptyString => true
  | String c s' => isHexDigit c && allHex s'
  end.

(** The number a string of hexadecimal digits writes, most significant digit
    first (a character that is no digit counts 0). *)
Fixpoint valueFrom (acc : Z) (s : string) : Z :=
  match s with
  | EmptyString => acc
  | String c s' =>
      valueFrom (16 * acc + match digitValue c with Some d => d | None => 0 end) s'
  end.

Definition value (s : string) : Z := valueFrom 0 s.

End Hex.

Module Validators.

(** [/^0x[a-fA-F0-9]{n}$/.test(s)]. *)
Definition isHexOfLength (n : nat) (s : string) : bool :=
  match s with
  | String "0" (String "x" digits) =>
      (String.length digits =? n)%nat && Hex.allHex digits
  | _ => false
  end.

Definition isValidAddress : string -> bool := isHexOfLength 40.
Definition isValidPrivateKey : string -> bool := isHexOfLength 64.
Definition isValidBytes32 : string -> bool := isHexOfLength 64.
Definition isValidTxHash : string -> bool := isHexOfLength 64.

End Validators.

(* ===================================================================== *)
(** * Transaction builders ([src/transactions.ts], [redeem.js]) *)
(* ===================================================================== *)

Module Transactions.

(** [CONFIG.contracts]. *)
Definition ctf : string := "0x4D97DCd97eC945f40cF65F87097ACe5EA0476045".
Definition usdc : string := "0x2791Bca1f2de4661ED88A30C99A7a9449Aa84174".
Definition negRiskAdapter : string := "0xd91E80cF2E7be2e162c6513ceD06f1dD0dA35296".

(** Call data: the selector of the function, named here by the signature it
    is the hash of, followed by the 32-byte words of the ABI encoding. *)
Record CallData : Type := mkCallData {
  signature : string;
  words : list Z
}.

(** [Transaction] of [types.ts]. *)
Record Transaction : Type := mkTransaction {
  to : string;
  data : CallData;
  value : string
}.

(** What the builders throw. The first three are the builders' own checks;
    the last is the encoder's, for an argument that is no [uint256]. *)
Inductive Error : Type :=
| InvalidConditionId (conditionId : string)
| AmountsNotNonEmptyArray
| InvalidAmount (amount : Z)
| IntegerOutOfRange (value : Z).

Definition isValidationError (e : Error) : bool :=
  match e with
  | IntegerOutOfRange _ => false
  | _ => true
  end.

Definition uint256Max : Z := 2 ^ 256 - 1.

(** The encoder's range check on one [uint256]. *)
Definition encodeUint256 (v : Z) : Error + Z :=
  if (0 <=? v) && (v <=? uint256Max) then inr v else inl (IntegerOutOfRange v).

Fixpoint encodeUint256s (vs : list Z) : Error + list Z :=
  match vs with
  | [] => inr []
  | v :: vs' =>
      match encodeUint256 v with
      | inl e => inl e
      | inr w =>
          match encodeUint256s vs' with
          | inl e => inl e
          | inr ws => inr (w :: ws)
          end
      end
  end.

(** The word of a [bytes32] or [address] argument written [0x...]. *)
Definition wordOfHex (s : string) : Z :=
  match s with
  | String "0" (String "x" digits) => Hex.value digits
  | _ => Hex.value s
  end.

(** [encodeFunctionData] for [redeemPositions(bytes32,uint256[])]: the head
    holds the condition id and the offset of the array (two words, 64 bytes),
    the tail the array's length and its elements in their order. *)
Definition encodeNegRiskRedeem (conditionId : string) (amounts : list Z)
  : Error + CallData :=
  match encodeUint256s amounts with
  | inl e => inl e
  | inr ws =>
      inr (mkCallData "redeemPositions(bytes32,uint256[])"
             (wordOfHex conditionId :: 64 :: Z.of_nat (List.length ws) :: ws))
  end.

(** [encodeFunctionData] for
    [redeemPositions(address,bytes32,bytes32,uint256[])]. *)
Definition encodeCtfRedeem (collateral parent conditionId : string) (indexSets : list Z)
  : Error + CallData :=
  match encodeUint256s indexSets with
  | inl e => inl e
  | inr ws =>
      inr (mkCallData "redeemPositions(address,bytes32,bytes32,uint256[])"
             (wordOfHex collateral :: wordOfHex parent :: wordOfHex conditionId
                :: 128 :: Z.of_nat (List.length ws) :: ws))
  end.

Definition zeroHash : string :=
  "0x0000000000000000000000000000000000000000000000000000000000000000".

(** [createCtfRedeemTx] of [transactions.ts]. *)
Definition createCtfRedeemTx (conditionId : string) : Error + Transaction :=
  if negb (Validators.isValidBytes32 conditionId)
  then inl (InvalidConditionId conditionId)
  else
    match encodeCtfRedeem usdc zeroHash conditionId [1; 2] with
    | inl e => inl e
    | inr d => inr (mkTransaction ctf d "0")
    end.

(** [createNegRiskRedeemTx] of [transactions.ts]. [amounts] is a [bigint[]],
    so [Array.isArray] and [typeof amount !== 'bigint'] hold by typing. *)
Definition createNegRiskRedeemTx (conditionId : string) (amounts : list Z)
  : Error + Transaction :=
  if negb (Validators.isValidBytes32 conditionId)
  then inl (InvalidConditionId conditionId)
  else if (List.length amounts =? 0)%nat
  then inl AmountsNotNonEmptyArray
  else
    match find (fun amount => amount <? 0) amounts with
    | Some amount => inl (InvalidAmount amount)
    | None =>
        match encodeNegRiskRedeem conditionId amounts with
        | inl e => inl e
        | inr d => inr (mkTransaction negRiskAdapter d "0")
        end
    end.

(** [createNegRiskRedeemTx] of [redeem.js]. Its amounts are JavaScript
    numbers; the ones taken here are the integers, for which
    [Number.isInteger] holds, and the check left is [amount <= 0]. Past the
    checks it hands [conditionId] and [amounts] to the encoder of another
    package; the result records that call. *)
Definition createNegRiskRedeemTxJS (conditionId : string) (amounts : list Z)
  : Error + (string * list Z) :=
  if negb (Validators.isValidBytes32 conditionId)
  then inl (InvalidConditionId conditionId)
  else if (List.length amounts =? 0)%nat
  then inl AmountsNotNonEmptyArray
  else
    match find (fun amount => amount <=? 0) amounts with
    | Some amount => inl (InvalidAmount amount)
    | None => inr (conditionId, amounts)
    end.

(** Reading the array back from call data of the negative-risk redeem. *)
Definition decodeAmounts (d : CallData) : option (list Z) :=
  match words d with
  | _ :: offset :: len :: items =>
      if (offset =? 64) && (len =? Z.of_nat (List.length items))
      then Some items else None
  | _ => None
  end.

(** A well-formed condition id, for the examples. *)
Definition sampleConditionId : string :=
  "0x00000000000000000000000000000000000000000000000000000000000000a1".

(** ** Properties *)

Lemma encodeUint256s_in_range : forall vs,
  Forall (fun a => 0 <= a < 2 ^ 256) vs -> encodeUint256s vs = inr vs.
Proof.
  induction 1 as [|a vs Ha _ IH]; simpl; [reflexivity|].
  unfold encodeUint256, uint256Max.
  replace ((0 <=? a) && (a <=? 2 ^ 256 - 1)) with true.
  - now rewrite IH.
  - symmetry. apply andb_true_iff. split; apply Z.leb_le; lia.
Qed.

Lemma find_negative_none : forall vs,
  Forall (fun a => 0 <= a) vs -> find (fun amount => amount <? 0) vs = None.
Proof.
  induction 1 as [|a vs Ha _ IH]; simpl; [reflexivity|].
  destruct (Z.ltb_spec a 0); [lia | exact IH].
Qed.

Lemma find_exists : forall (p : Z -> bool) vs,
  Exists (fun a => p a = true) vs -> exists a, find p vs = Some a.
Proof.
  induction 1 as [a vs Ha|a vs _ IH]; simpl.
  - rewrite Ha. now exists a.
  - destruct (p a); [now exists a | exact IH].
Qed.

Lemma find_forall_none : forall (p : Z -> bool) vs,
  Forall (fun a => p a = false) vs -> find p vs = None.
Proof.
  induction 1 as [|a vs Ha _ IH]; simpl; [reflexivity|].
  now rewrite Ha.
Qed.

(** The builder's own checks never let an empty or a negative list through,
    whatever the condition id. *)
Lemma createNegRiskRedeemTx_rejects : forall conditionId amounts,
  amounts = [] \/ Exists (fun a => a < 0) amounts ->
  exists e, createNegRiskRedeemTx conditionId amounts = inl e
            /\ isValidationError e = true.
Proof.
  intros cid amounts H. unfold createNegRiskRedeemTx.
  destruct (Validators.isValidBytes32 cid); simpl; [|eauto].
  destruct amounts as [|a0 rest]; simpl; [eauto|].
  destruct H as [H|H]; [discriminate|].
  destruct (find_exists (fun amount => amount <? 0) (a0 :: rest)) as [a Ha].
  - eapply Exists_impl; [|exact H]. intros x Hx. now apply Z.ltb_lt.
  - simpl in Ha. rewrite Ha. eauto.
Qed.

Lemma createNegRiskRedeemTx_accepts : forall conditionId amounts,
  Validators.isValidBytes32 conditionId = true ->
  amounts <> [] ->
  Forall (fun a => 0 <= a < 2 ^ 256) amounts ->
  createNegRiskRedeemTx conditionId amounts
  = inr (mkTransaction negRiskAdapter
           (mkCallData "redeemPositions(bytes32,uint256[])"
              (wordOfHex conditionId :: 64 :: Z.of_nat (List.length amounts) :: amounts))
           "0").
Proof.
  intros cid amounts Hcid Hne Hall. unfold createNegRiskRedeemTx.
  rewrite Hcid. simpl.
  destruct amounts as [|a0 rest]; [contradiction|].
  cbn [List.length Nat.eqb].
  rewrite find_negative_none.
  - unfold encodeNegRiskRedeem. now rewrite encodeUint256s_in_range.
  - eapply Forall_impl; [|exact Hall]. simpl. intros; lia.
Qed.

(** The encoder stops at the first amount that is no [uint256]. *)
Lemma encodeUint256s_out_of_range : forall vs,
  Forall (fun a => 0 <= a) vs ->
  Exists (fun a => 2 ^ 256 <= a) vs ->
  exists a, In a vs /\ 2 ^ 256 <= a /\ encodeUint256s vs = inl (IntegerOutOfRange a).
Proof.
  induction vs as [|v vs IH]; intros Hnn Hbig; [inversion Hbig|].
  inversion Hnn as [|v' vs' Hv Hvs]; subst.
  cbn [encodeUint256s]. unfold encodeUint256, uint256Max.
  destruct (Z.leb_spec v (2 ^ 256 - 1)) as [Hle|Hgt].
  - replace (0 <=? v) with true by (symmetry; apply Z.leb_le; exact Hv).
    cbn [andb].
    inversion Hbig as [v' vs' Hb|v' vs' Hb]; subst; [lia|].
    destruct (IH Hvs Hb) as (a & Hin & Ha & Henc).
    exists a. split; [now right|]. split; [exact Ha|]. now rewrite Henc.
  - rewrite andb_false_r. exists v. split; [now left|]. split; [lia | reflexivity].
Qed.

(** C4, as the code has it. [createNegRiskRedeemTx] throws one of its own
    validation errors for every list that is empty or holds a negative amount,
    in [transactions.ts] and in [redeem.js]. For a well-formed condition id and
    a non-empty list of amounts from 0 (zero included) up to 2^256 - 1, the
    builder of [transactions.ts] returns the transaction to the adapter whose
    call data holds the amounts in their order, and reading the array back
    gives the list. A non-empty list of amounts that are not negative, one of
    them 2^256 or more, passes the builder's checks and is refused by the
    encoder, with the range error of the first such amount, which is none of the
    validation errors. The builder of [redeem.js] hands every non-empty list of
    positive amounts to its encoder unchanged. *)
Theorem createNegRiskRedeemTx_spec : forall conditionId amounts,
  (amounts = [] \/ Exists (fun a => a < 0) amounts ->
     (exists e, createNegRiskRedeemTx conditionId amounts = inl e
                /\ isValidationError e = true)
     /\ (exists e, createNegRiskRedeemTxJS conditionId amounts = inl e
                   /\ isValidationError e = true))
  /\ (Validators.isValidBytes32 conditionId = true ->
      amounts <> [] ->
      Forall (fun a => 0 <= a < 2 ^ 256) amounts ->
      exists tx, createNegRiskRedeemTx conditionId amounts = inr tx
                 /\ to tx = negRiskAdapter
                 /\ value tx = "0"
                 /\ words (data tx)
                    = wordOfHex conditionId :: 64 :: Z.of_nat (List.length amounts) :: amounts
                 /\ decodeAmounts (data tx) = Some amounts)
  /\ (Validators.isValidBytes32 conditionId = true ->
      Forall (fun a => 0 <= a) amounts ->
      Exists (fun a => 2 ^ 256 <= a) amounts ->
      exists a, In a amounts /\ 2 ^ 256 <= a
                /\ createNegRiskRedeemTx conditionId amounts = inl (IntegerOutOfRange a)
                /\ isValidationError (IntegerOutOfRange a) = false)
  /\ (Validators.isValidBytes32 conditionId = true ->
      amounts <> [] ->
      Forall (fun a => 0 < a) amounts ->
      createNegRiskRedeemTxJS conditionId amounts = inr (conditionId, amounts)).
Proof.
  intros cid amounts. split; [|split; [|split]].
  - intros H. split; [now apply createNegRiskRedeemTx_rejects|].
    unfold createNegRiskRedeemTxJS.
    destruct (Validators.isValidBytes32 cid); simpl; [|eauto].
    destruct amounts as [|a0 rest]; simpl; [eauto|].
    destruct H as [H|H]; [discriminate|].
    destruct (find_exists (fun amount => amount <=? 0) (a0 :: rest)) as [a Ha].
    + eapply Exists_impl; [|exact H]. intros x Hx. cbn beta in Hx. apply Z.leb_le. lia.
    + simpl in Ha. rewrite Ha. eauto.
  - intros Hcid Hne Hall.
    rewrite (createNegRiskRedeemTx_accepts cid amounts Hcid Hne Hall).
    eexists. split; [reflexivity|]. cbn [to value data words].
    repeat split. unfold decodeAmounts. cbn [words].
    rewrite Z.eqb_refl, Z.eqb_refl. reflexivity.
  - intros Hcid Hnn Hbig.
    destruct (encodeUint256s_out_of_range amounts Hnn Hbig) as (a & Hin & Ha & Henc).
    exists a. split; [exact Hin|]. split; [exact Ha|]. split; [|reflexivity].
    unfold createNegRiskRedeemTx. rewrite Hcid. cbn [negb].
    destruct amounts as [|a0 rest]; [inversion Hbig|].
    cbn [List.length Nat.eqb].
    rewrite (find_negative_none (a0 :: rest) Hnn).
    unfold encodeNegRiskRedeem. now rewrite Henc.
  - intros Hcid Hne Hall. unfold createNegRiskRedeemTxJS.
    rewrite Hcid. simpl.
    destruct amounts as [|a0 rest]; [contradiction|].
    cbn [List.length Nat.eqb].
    rewrite find_forall_none; [reflexivity|].
    eapply Forall_impl; [|exact Hall]. simpl. intros x Hx. apply Z.leb_gt. lia.
Qed.

(** Zero amounts go through the current builder, in order. *)
Example createNegRiskRedeemTx_zeros :
  createNegRiskRedeemTx sampleConditionId [0; 2500000; 0]
  = inr (mkTransaction negRiskAdapter
           (mkCallData "redeemPositions(bytes32,uint256[])" [161; 64; 3; 0; 2500000; 0])
           "0").
Proof. reflexivity. Qed.

Example createNegRiskRedeemTx_negative :
  createNegRiskRedeemTx sampleConditionId [5; -1; -2] = inl (InvalidAmount (-1)).
Proof. reflexivity. Qed.

(** C4, where it fails as stated: the list [[2^256]] is not empty and holds
    no negative amount, and the builder throws, from the encoder. *)
Lemma createNegRiskRedeemTx_counterexample :
  [2 ^ 256] <> []
  /\ Forall (fun a => 0 <= a) [2 ^ 256]
  /\ createNegRiskRedeemTx sampleConditionId [2 ^ 256] = inl (IntegerOutOfRange (2 ^ 256)).
Proof.
  split; [discriminate|]. split; [|reflexivity].
  apply Forall_cons; [apply Z.pow_nonneg; lia | apply Forall_nil].
Qed.

(** The builder of [redeem.js] on a list that holds a zero, here the one of
    the repository's own example: it throws
    [Invalid amount: 0. Must be positive integer.], where the builder of
    [transactions.ts] returns the transaction. Its own caller computes
    [Math.floor(size * 1e6)] per outcome, which is 0 for an outcome that is not
    held. *)
Example createNegRiskRedeemTxJS_zero :
  createNegRiskRedeemTxJS sampleConditionId [111000000; 0] = inl (InvalidAmount 0)
  /\ createNegRiskRedeemTx sampleConditionId [111000000; 0]
     = inr (mkTransaction negRiskAdapter
              (mkCallData "redeemPositions(bytes32,uint256[])" [161; 64; 2; 111000000; 0])
              "0").
Proof. split; reflexivity. Qed.

(** ** What validation guarantees of an argument *)

Lemma digitValue_range : forall c d, Hex.digitValue c = Some d -> 0 <= d < 16.
Proof.
  intros c d. unfold Hex.digitValue.
  set (n := Z.of_nat (nat_of_ascii c)).
  destruct ((48 <=? n) && (n <=? 57)) eqn:H1.
  - apply andb_true_iff in H1 as [Ha Hb]. apply Z.leb_le in Ha, Hb.
    intros H. injection H as <-. lia.
  - destruct ((97 <=? n) && (n <=? 102)) eqn:H2.
    + apply andb_true_iff in H2 as [Ha Hb]. apply Z.leb_le in Ha, Hb.
      intros H. injection H as <-. lia.
    + destruct ((65 <=? n) && (n <=? 70)) eqn:H3; [|discriminate].
      apply andb_true_iff in H3 as [Ha Hb]. apply Z.leb_le in Ha, Hb.
      intros H. injection H as <-. lia.
Qed.

(** Digits written after a number [acc] shift it left, four bits a digit. *)
Lemma valueFrom_range : forall s acc,
  Hex.allHex s = true ->
  16 ^ Z.of_nat (String.length s) * acc <= Hex.valueFrom acc s
  /\ Hex.valueFrom acc s < 16 ^ Z.of_nat (String.length s) * (acc + 1).
Proof.
  induction s as [|c s IH]; intros acc Hall.
  - cbn [String.length Hex.valueFrom Z.of_nat]. lia.
  - cbn [Hex.allHex] in Hall. apply andb_true_iff in Hall as [Hc Hs].
    unfold Hex.isHexDigit in Hc.
    destruct (Hex.digitValue c) as [d|] eqn:Hd; [|discriminate].
    pose proof (digitValue_range c d Hd) as Hrange.
    cbn [String.length Hex.valueFrom]. rewrite Hd.
    specialize (IH (16 * acc + d) Hs).
    rewrite Nat2Z.inj_succ, Z.pow_succ_r by lia.
    assert (Hp : 0 < 16 ^ Z.of_nat (String.length s)) by (apply Z.pow_pos_nonneg; lia).
    nia.
Qed.

Lemma isHexOfLength_fits : forall n s,
  Validators.isHexOfLength n s = true ->
  String.length s = (n + 2)%nat /\ 0 <= wordOfHex s < 16 ^ Z.of_nat n.
Proof.
  intros n s H. unfold Validators.isHexOfLength in H.
  destruct s as [|a s']; try discriminate.
  destruct a as [[] [] [] [] [] [] [] []]; try discriminate.
  destruct s' as [|b digits]; try discriminate.
  destruct b as [[] [] [] [] [] [] [] []]; try discriminate.
  apply andb_true_iff in H as [Hlen Hall]. apply Nat.eqb_eq in Hlen.
  split; [cbn [String.length]; lia|].
  cbn [wordOfHex]. unfold Hex.value.
  pose proof (valueFrom_range digits 0 Hall) as Hr. rewrite Hlen in Hr. lia.
Qed.

(** The four validators of [utils.ts]. A string that passes [isValidAddress]
    has 42 characters and, read as a number, fits 20 bytes; one that passes
    [isValidBytes32] has 66 characters and fits 32 bytes; no string passes
    both, so the check on a condition id refuses every address; and
    [isValidPrivateKey] and [isValidTxHash] accept the same strings as
    [isValidBytes32]. The prefix is the lowercase [0x]; the digits may be of
    either case. *)
Theorem validators_fit : forall s,
  (Validators.isValidAddress s = true ->
     String.length s = 42%nat /\ 0 <= wordOfHex s < 2 ^ 160)
  /\ (Validators.isValidBytes32 s = true ->
      String.length s = 66%nat /\ 0 <= wordOfHex s < 2 ^ 256)
  /\ (Validators.isValidAddress s = true -> Validators.isValidBytes32 s = false)
  /\ Validators.isValidPrivateKey s = Validators.isValidBytes32 s
  /\ Validators.isValidTxHash s = Validators.isValidBytes32 s
  /\ (forall digits, s = String "0" (String "X" digits) ->
        Validators.isValidAddress s = false /\ Validators.isValidBytes32 s = false).
Proof.
  intros s.
  split; [|split; [|split; [|split; [|split]]]].
  - intros H. apply isHexOfLength_fits in H. exact H.
  - intros H. apply isHexOfLength_fits in H. exact H.
  - intros H. destruct (Validators.isValidBytes32 s) eqn:H'; [|reflexivity].
    apply isHexOfLength_fits in H as [H _]. apply isHexOfLength_fits in H' as [H' _].
    rewrite H in H'. discriminate.
  - reflexivity.
  - reflexivity.
  - intros digits ->. split; reflexivity.
Qed.

(** ** [createCtfRedeemTx] *)

(** The transaction of a well-formed id. *)
Lemma createCtfRedeemTx_accepts : forall conditionId,
  Validators.isValidBytes32 conditionId = true ->
  createCtfRedeemTx conditionId
  = inr (mkTransaction ctf
           (mkCallData "redeemPositions(address,bytes32,bytes32,uint256[])"
              [wordOfHex usdc; 0; wordOfHex conditionId; 128; 2; 1; 2])
           "0").
Proof.
  intros cid H. unfold createCtfRedeemTx. rewrite H. reflexivity.
Qed.

(** [createCtfRedeemTx] throws exactly for the ids that fail
    [isValidBytes32], and then it throws the id's own error; for every other id
    it returns the call of [redeemPositions(address,bytes32,bytes32,uint256[])]
    on the CTF contract, with value ['0'], whose seven words are the USDC
    collateral, the zero parent collection, the condition id, the offset of
    the array, its length 2 and the index sets 1 and 2; each word fits 32
    bytes, and the target passes [isValidAddress]. *)
Theorem createCtfRedeemTx_spec : forall conditionId,
  (Validators.isValidBytes32 conditionId = false ->
     createCtfRedeemTx conditionId = inl (InvalidConditionId conditionId))
  /\ (Validators.isValidBytes32 conditionId = true ->
      exists tx,
        createCtfRedeemTx conditionId = inr tx
        /\ to tx = ctf
        /\ Validators.isValidAddress (to tx) = true
        /\ value tx = "0"
        /\ signature (data tx) = "redeemPositions(address,bytes32,bytes32,uint256[])"
        /\ words (data tx)
           = [wordOfHex usdc; 0; wordOfHex conditionId; 128; 2; 1; 2]
        /\ Forall (fun w => 0 <= w < 2 ^ 256) (words (data tx))).
Proof.
  intros cid. split; intros H.
  - unfold createCtfRedeemTx. rewrite H. reflexivity.
  - rewrite (createCtfRedeemTx_accepts cid H).
    eexists. split; [reflexivity|]. cbn [to value data signature words].
    split; [reflexivity|]. split; [reflexivity|]. split; [reflexivity|].
    split; [reflexivity|]. split; [reflexivity|].
    apply isHexOfLength_fits in H as [_ Hcid].
    change (16 ^ Z.of_nat 64) with (2 ^ 256) in Hcid.
    assert (Husdc : 0 <= wordOfHex usdc < 2 ^ 256).
    { assert (Hu : Validators.isValidAddress usdc = true) by reflexivity.
      apply isHexOfLength_fits in Hu as [_ Hu].
      change (16 ^ Z.of_nat 40) with (2 ^ 160) in Hu.
      assert (2 ^ 160 < 2 ^ 256) by (apply Z.pow_lt_mono_r; lia). lia. }
    assert (Hpos : 128 < 2 ^ 256).
    { assert (2 ^ 8 <= 2 ^ 256) by (apply Z.pow_le_mono_r; lia).
      change (2 ^ 8) with 256 in *. lia. }
    repeat (apply Forall_cons; [lia|]). apply Forall_nil.
Qed.

(** ** [calculateRedeemAmounts] *)

(** The sizes are JavaScript numbers, IEEE 754 binary64 values: the floats of
    [SpecFloat] at precision 53 and exponent bound 1024, multiplied with
    rounding to nearest, ties to even. *)
Definition number : Type := SpecFloat.spec_float.

Definition times (a b : number) : number := SpecFloat.SFmul 53 1024 a b.

(** [1e6], that is 2^33 * 10^6 * 2^-33. *)
Definition million : number := SpecFloat.S754_finite false 8589934592000000 (-33).

(** The value of [Math.floor]: not a number, an infinity, or an integer (an
    integer-valued number is its integer; the sign of a zero is dropped, which
    neither [Math.max(0, x)] nor [BigInt] tells apart). *)
Inductive Floored : Type :=
| NotANumber
| Infinite (negative : bool)
| Integer (z : Z).

(** [Math.floor(x)]: a finite number is [(-1)^s * m * 2^e], and shifting by a
    negative [e] rounds towards minus infinity. *)
Definition floor (x : number) : Floored :=
  match x with
  | SpecFloat.S754_nan => NotANumber
  | SpecFloat.S754_infinity s => Infinite s
  | SpecFloat.S754_zero _ => Integer 0
  | SpecFloat.S754_finite s m e => Integer (Z.shiftl (if s then Z.neg m else Z.pos m) e)
  end.

(** [Math.max(0, x)]. *)
Definition atLeastZero (x : Floored) : Floored :=
  match x with
  | NotANumber => NotANumber
  | Infinite false => Infinite false
  | Infinite true => Integer 0
  | Integer z => Integer (Z.max 0 z)
  end.

(** [BigInt(x)]: it throws a [RangeError] for a number that is no integer. *)
Definition bigIntOf (x : Floored) : option Z :=
  match x with
  | Integer z => Some z
  | _ => None
  end.

(** [size => BigInt(Math.max(0, Math.floor(size * 1e6)))]. *)
Definition redeemAmount (size : number) : option Z :=
  bigIntOf (atLeastZero (floor (times size million))).

(** [calculateRedeemAmounts(sizes)]: [sizes.map] of the above, which throws at
    the first size that makes [BigInt] throw ([None]). *)
Fixpoint calculateRedeemAmounts (sizes : list number) : option (list Z) :=
  match sizes with
  | [] => Some []
  | size :: rest =>
      match redeemAmount size with
      | None => None
      | Some amount =>
          match calculateRedeemAmounts rest with
          | None => None
          | Some amounts => Some (amount :: amounts)
          end
      end
  end.

(** The scaled sizes [BigInt] refuses: not a number, and plus infinity. *)
Definition refused (scaled : number) : bool :=
  match scaled with
  | SpecFloat.S754_nan => true
  | SpecFloat.S754_infinity false => true
  | _ => false
  end.

Lemma redeemAmount_refused : forall size,
  redeemAmount size = None <-> refused (times size million) = true.
Proof.
  intros size. unfold redeemAmount.
  destruct (times size million) as [s|[|]| |s m e]; simpl; split; congruence.
Qed.

Lemma redeemAmount_nonneg : forall size amount,
  redeemAmount size = Some amount -> 0 <= amount.
Proof.
  intros size amount. unfold redeemAmount.
  destruct (times size million) as [s|[|]| |s m e]; simpl; intros H;
    try discriminate; injection H as <-; lia.
Qed.

Lemma calculateRedeemAmounts_returns : forall sizes amounts,
  calculateRedeemAmounts sizes = Some amounts ->
  List.length amounts = List.length sizes
  /\ Forall (fun a => 0 <= a) amounts
  /\ map Some amounts = map redeemAmount sizes.
Proof.
  induction sizes as [|size rest IH]; intros amounts H.
  - injection H as <-. repeat split. constructor.
  - cbn [calculateRedeemAmounts] in H.
    destruct (redeemAmount size) as [amount|] eqn:Ha; [|discriminate].
    destruct (calculateRedeemAmounts rest) as [amounts'|]; [|discriminate].
    injection H as <-. destruct (IH amounts' eq_refl) as (Hl & Hn & Hm).
    cbn [List.length map]. rewrite Hl, Hm, Ha. repeat split.
    constructor; [now apply (redeemAmount_nonneg size)|exact Hn].
Qed.

Lemma calculateRedeemAmounts_throws : forall sizes,
  calculateRedeemAmounts sizes = None
  <-> Exists (fun size => refused (times size million) = true) sizes.
Proof.
  induction sizes as [|size rest IH].
  - split; [discriminate | intros H; inversion H].
  - cbn [calculateRedeemAmounts].
    destruct (redeemAmount size) as [amount|] eqn:Ha.
    + assert (Hok : refused (times size million) = false).
      { destruct (refused (times size million)) eqn:Hr; [|reflexivity].
        apply redeemAmount_refused in Hr. congruence. }
      destruct (calculateRedeemAmounts rest) as [amounts'|].
      * split; [discriminate|]. intros H. inversion H as [? ? Hh|? ? Ht]; subst.
        -- congruence.
        -- apply IH in Ht. discriminate.
      * split; [|reflexivity]. intros _. apply Exists_cons_tl. now apply IH.
    + split; [|reflexivity]. intros _. apply Exists_cons_hd.
      now apply redeemAmount_refused.
Qed.

(** [Math.floor] of a finite number, said by what it lies between: for
    [v * 2^e] with [e] negative it is the integer [z] with
    [z <= v / 2^-e < z + 1], and for the others the number itself. *)
Lemma floor_finite : forall negative m e,
  exists z, floor (SpecFloat.S754_finite negative m e) = Integer z
            /\ (0 <= e -> z = (if negative then Z.neg m else Z.pos m) * 2 ^ e)
            /\ (e < 0 -> z * 2 ^ (- e) <= (if negative then Z.neg m else Z.pos m)
                                        < (z + 1) * 2 ^ (- e)).
Proof.
  intros negative m e. cbn [floor].
  set (v := if negative then Z.neg m else Z.pos m).
  exists (Z.shiftl v e). split; [reflexivity|]. split.
  - intros He. now apply Z.shiftl_mul_pow2.
  - intros He.
    assert (Hpow : 0 < 2 ^ (- e)) by (apply Z.pow_pos_nonneg; lia).
    rewrite Z.shiftl_div_pow2 by lia.
    pose proof (Z.div_mod v (2 ^ (- e))) as Hdm.
    pose proof (Z.mod_pos_bound v (2 ^ (- e)) Hpow) as Hmod.
    nia.
Qed.

(** What one amount is, from the size. *)
Lemma redeemAmount_value : forall size amount,
  redeemAmount size = Some amount ->
  match SpecFloat.SFmul 53 1024 size (SpecFloat.S754_finite false 8589934592000000 (-33)) with
  | SpecFloat.S754_nan => False
  | SpecFloat.S754_zero _ => amount = 0
  | SpecFloat.S754_infinity negative => negative = true /\ amount = 0
  | SpecFloat.S754_finite negative m e =>
      exists z, amount = Z.max 0 z
                /\ (0 <= e -> z = (if negative then Z.neg m else Z.pos m) * 2 ^ e)
                /\ (e < 0 -> z * 2 ^ (- e) <= (if negative then Z.neg m else Z.pos m)
                                            < (z + 1) * 2 ^ (- e))
  end.
Proof.
  intros size amount. unfold redeemAmount, times, million.
  destruct (SpecFloat.SFmul 53 1024 size _) as [s|[|]| |s m e].
  - cbn. intros H. now injection H as <-.
  - cbn. intros H. now injection H as <-.
  - cbn. discriminate.
  - cbn. discriminate.
  - destruct (floor_finite s m e) as (z & Hz & Hge & Hlt). rewrite Hz.
    cbn [atLeastZero bigIntOf]. intros H. injection H as <-.
    exists z. auto.
Qed.

(** [calculateRedeemAmounts], amount by amount. The constant [1e6] is the
    double of value 10^6, and the product is the IEEE 754 product in binary64,
    rounded to nearest.
    - When the function returns, it returns one amount per size, in the
      sizes' order. The amount of a size is 0 when the product is a zero or
      minus infinity. When the product is the finite number [v * 2^e], the
      amount is [max 0 z] for the integer [z] that is [v * 2^e] itself when
      [e >= 0], and the one with [z <= v / 2^-e < z + 1] otherwise: the product
      rounded down to an integer, and 0 in place of a negative one. No amount
      is negative.
    - The function throws exactly when the product of some size is not a
      number or is plus infinity. *)
Theorem calculateRedeemAmounts_spec : forall sizes,
  million = SpecFloat.S754_finite false 8589934592000000 (-33)
  /\ 8589934592000000 = 10 ^ 6 * 2 ^ 33
  /\ (forall amounts,
        calculateRedeemAmounts sizes = Some amounts ->
        Forall (fun a => 0 <= a) amounts
        /\ Forall2 (fun size amount =>
             match SpecFloat.SFmul 53 1024 size
                     (SpecFloat.S754_finite false 8589934592000000 (-33)) with
             | SpecFloat.S754_nan => False
             | SpecFloat.S754_zero _ => amount = 0
             | SpecFloat.S754_infinity negative => negative = true /\ amount = 0
             | SpecFloat.S754_finite negative m e =>
                 exists z,
                   amount = Z.max 0 z
                   /\ (0 <= e -> z = (if negative then Z.neg m else Z.pos m) * 2 ^ e)
                   /\ (e < 0 ->
                       z * 2 ^ (- e) <= (if negative then Z.neg m else Z.pos m)
                                     < (z + 1) * 2 ^ (- e))
             end) sizes amounts)
  /\ (calculateRedeemAmounts sizes = None
      <-> Exists (fun size =>
                    match SpecFloat.SFmul 53 1024 size
                            (SpecFloat.S754_finite false 8589934592000000 (-33)) with
                    | SpecFloat.S754_nan => True
                    | SpecFloat.S754_infinity negative => negative = false
                    | _ => False
                    end) sizes).
Proof.
  intros sizes. split; [reflexivity|]. split; [reflexivity|]. split.
  - intros amounts H.
    split; [apply (calculateRedeemAmounts_returns sizes amounts H)|].
    revert amounts H. induction sizes as [|size rest IH]; intros amounts H.
    + injection H as <-. constructor.
    + cbn [calculateRedeemAmounts] in H.
      destruct (redeemAmount size) as [amount|] eqn:Ha; [|discriminate].
      destruct (calculateRedeemAmounts rest) as [amounts'|]; [|discriminate].
      injection H as <-. constructor; [|now apply IH].
      now apply redeemAmount_value.
  - rewrite calculateRedeemAmounts_throws.
    split; intros H; (eapply Exists_impl; [|exact H]); intros size;
      unfold times, million, refused;
      destruct (SpecFloat.SFmul 53 1024 size _) as [s|[|]| |s m e];
      cbn; congruence || tauto.
Qed.

(** 111 shares are 111000000 base units; 8.2 shares, whose product with a
    million rounds to 8199999.999999999, are 8199999; a negative size and
    minus infinity are 0; plus infinity and not-a-number make it throw. *)
Example calculateRedeemAmounts_sample :
  calculateRedeemAmounts
    [ SpecFloat.S754_finite false 111 0;
      SpecFloat.S754_finite false 4616189618054758 (-49);
      SpecFloat.S754_zero false;
      SpecFloat.S754_finite true 3 (-1);
      SpecFloat.S754_infinity true ]
  = Some [111000000; 8199999; 0; 0; 0]
  /\ calculateRedeemAmounts [SpecFloat.S754_finite false 1 0; SpecFloat.S754_infinity false]
     = None
  /\ calculateRedeemAmounts [SpecFloat.S754_nan] = None
  /\ calculateRedeemAmounts [SpecFloat.S754_finite false 1 1023] = None.
Proof. repeat split; vm_compute; reflexivity. Qed.

End Transactions.

(* ===================================================================== *)
(** * Position fetcher: grouping ([src/redeem.ts], [redeem.js]) *)
(* ===================================================================== *)

Module Fetcher.

Section Grouping.

(** JavaScript numbers are kept abstract: [num] with [0] and [+], and the two
    conversions the loop applies to a field of the response, which may be a
    number, a string or missing ([raw]). Nothing is assumed of them, so every
    statement below holds of floating-point addition as it is. *)
Variable num : Type.
Variable raw : Type.
Variable zero : num.                      (* [0] *)
Variable add : num -> num -> num.         (* [a + b] *)
Variable numberOrZero : raw -> num.       (* [Number(x) || 0] *)
Variable max0 : num -> num.               (* [Math.max(0, x)] *)

(** [RawPositionData] of [types.ts]; a missing string field is [None]. *)
Record RawPositionData : Type := mkRaw {
  rawConditionId : option string;
  rawTitle : option string;
  rawNegativeRisk : bool;                 (* [Boolean(pos.negativeRisk)] *)
  rawOutcome : option string;
  rawOutcomeIndex : raw;
  rawSize : raw;
  rawCurrentValue : raw
}.

Record Outcome : Type := mkOutcome {
  outcome : string;
  outcomeIndex : num;
  size : num;
  value : num
}.

Record Position : Type := mkPosition {
  conditionId : string;
  title : string;
  negativeRisk : bool;
  outcomes : list Outcome;
  totalValue : num;
  totalSize : num
}.

(** [s || d] on a string that may be missing: the empty string is falsy. *)
Definition orElse (s : option string) (d : string) : string :=
  match s with
  | Some s' => if (s' =? "")%string then d else s'
  | None => d
  end.

(** [!pos.conditionId || !validators.isValidBytes32(pos.conditionId)]. *)
Definition isInvalid (pos : RawPositionData) : bool :=
  match rawConditionId pos with
  | None => true
  | Some cid => (cid =? "")%string || negb (Validators.isValidBytes32 cid)
  end.

(** [const cid = pos.conditionId] past the validation. *)
Definition cidOf (pos : RawPositionData) : string :=
  match rawConditionId pos with Some cid => cid | None => "" end.

(** The [Map], in insertion order. *)
Definition PositionMap : Type := list (string * Position).

Definition has (cid : string) (m : PositionMap) : bool :=
  existsb (fun kv => (fst kv =? cid)%string) m.

(** [byCondition.set(cid, g)] for a key that is not in the map. *)
Definition set (cid : string) (g : Position) (m : PositionMap) : PositionMap :=
  m ++ [(cid, g)].

(** The mutation of the object [byCondition.get(cid)]. *)
Definition update (cid : string) (f : Position -> Position) (m : PositionMap)
  : PositionMap :=
  map (fun kv => if (fst kv =? cid)%string then (fst kv, f (snd kv)) else kv) m.

Definition freshGroup (pos : RawPositionData) : Position :=
  mkPosition (cidOf pos) (orElse (rawTitle pos) "Unknown Market")
             (rawNegativeRisk pos) [] zero zero.

Definition outcomeOf (pos : RawPositionData) : Outcome :=
  mkOutcome (orElse (rawOutcome pos) "Unknown")
            (numberOrZero (rawOutcomeIndex pos))
            (max0 (numberOrZero (rawSize pos)))
            (max0 (numberOrZero (rawCurrentValue pos))).

(** [group.outcomes.push(outcome); group.totalValue += outcome.value;
    group.totalSize += outcome.size]. *)
Definition pushOutcome (o : Outcome) (group : Position) : Position :=
  mkPosition (conditionId group) (title group) (negativeRisk group)
             (outcomes group ++ [o])
             (add (totalValue group) (value o))
             (add (totalSize group) (size o)).

(** One turn of [for (const pos of positions)]. The state is the map and the
    number of [logger.warn('Skipping invalid position', ...)] so far. *)
Definition groupStep (st : PositionMap * nat) (pos : RawPositionData)
  : PositionMap * nat :=
  let '(byCondition, warnings) := st in
  if isInvalid pos then (byCondition, S warnings)
  else
    let cid := cidOf pos in
    let byCondition' :=
      if has cid byCondition then byCondition
      else set cid (freshGroup pos) byCondition in
    (update cid (pushOutcome (outcomeOf pos)) byCondition', warnings).

(** The loop and [Array.from(byCondition.values())]. *)
Definition groupPositions (positions : list RawPositionData) : list Position * nat :=
  let '(byCondition, warnings) := fold_left groupStep positions ([], 0%nat) in
  (map snd byCondition, warnings).

(** What stops [getRedeemablePositions] before the grouping. *)
Inductive FetchError : Type :=
| InvalidWalletAddress (walletAddress : string)
| FetchFailed (message : string).

(** [getRedeemablePositions(walletAddress)]; [fetched] is what the retried,
    rate-limited request ended with. *)
Definition getRedeemablePositions (walletAddress : string)
    (fetched : string + list RawPositionData)
  : FetchError + (list Position * nat) :=
  if negb (Validators.isValidAddress walletAddress)
  then inl (InvalidWalletAddress walletAddress)
  else
    match fetched with
    | inl message => inl (FetchFailed message)
    | inr positions => inr (groupPositions positions)
    end.

(** ** The grouping, said without a loop *)

(** The entries that are kept, in their order. *)
Definition kept (positions : list RawPositionData) : list RawPositionData :=
  filter (fun pos => negb (isInvalid pos)) positions.

(** The distinct strings of a list, each at its first appearance. *)
Fixpoint distinct (l : list string) : list string :=
  match l with
  | [] => []
  | x :: l' => x :: filter (fun y => negb (y =? x)%string) (distinct l')
  end.

(** The kept entries of one condition, in their order. *)
Definition membersOf (cid : string) (valids : list RawPositionData)
  : list RawPositionData :=
  filter (fun pos => (cidOf pos =? cid)%string) valids.

(** The sum of a list from the left, starting at [0]: ((0 + a) + b) + ... *)
Definition sumOf (l : list num) : num := fold_left add l zero.

(** The group of a condition: title and flag of its first entry, one outcome
    per entry, totals summed over the outcomes. *)
Definition groupOf (valids : list RawPositionData) (cid : string) : Position :=
  let members := membersOf cid valids in
  let outs := map outcomeOf members in
  mkPosition cid
             (match members with
              | first :: _ => orElse (rawTitle first) "Unknown Market"
              | [] => "Unknown Market"
              end)
             (match members with
              | first :: _ => rawNegativeRisk first
              | [] => false
              end)
             outs
             (sumOf (map value outs))
             (sumOf (map size outs)).


Definition droppedCount (positions : list RawPositionData) : nat :=
  List.length (filter isInvalid positions).

(** ** Properties *)

Definition mem (c : string) (l : list string) : bool :=
  existsb (fun y => (y =? c)%string) l.

Lemma mem_filter_neq : forall c x l,
  (c =? x)%string = false ->
  mem c (filter (fun y => negb (y =? x)%string) l) = mem c l.
Proof.
  intros c x l Hcx. induction l as [|y l IH]; simpl; [reflexivity|].
  destruct (String.eqb_spec y x) as [->|Hyx]; simpl.
  - rewrite String.eqb_sym, Hcx. simpl. exact IH.
  - now rewrite IH.
Qed.

Lemma mem_distinct : forall c l, mem c (distinct l) = mem c l.
Proof.
  intros c l. induction l as [|x l IH]; simpl; [reflexivity|].
  destruct (String.eqb_spec x c) as [->|Hxc]; simpl; [reflexivity|].
  rewrite mem_filter_neq; [exact IH|].
  apply String.eqb_neq. congruence.
Qed.

Lemma distinct_snoc : forall l c,
  distinct (l ++ [c]) = distinct l ++ (if mem c l then [] else [c]).
Proof.
  induction l as [|x l IH]; intros c; simpl; [reflexivity|].
  rewrite IH, filter_app. f_equal. f_equal.
  destruct (String.eqb_spec x c) as [->|Hxc]; simpl.
  - destruct (mem c l); simpl; [reflexivity|]. now rewrite String.eqb_refl.
  - destruct (mem c l); simpl; [reflexivity|].
    destruct (String.eqb_spec c x); [congruence | reflexivity].
Qed.

Lemma mem_false_forall : forall c l,
  mem c l = false -> Forall (fun y => (y =? c)%string = false) l.
Proof.
  intros c l. induction l as [|y l IH]; simpl; intros H; constructor.
  - now apply orb_false_iff in H.
  - apply IH. now apply orb_false_iff in H.
Qed.

Lemma membersOf_snoc : forall cid valids pos,
  membersOf cid (valids ++ [pos])
  = membersOf cid valids ++ (if (cidOf pos =? cid)%string then [pos] else []).
Proof.
  intros. unfold membersOf. rewrite filter_app. reflexivity.
Qed.

Lemma mem_membersOf : forall cid valids,
  mem cid (map cidOf valids) = true -> membersOf cid valids <> [].
Proof.
  intros cid valids. induction valids as [|p valids IH]; simpl; [discriminate|].
  destruct (cidOf p =? cid)%string; simpl; [discriminate | exact IH].
Qed.

Lemma not_mem_membersOf : forall cid valids,
  mem cid (map cidOf valids) = false -> membersOf cid valids = [].
Proof.
  intros cid valids. induction valids as [|p valids IH]; simpl; [reflexivity|].
  destruct (cidOf p =? cid)%string; simpl; [discriminate | exact IH].
Qed.

Lemma sumOf_snoc : forall l x, sumOf (l ++ [x]) = add (sumOf l) x.
Proof. intros. unfold sumOf. now rewrite fold_left_app. Qed.

(** An entry of another condition leaves a group as it was. *)
Lemma groupOf_snoc_other : forall valids pos cid,
  (cidOf pos =? cid)%string = false ->
  groupOf (valids ++ [pos]) cid = groupOf valids cid.
Proof.
  intros valids pos cid H. unfold groupOf.
  rewrite membersOf_snoc, H, app_nil_r. reflexivity.
Qed.

(** An entry of a condition that has a group is pushed onto it. *)
Lemma groupOf_snoc_same : forall valids pos,
  membersOf (cidOf pos) valids <> [] ->
  groupOf (valids ++ [pos]) (cidOf pos)
  = pushOutcome (outcomeOf pos) (groupOf valids (cidOf pos)).
Proof.
  intros valids pos Hne. unfold groupOf, pushOutcome.
  rewrite membersOf_snoc, String.eqb_refl.
  destruct (membersOf (cidOf pos) valids) as [|first rest]; [contradiction|].
  cbn [conditionId title negativeRisk outcomes totalValue totalSize app].
  rewrite !app_comm_cons, !map_app. cbn [map]. rewrite !sumOf_snoc. reflexivity.
Qed.

(** The first entry of a condition makes its group. *)
Lemma groupOf_snoc_first : forall valids pos,
  membersOf (cidOf pos) valids = [] ->
  groupOf (valids ++ [pos]) (cidOf pos)
  = pushOutcome (outcomeOf pos) (freshGroup pos).
Proof.
  intros valids pos He. unfold groupOf, pushOutcome, freshGroup.
  rewrite membersOf_snoc, String.eqb_refl, He. reflexivity.
Qed.

Lemma has_keyed : forall (G : string -> Position) c D,
  has c (map (fun cid => (cid, G cid)) D) = mem c D.
Proof.
  intros G c D. unfold has, mem. induction D as [|d D IH]; simpl; [reflexivity|].
  now rewrite IH.
Qed.

(** The loop's state after any prefix of the response. *)
Lemma fold_groupStep : forall positions,
  fold_left groupStep positions ([], 0%nat)
  = (map (fun cid => (cid, groupOf (kept positions) cid))
         (distinct (map cidOf (kept positions))),
     droppedCount positions).
Proof.
  induction positions as [|pos pre IH] using rev_ind; [reflexivity|].
  rewrite fold_left_app, IH. cbn [fold_left]. unfold groupStep.
  unfold kept, droppedCount. rewrite !filter_app. cbn [filter].
  fold (kept pre).
  destruct (isInvalid pos) eqn:Hinv; cbn [negb].
  - rewrite !app_nil_r, length_app, Nat.add_comm. reflexivity.
  - rewrite app_nil_r. f_equal.
    rewrite map_app. cbn [map]. rewrite distinct_snoc.
    rewrite has_keyed, mem_distinct.
    destruct (mem (cidOf pos) (map cidOf (kept pre))) eqn:Hmem.
    + rewrite app_nil_r. unfold update. rewrite map_map. cbn [fst snd].
      apply map_ext. intros cid.
      destruct (String.eqb_spec cid (cidOf pos)) as [->|Hne].
      * rewrite groupOf_snoc_same; [reflexivity|]. now apply mem_membersOf.
      * rewrite groupOf_snoc_other; [reflexivity|].
        apply String.eqb_neq. congruence.
    + unfold set, update. rewrite !map_app. cbn [map fst snd].
      rewrite String.eqb_refl. f_equal.
      * rewrite map_map. cbn [fst snd].
        apply map_ext_Forall.
        pose proof (mem_false_forall (cidOf pos) (distinct (map cidOf (kept pre)))) as HF.
        rewrite mem_distinct in HF. specialize (HF Hmem).
        eapply Forall_impl; [|exact HF]. cbn beta. intros cid Hcid.
        rewrite Hcid. rewrite groupOf_snoc_other; [reflexivity|].
        now rewrite String.eqb_sym.
      * rewrite groupOf_snoc_first; [reflexivity|]. now apply not_mem_membersOf.
Qed.

Lemma In_distinct : forall c l, In c (distinct l) <-> In c l.
Proof.
  intros c l. induction l as [|x l IH]; simpl; [tauto|].
  rewrite filter_In, IH. split.
  - intros [H|[H _]]; auto.
  - intros [H|H]; auto.
    destruct (String.eqb_spec c x) as [->|Hne]; [now left|].
    right. split; [exact H | reflexivity].
Qed.

Lemma NoDup_distinct : forall l, NoDup (distinct l).
Proof.
  induction l as [|x l IH]; simpl; constructor.
  - rewrite filter_In. intros [_ H]. now rewrite String.eqb_refl in H.
  - now apply NoDup_filter.
Qed.


End Grouping.

(** The response of two outcomes of one market and one malformed entry, with
    integers for numbers: one group, totals 10 and 10, one warning. *)
Definition sampleRaw (cid : option string) (o : string) (sz v : Z)
  : RawPositionData Z :=
  mkRaw Z cid (Some "Will it rain?") false (Some o) 0 sz v.

Example groupPositions_sample :
  groupPositions Z Z 0 Z.add (fun x => x) (Z.max 0)
    [ sampleRaw (Some Transactions.sampleConditionId) "YES" 10 10;
      sampleRaw (Some "0xA") "YES" 3 3;
      sampleRaw (Some Transactions.sampleConditionId) "NO" 0 (-4) ]
  = ([ mkPosition Z Transactions.sampleConditionId "Will it rain?" false
         [ mkOutcome Z "YES" 0 10 10; mkOutcome Z "NO" 0 0 0 ] 10 10 ],
     1%nat).
Proof. reflexivity. Qed.

(** ** The grouping over JavaScript numbers

    The numbers of the program are IEEE 754 doubles. [Number(x)] of a field
    of the response stays a parameter; what the loop does with the number it
    gives is spelled out. *)

(** [n || 0]: [NaN], [0] and [-0] are falsy. *)
Definition orZero (n : Transactions.number) : Transactions.number :=
  match n with
  | SpecFloat.S754_nan => SpecFloat.S754_zero false
  | SpecFloat.S754_zero _ => SpecFloat.S754_zero false
  | _ => n
  end.

(** [Math.max(0, n)]: [NaN] when [n] is, [0] for [-0] and for everything
    below, [n] otherwise. *)
Definition atLeast0 (n : Transactions.number) : Transactions.number :=
  match n with
  | SpecFloat.S754_nan => SpecFloat.S754_nan
  | SpecFloat.S754_zero _ => SpecFloat.S754_zero false
  | SpecFloat.S754_infinity negative =>
      if negative then SpecFloat.S754_zero false else n
  | SpecFloat.S754_finite negative _ _ =>
      if negative then SpecFloat.S754_zero false else n
  end.

(** [a + b]. *)
Definition plus (a b : Transactions.number) : Transactions.number :=
  SpecFloat.SFadd 53 1024 a b.


(** ** Sums of numbers that are not negative

    Rounding keeps the sign: the sum of two numbers that are 0, positive or
    [Infinity] is again one of these. *)








Section Numbers.

Variable raw : Type.

(** [Number(x)] of a field of the response. *)
Variable toNumber : raw -> Transactions.number.

Local Abbreviation RawPositionData := (RawPositionData raw).
Local Abbreviation Position := (Position Transactions.number).

(** The grouping loop of the program. *)
Definition groupRedeemable (positions : list RawPositionData) : list Position * nat :=
  groupPositions Transactions.number raw (SpecFloat.S754_zero false) plus
                 (fun x => orZero (toNumber x)) atLeast0 positions.






End Numbers.

(** Two outcomes of one market, the second with a negative value and a size
    that is no number, and one entry without a usable id: one group, the
    second outcome clamped to 0, totals 10 and 2.5, one warning. *)
Definition ten : Transactions.number := SpecFloat.S754_finite false 5 1.
Definition twoAndHalf : Transactions.number := SpecFloat.S754_finite false 5 (-1).
Definition minusFour : Transactions.number := SpecFloat.S754_finite true 1 2.

Example groupRedeemable_sample :
  groupRedeemable Transactions.number (fun x => x)
    [ mkRaw _ (Some Transactions.sampleConditionId) (Some "Will it rain?") false
              (Some "YES") (SpecFloat.S754_zero false) twoAndHalf ten;
      mkRaw _ (Some "0xA") None false (Some "YES") (SpecFloat.S754_zero false) ten ten;
      mkRaw _ (Some Transactions.sampleConditionId) None false
              None SpecFloat.S754_nan SpecFloat.S754_nan minusFour ]
  = ([ mkPosition _ Transactions.sampleConditionId "Will it rain?" false
         [ mkOutcome _ "YES" (SpecFloat.S754_zero false) twoAndHalf ten;
           mkOutcome _ "Unknown" (SpecFloat.S754_zero false)
                     (SpecFloat.S754_zero false) (SpecFloat.S754_zero false) ]
         ten twoAndHalf ],
     1%nat).
Proof. vm_compute. reflexivity. Qed.

(** ** The request: [fetchFn], rate-limited and retried *)

Section Request.

Variable num : Type.
Variable raw : Type.
Variable zero : num.
Variable add : num -> num -> num.
Variable numberOrZero : raw -> num.
Variable max0 : num -> num.

Local Abbreviation getRedeemablePositions :=
  (getRedeemablePositions num raw zero add numberOrZero max0).
Local Abbreviation groupPositions :=
  (groupPositions num raw zero add numberOrZero max0).

(** What [await response.json()] gives: it rejects, or resolves to an array
    or to some other value. *)
Inductive Body : Type :=
| JsonRejects (e : Retry.Thrown)
| JsonOther
| JsonArray (data : list (RawPositionData raw)).

(** What one request meets: [fetch] rejects; the timer of [withTimeout] fires
    first; the response is not [ok], with the text [${response.status}] prints
    and the text of its body when [response.text()] resolves; or it is [ok]. *)
Inductive Response : Type :=
| FetchRejects (e : Retry.Thrown)
| TimerFirst
| NotOk (status : string) (errorText : option string)
| Ok (body : Body).

(** [fetchFn]. *)
Definition fetchFn (r : Response)
  : RateLimiter.Settled (list (RawPositionData raw)) Retry.Thrown :=
  match r with
  | FetchRejects e => RateLimiter.Failed e
  | TimerFirst => RateLimiter.Failed (Retry.ErrorObj "Data API request timed out")
  | NotOk status errorText =>
      RateLimiter.Failed
        (Retry.ErrorObj
           ("Data API error " ++ status ++ ": "
              ++ match errorText with Some text => text | None => "Unknown error" end))
  | Ok (JsonRejects e) => RateLimiter.Failed e
  | Ok JsonOther =>
      RateLimiter.Failed
        (Retry.ErrorObj "Invalid API response: expected array of positions")
  | Ok (JsonArray data) => RateLimiter.Fulfilled data
  end.

(** The [k]-th call of the closure
    [() => globalRateLimiter.executeWithRateLimit(fetchFn, 'Data API call')]
    meets [responses k] and reads the clock as [clock k] says. *)
Variable responses : nat -> Response.
Variable clock : nat -> Z * Z * Z.

Definition limited (k : nat) (rl : RateLimiter.t)
  : list RateLimiter.Event
    * RateLimiter.Settled (list (RawPositionData raw)) Retry.Thrown
    * RateLimiter.t :=
  let '(now1, now2, now3) := clock k in
  RateLimiter.executeWithRateLimit (fun r => (fetchFn (responses k), r)) now1 now2 now3 rl.

(** The limiter is one object: call [k] finds it as the [k] calls before it
    left it. *)
Fixpoint limiterAfter (k : nat) (rl : RateLimiter.t) : RateLimiter.t :=
  match k with
  | O => rl
  | S k' => snd (limited k' (limiterAfter k' rl))
  end.

Definition attempt (rl : RateLimiter.t) (k : nat)
  : Retry.Outcome (list (RawPositionData raw)) :=
  match snd (fst (limited k (limiterAfter k rl))) with
  | RateLimiter.Fulfilled data => Retry.Resolved data
  | RateLimiter.Failed e => Retry.Rejected e
  end.

(** [retryWithBackoff(closure, CONFIG.api.retries, 2000, 'Data API fetch')] of
    [redeem.ts], under [CONFIG.api]: 3 retries, multiplier 2, cap 30000. *)
Definition fetchPositions (rl : RateLimiter.t)
  : list Retry.Event * Retry.Completion (list (RawPositionData raw)) :=
  Retry.retryWithBackoff (list (RawPositionData raw)) 2 30000 Retry.TS (attempt rl) 3 2000.

(** What [getRedeemablePositions] goes on with: the array, or the message of
    the error that leaves it. ([utils.ts] throws [Error] instances only and
    never falls out of its loop.) *)
Definition fetched (c : Retry.Completion (list (RawPositionData raw)))
  : string + list (RawPositionData raw) :=
  match c with
  | Retry.Returned data => inr data
  | Retry.Threw (Retry.ErrorObj message) => inl message
  | Retry.Threw (Retry.NonError shown) => inl shown
  | Retry.Threw (Retry.Nullish isNull) => inl (Retry.shownNullish isNull)
  | Retry.ReturnedUndefined => inl "Retry failed"
  end.

(** A run of [getRedeemablePositions(walletAddress)] from the limiter [rl]:
    its result, the number of requests it has sent, and the limiter it
    leaves. The address is checked before anything is sent. *)
Definition getRedeemablePositionsRun (walletAddress : string) (rl : RateLimiter.t)
  : (FetchError + (list (Position num) * nat)) * nat * RateLimiter.t :=
  if negb (Validators.isValidAddress walletAddress)
  then (inl (InvalidWalletAddress walletAddress), 0%nat, rl)
  else
    let '(evs, c) := fetchPositions rl in
    let sent := Retry.invocations evs in
    (getRedeemablePositions walletAddress (fetched c), sent, limiterAfter sent rl).

(** The error of a response that carries no array. *)
Definition failureOf (r : Response) : option Retry.Thrown :=
  match fetchFn r with
  | RateLimiter.Failed e => Some e
  | RateLimiter.Fulfilled _ => None
  end.

Definition messageOf (e : Retry.Thrown) : string :=
  match e with
  | Retry.ErrorObj message => message
  | Retry.NonError shown => shown
  | Retry.Nullish isNull => Retry.shownNullish isNull
  end.

(** ** Properties *)

Lemma limited_outcome : forall k rl,
  snd (fst (limited k rl)) = fetchFn (responses k).
Proof.
  intros k rl. unfold limited. destruct (clock k) as [[now1 now2] now3].
  unfold RateLimiter.executeWithRateLimit.
  destruct (RateLimiter.waitForNextRequest now1 now2 rl) as [waited rl1].
  destruct (fetchFn (responses k)); reflexivity.
Qed.

Lemma limited_limiter : forall k rl,
  RateLimiter.requests (snd (limited k rl))
  = RateLimiter.pruned (fst (fst (clock k))) rl ++ [snd (clock k)].
Proof.
  intros k rl. unfold limited. destruct (clock k) as [[now1 now2] now3]. cbn [fst snd].
  pose proof (RateLimiter.executeCall_limiter _ _
                (RateLimiter.mkInvocation (fetchFn (responses k)) now1 now2 now3) rl) as H.
  unfold RateLimiter.executeCall in H. cbn [RateLimiter.callOutcome RateLimiter.atCheck
    RateLimiter.atWait RateLimiter.atRecord] in H.
  rewrite H. reflexivity.
Qed.

Lemma attempt_outcome : forall rl k,
  attempt rl k = match fetchFn (responses k) with
                 | RateLimiter.Fulfilled data => Retry.Resolved data
                 | RateLimiter.Failed e => Retry.Rejected e
                 end.
Proof. intros rl k. unfold attempt. now rewrite limited_outcome. Qed.

Lemma attempt_fails : forall rl k e,
  failureOf (responses k) = Some e -> attempt rl k = Retry.Rejected e.
Proof.
  intros rl k e H. rewrite attempt_outcome. unfold failureOf in H.
  destruct (fetchFn (responses k)); congruence.
Qed.

Lemma attempt_succeeds : forall rl k data,
  responses k = Ok (JsonArray data) -> attempt rl k = Retry.Resolved data.
Proof. intros rl k data H. rewrite attempt_outcome, H. reflexivity. Qed.

Lemma failureOf_wrapped : forall r e,
  failureOf r = Some e -> Retry.lastErrorOf Retry.TS e = Retry.ErrorObj (messageOf e).
Proof. intros r e _. destruct e; reflexivity. Qed.

(** [getRedeemablePositions] from the address to the grouped positions.
    - An address that is not [0x] and 40 hexadecimal digits is refused before
      any request: nothing is sent and the limiter is left as it was.
    - Otherwise between one and four requests are sent, and each of them,
      failed or not, leaves its timestamp in the limiter after the pruning of
      its admission check.
    - When request [k] (of the first four) is the first to bring an array, the
      result is the grouping of that array, after [k + 1] requests and waits of
      2000, 4000, ... ms between them.
    - When none of the four brings an array, the function throws the error of
      the fourth request, after waits of 2000, 4000 and 8000 ms. *)
Theorem getRedeemablePositions_pipeline : forall walletAddress rl,
  (Validators.isValidAddress walletAddress = false ->
     getRedeemablePositionsRun walletAddress rl
     = (inl (InvalidWalletAddress walletAddress), 0%nat, rl))
  /\ (Validators.isValidAddress walletAddress = true ->
      let sent := snd (fst (getRedeemablePositionsRun walletAddress rl)) in
      (1 <= sent <= 4)%nat
      /\ sent = Retry.invocations (fst (fetchPositions rl))
      /\ snd (getRedeemablePositionsRun walletAddress rl) = limiterAfter sent rl)
  /\ (forall k,
        RateLimiter.requests (limiterAfter (S k) rl)
        = RateLimiter.pruned (fst (fst (clock k))) (limiterAfter k rl) ++ [snd (clock k)])
  /\ (forall k data,
        Validators.isValidAddress walletAddress = true ->
        (k <= 3)%nat ->
        (forall j, (j < k)%nat -> failureOf (responses j) <> None) ->
        responses k = Ok (JsonArray data) ->
        fst (fst (getRedeemablePositionsRun walletAddress rl)) = inr (groupPositions data)
        /\ snd (fst (getRedeemablePositionsRun walletAddress rl)) = S k
        /\ Retry.delays (fst (fetchPositions rl))
           = map (fun j => 2000 * 2 ^ Z.of_nat j) (seq 0 k))
  /\ (forall e,
        Validators.isValidAddress walletAddress = true ->
        (forall j, (j < 4)%nat -> failureOf (responses j) <> None) ->
        failureOf (responses 3) = Some e ->
        fst (fst (getRedeemablePositionsRun walletAddress rl))
        = inl (FetchFailed (messageOf e))
        /\ snd (fst (getRedeemablePositionsRun walletAddress rl)) = 4%nat
        /\ Retry.delays (fst (fetchPositions rl)) = [2000; 4000; 8000]).
Proof.
  intros walletAddress rl.
  assert (Hsent : (1 <= Retry.invocations (fst (fetchPositions rl)) <= 4)%nat).
  { unfold fetchPositions, Retry.retryWithBackoff.
    change (Z.to_nat (3 + 1)) with 4%nat. unfold Retry.invocations. cbn [Retry.loop].
    destruct (attempt rl 0); [simpl; lia|]. cbn [Z.of_nat Z.eqb].
    destruct (attempt rl 1); [simpl; lia|]. cbn [Z.of_nat Z.eqb Pos.of_succ_nat Pos.succ Pos.eqb].
    destruct (attempt rl 2); [simpl; lia|]. cbn [Z.of_nat Z.eqb Pos.of_succ_nat Pos.succ Pos.eqb].
    destruct (attempt rl 3); simpl; lia. }
  split; [|split; [|split; [|split]]].
  - intros Hbad. unfold getRedeemablePositionsRun. now rewrite Hbad.
  - intros Hok. unfold getRedeemablePositionsRun. rewrite Hok. cbn [negb].
    destruct (fetchPositions rl) as [evs c]. cbn [fst snd] in *. auto.
  - intros k. cbn [limiterAfter]. apply limited_limiter.
  - intros k data Hok Hk Hfail Hdata.
    pose proof (Retry.loop_success (list (RawPositionData raw)) 2 30000 Retry.TS
                  (attempt rl) 3 2000 k 4 0 None data) as H.
    unfold getRedeemablePositionsRun. rewrite Hok. cbn [negb].
    unfold fetchPositions, Retry.retryWithBackoff.
    change (Z.to_nat (3 + 1)) with 4%nat.
    destruct (Retry.loop (list (RawPositionData raw)) 2 30000 Retry.TS (attempt rl) 3 2000
                4 0 None) as [evs c].
    destruct H as (Hc & Hi & Hd).
    + lia.
    + simpl. lia.
    + intros j Hj. simpl. specialize (Hfail j Hj).
      destruct (failureOf (responses j)) as [e|] eqn:He; [|contradiction].
      exists e. split; [now apply attempt_fails | reflexivity].
    + simpl. now apply attempt_succeeds.
    + subst c. cbn [fst snd fetched]. unfold Fetcher.getRedeemablePositions. rewrite Hok.
      cbn [negb]. split; [reflexivity|]. split; [exact Hi|].
      rewrite Hd. apply map_ext_in. intros j Hj. apply in_seq in Hj.
      unfold Retry.delayFor.
      assert (Hcases : j = 0%nat \/ j = 1%nat \/ j = 2%nat) by lia.
      destruct Hcases as [->|[->| ->]]; reflexivity.
  - intros e Hok Hfail He.
    pose proof (Retry.loop_exhausted (list (RawPositionData raw)) 2 30000 Retry.TS
                  (attempt rl) 3 2000 4 0 None) as H.
    unfold getRedeemablePositionsRun. rewrite Hok. cbn [negb].
    unfold fetchPositions, Retry.retryWithBackoff.
    change (Z.to_nat (3 + 1)) with 4%nat.
    destruct (Retry.loop (list (RawPositionData raw)) 2 30000 Retry.TS (attempt rl) 3 2000
                4 0 None) as [evs c].
    destruct H as ((e' & He' & Hc) & Hi & Hd).
    + reflexivity.
    + lia.
    + intros j Hj. simpl. specialize (Hfail j Hj).
      destruct (failureOf (responses j)) as [e0|] eqn:He0; [|contradiction].
      exists e0. split; [now apply attempt_fails | reflexivity].
    + change (Z.to_nat 3) with 3%nat in He'.
      rewrite (attempt_fails rl 3 e He) in He'. injection He' as <-.
      subst c. rewrite (failureOf_wrapped _ _ He).
      cbn [fst snd fetched]. unfold Fetcher.getRedeemablePositions. rewrite Hok.
      cbn [negb]. split; [reflexivity|]. split; [exact Hi|].
      rewrite Hd. reflexivity.
Qed.

End Request.

(** A fetch whose first request meets a 503 and whose second brings one
    position: two requests, one wait of 2000 ms, two timestamps recorded. *)
Definition sampleResponses (k : nat) : Response Z :=
  if (k =? 0)%nat then NotOk Z "503" (Some "busy")
  else Ok Z (JsonArray Z [sampleRaw (Some Transactions.sampleConditionId) "YES" 10 10]).

Definition sampleClock (k : nat) : Z * Z * Z :=
  (3000 * Z.of_nat k, 3000 * Z.of_nat k, 3000 * Z.of_nat k + 150).

Example getRedeemablePositions_second_try :
  getRedeemablePositionsRun Z Z 0 Z.add (fun x => x) (Z.max 0) sampleResponses sampleClock
    Transactions.usdc RateLimiter.globalRateLimiter
  = (inr ([mkPosition Z Transactions.sampleConditionId "Will it rain?" false
             [mkOutcome Z "YES" 0 10 10] 10 10], 0%nat),
     2%nat,
     RateLimiter.mk 30 10 60000 [150; 3150])
  /\ fetchPositions Z sampleResponses sampleClock RateLimiter.globalRateLimiter
     = ([Retry.Invoke 0; Retry.SetTimeout 2000; Retry.Invoke 1],
        Retry.Returned [sampleRaw (Some Transactions.sampleConditionId) "YES" 10 10]).
Proof. split; reflexivity. Qed.

Example getRedeemablePositions_bad_address :
  getRedeemablePositionsRun Z Z 0 Z.add (fun x => x) (Z.max 0) sampleResponses sampleClock
    "0x2791" RateLimiter.globalRateLimiter
  = (inl (InvalidWalletAddress "0x2791"), 0%nat, RateLimiter.globalRateLimiter).
Proof. reflexivity. Qed.

(** ** What every group carries *)

Section Groups.

Variable num : Type.
Variable raw : Type.
Variable zero : num.
Variable add : num -> num -> num.
Variable numberOrZero : raw -> num.
Variable max0 : num -> num.

Local Abbreviation groupPositions :=
  (groupPositions num raw zero add numberOrZero max0).

(** A group that the loop has built has an id that passed [isValidBytes32]
    and at least one outcome. *)
Lemma grouped_wellformed : forall positions g,
  In g (fst (groupPositions positions)) ->
  Validators.isValidBytes32 (conditionId num g) = true
  /\ outcomes num g <> [].
Proof.
  intros positions g Hin. unfold Fetcher.groupPositions in Hin.
  rewrite fold_groupStep in Hin. cbn [fst] in Hin. rewrite map_map in Hin. cbn [snd] in Hin.
  apply in_map_iff in Hin as (cid & <- & Hcid).
  apply (proj1 (In_distinct num zero add max0 _ _)) in Hcid.
  apply in_map_iff in Hcid as (pos & Hpos & Hkept).
  assert (Hvalid : isInvalid raw pos = false).
  { unfold kept in Hkept. apply filter_In in Hkept as [_ H].
    now apply negb_true_iff in H. }
  cbn [groupOf conditionId outcomes]. split.
  - unfold isInvalid, cidOf in *. destruct (rawConditionId raw pos) as [c|]; [|discriminate].
    subst cid. apply orb_false_iff in Hvalid as [_ H]. now apply negb_false_iff in H.
  - assert (Hmem : In pos (membersOf raw cid (kept raw positions))).
    { unfold membersOf. apply filter_In. split; [exact Hkept|].
      rewrite Hpos. apply String.eqb_refl. }
    destruct (membersOf raw cid (kept raw positions)); [contradiction | discriminate].
Qed.

End Groups.

(** ** Nothing is lost in the grouping *)

Section Conservation.

Variable num : Type.
Variable raw : Type.
Variable zero : num.
Variable add : num -> num -> num.
Variable numberOrZero : raw -> num.
Variable max0 : num -> num.

Local Abbreviation groupPositions :=
  (groupPositions num raw zero add numberOrZero max0).
Local Abbreviation outcomeOf := (outcomeOf num raw numberOrZero max0).

Lemma list_sum_cons : forall (x : nat) (l : list nat),
  list_sum (x :: l) = (x + list_sum l)%nat.
Proof. reflexivity. Qed.

(** Over a list of distinct ids that holds the id of every entry, the entries
    of the ids count up to all entries. *)
Lemma members_count : forall (ids : list string) (valids : list (RawPositionData raw)),
  NoDup ids ->
  (forall pos, In pos valids -> In (cidOf raw pos) ids) ->
  list_sum (map (fun cid => List.length (membersOf raw cid valids)) ids)
  = List.length valids.
Proof.
  intros ids valids Hnd. induction valids as [|pos valids IH]; intros Hall.
  - clear. induction ids as [|c ids IH]; simpl; auto.
  - assert (Hone : forall ids', NoDup ids' ->
              list_sum (map (fun cid => List.length (membersOf raw cid (pos :: valids))) ids')
              = ((if mem (cidOf raw pos) ids' then 1 else 0)
                 + list_sum (map (fun cid => List.length (membersOf raw cid valids)) ids'))%nat).
    { clear. induction ids' as [|c ids' IH]; intros Hnd; [reflexivity|].
      inversion Hnd as [|? ? Hnotin Hnd']; subst.
      rewrite !map_cons, !list_sum_cons. rewrite (IH Hnd'). unfold membersOf at 1. cbn [filter].
      unfold mem. cbn [existsb].
      destruct (String.eqb_spec (cidOf raw pos) c) as [Heq|Hne].
      - subst c. rewrite String.eqb_refl. cbn [orb List.length].
        assert (Hno : existsb (fun y => (y =? cidOf raw pos)%string) ids' = false).
        { apply not_true_is_false. intros H. apply existsb_exists in H as (y & Hy & Hyeq).
          apply String.eqb_eq in Hyeq. subst y. contradiction. }
        fold (mem (cidOf raw pos) ids'). unfold mem. rewrite Hno.
        fold (membersOf raw (cidOf raw pos) valids). lia.
      - assert (Hc : (c =? cidOf raw pos)%string = false).
        { apply String.eqb_neq. congruence. }
        rewrite Hc. cbn [orb]. fold (membersOf raw c valids).
        fold (mem (cidOf raw pos) ids'). unfold mem. lia. }
    rewrite (Hone ids Hnd), IH by (intros p Hp; apply Hall; now right).
    assert (Hmem : mem (cidOf raw pos) ids = true).
    { unfold mem. apply existsb_exists. exists (cidOf raw pos).
      split; [apply Hall; now left | apply String.eqb_refl]. }
    rewrite Hmem. reflexivity.
Qed.

(** The grouping loses nothing and repeats nothing. Every entry of the
    response is either skipped with a warning or kept; a kept entry is an
    outcome of the group of its condition id; and the outcomes of all groups
    are as many as the kept entries, so no entry is counted twice. There are
    at most as many groups as kept entries. *)
Theorem groupPositions_conserves : forall positions,
  let groups := fst (groupPositions positions) in
  let warnings := snd (groupPositions positions) in
  (List.length (kept raw positions) + warnings = List.length positions)%nat
  /\ list_sum (map (fun g => List.length (outcomes num g)) groups)
     = List.length (kept raw positions)
  /\ (List.length groups <= List.length (kept raw positions))%nat
  /\ (forall pos, In pos positions -> isInvalid raw pos = false ->
        exists g, In g groups
                  /\ conditionId num g = cidOf raw pos
                  /\ In (outcomeOf pos) (outcomes num g)).
Proof.
  intros positions. cbv zeta. unfold Fetcher.groupPositions.
  rewrite fold_groupStep. cbn [fst snd].
  set (valids := kept raw positions).
  set (ids := distinct (map (cidOf raw) valids)).
  assert (Hgroups : map snd (map (fun cid => (cid, groupOf num raw zero add numberOrZero
                                                     max0 valids cid)) ids)
                    = map (groupOf num raw zero add numberOrZero max0 valids) ids).
  { rewrite map_map. reflexivity. }
  rewrite Hgroups. clear Hgroups.
  assert (Hids : forall pos, In pos valids -> In (cidOf raw pos) ids).
  { intros pos Hpos. apply (In_distinct num zero add max0). now apply in_map. }
  assert (Hcount : list_sum (map (fun cid => List.length (membersOf raw cid valids)) ids)
                   = List.length valids).
  { apply members_count; [apply NoDup_distinct | exact Hids]. }
  split; [|split; [|split]].
  - unfold valids, kept, droppedCount.
    pose proof (filter_length (isInvalid raw) positions) as H.
    rewrite Nat.add_comm in H. exact H.
  - rewrite map_map. rewrite <- Hcount.
    f_equal. apply map_ext. intros cid. unfold groupOf. cbn [outcomes].
    apply length_map.
  - rewrite length_map, <- Hcount. clear Hcount.
    assert (Hpos : forall cid, In cid ids -> (1 <= List.length (membersOf raw cid valids))%nat).
    { intros cid Hin. unfold ids in Hin.
      apply (proj1 (In_distinct num zero add max0 _ _)) in Hin.
      apply in_map_iff in Hin as (pos & Hcid & Hpos).
      assert (Hmem : In pos (membersOf raw cid valids)).
      { unfold membersOf. apply filter_In. split; [exact Hpos|].
        rewrite Hcid. apply String.eqb_refl. }
      destruct (membersOf raw cid valids); [contradiction | simpl; lia]. }
    clear Hids. clearbody ids. revert Hpos.
    induction ids as [|c ids' IH]; intros Hpos; [simpl; lia|].
    rewrite map_cons, list_sum_cons. cbn [List.length].
    assert (1 <= List.length (membersOf raw c valids))%nat by (apply Hpos; now left).
    assert (List.length ids'
            <= list_sum (map (fun cid => List.length (membersOf raw cid valids)) ids'))%nat.
    { apply IH. intros cid Hin. apply Hpos. now right. }
    lia.
  - intros pos Hin Hvalid.
    assert (Hkept : In pos valids).
    { unfold valids, kept. apply filter_In. split; [exact Hin|]. now rewrite Hvalid. }
    exists (groupOf num raw zero add numberOrZero max0 valids (cidOf raw pos)).
    split; [|split].
    + apply in_map_iff. exists (cidOf raw pos). split; [reflexivity | now apply Hids].
    + reflexivity.
    + cbn [groupOf outcomes]. apply in_map. unfold membersOf. apply filter_In.
      split; [exact Hkept | apply String.eqb_refl].
Qed.

End Conservation.

End Fetcher.

(* ===================================================================== *)
(** * Redemption orchestrator ([src/redeem.ts], [redeem.js]) *)
(* ===================================================================== *)

Module Orchestrator.

(** ** Results of one redemption *)

(** A value caught by [catch (error)] in the per-position task of which a
    property can be read, that is, any value but [null] and [undefined]:
    whether it is an [Error] instance, and its [message]. ([null] and
    [undefined] are the subject of [catchBlock] below.) *)
Record Thrown : Type := mkThrown {
  isErrorInstance : bool;
  message : string
}.

(** What [await response.wait()] resolves to when it is an object: the two
    properties the task reads. *)
Record TxResult : Type := mkTxResult {
  transactionHash : option string;
  state : option string
}.

(** [RedemptionResult] of [types.ts]; an optional property that is not set is
    [None]. *)
Record RedemptionResult : Type := mkResult {
  success : bool;
  txHash : option string;
  url : option string;
  error : option string
}.

(** A string in a condition: the empty string is falsy. *)
Definition truthy (s : option string) : bool :=
  match s with
  | Some s' => negb (s' =? "")%string
  | None => false
  end.

(** The [try] block past [await response.wait()]: [result] is [None] for
    [null] or [undefined]. *)
Definition classify (result : option TxResult) : RedemptionResult :=
  match result with
  | Some txResult =>
      match transactionHash txResult with
      | Some hash =>
          if negb (hash =? "")%string then
            let txUrl := ("https://polygonscan.com/tx/" ++ hash)%string in
            if match state txResult with
               | Some s => (s =? "STATE_FAILED")%string
               | None => false
               end
            then mkResult false (Some hash) (Some txUrl) None
            else mkResult true (Some hash) (Some txUrl) None
          else mkResult false None None (Some "No transaction hash")
      | None => mkResult false None None (Some "No transaction hash")
      end
  | None => mkResult false None None (Some "No transaction hash")
  end.

(** The [catch] block on a value whose properties can be read:
    [error instanceof Error ? error.message : 'Unknown error'] goes into the
    result, and the read of [errorWithTx.transactionHash] only decides a line
    of output. *)
Definition caught (e : Thrown) : RedemptionResult :=
  mkResult false None None
           (Some (if isErrorInstance e then message e else "Unknown error")).

(** How the awaits of a task end: [client.execute] rejects or loses the race
    against the timeout, [response.wait()] rejects, or it resolves. The
    rejections are those by a value whose properties can be read. *)
Inductive Relayed : Type :=
| ExecuteRejected (e : Thrown)
| WaitRejected (e : Thrown)
| WaitResolved (result : option TxResult).

(** The value the task's promise resolves to, once its awaits have ended. *)
Definition settle (o : Relayed) : RedemptionResult :=
  match o with
  | ExecuteRejected e => caught e
  | WaitRejected e => caught e
  | WaitResolved result => classify result
  end.

(** ** The semaphore *)

(** [waitQueue] holds the resolvers of the pending [acquire] promises, each
    named by the loop iteration that awaits it. *)
Record Semaphore : Type := mkSemaphore {
  maxConcurrent : Z;
  current : Z;
  waitQueue : list nat
}.

Definition newSemaphore (maxConcurrent : Z) : Semaphore :=
  mkSemaphore maxConcurrent 0 [].

(** [acquire()], called by iteration [who]: the flag tells whether the promise
    is already resolved. *)
Definition acquire (who : nat) (s : Semaphore) : Semaphore * bool :=
  if current s <? maxConcurrent s
  then (mkSemaphore (maxConcurrent s) (current s + 1) (waitQueue s), true)
  else (mkSemaphore (maxConcurrent s) (current s) (waitQueue s ++ [who]), false).

(** [release()]: the counter goes down by one, and back up when a waiter is
    resolved; the resolved waiter is returned. *)
Definition release (s : Semaphore) : Semaphore * option nat :=
  let lowered := current s - 1 in
  match waitQueue s with
  | [] => (mkSemaphore (maxConcurrent s) lowered [], None)
  | who :: rest => (mkSemaphore (maxConcurrent s) (lowered + 1) rest, Some who)
  end.

(** ** The aggregate *)

Record MainResult : Type := mkMainResult {
  redeemed : nat;
  total : nat;
  transactions : option (list string)
}.

(** [filter(r => r.success && r.txHash)], then [map(r => r.txHash!)] and the
    filter on [undefined]. *)
Definition successfulTxs (results : list RedemptionResult) : list RedemptionResult :=
  filter (fun r => success r && truthy (txHash r)) results.

Definition hashesOf (results : list RedemptionResult) : list string :=
  flat_map (fun r => match txHash r with Some h => [h] | None => [] end) results.

Definition aggregate (nPositions : nat) (results : list RedemptionResult) : MainResult :=
  mkMainResult (List.length (filter success results))
               nPositions
               (Some (hashesOf (successfulTxs results))).

(** ** The loop and its tasks, one step at a time *)

(** A task that was started: still awaiting the relayer, or settled. *)
Inductive Slot : Type :=
| Submitted
| Settled (r : RedemptionResult).

Definition isSubmitted (s : Slot) : bool :=
  match s with Submitted => true | Settled _ => false end.

(** Where [main] stands. *)
Inductive Pc : Type :=
| AtAcquire (i : nat)     (* about to call [semaphore.acquire()] in iteration [i] *)
| Blocked (i : nat)       (* awaiting the promise queued by [acquire()] *)
| Resumed (i : nat)       (* [acquire()] has resolved; the task of [i] is started next *)
| Sleeping (i : nat)      (* in [sleep(CONFIG.app.redemptionDelay)] after iteration [i] *)
| Joining                 (* awaiting [Promise.all(results)] *)
| Done (r : MainResult).

Record State : Type := mkState {
  sem : Semaphore;
  pc : Pc;
  slots : list Slot       (* [results], in push order *)
}.

(** What the event loop runs next: the continuation of [main], or the
    continuation of task [j] whose awaits have ended with [o]. The steps are
    those of a pass in which no awaited promise rejects with [null] or
    [undefined]; what such a rejection does to the pass is [execAny] below. *)
Inductive Event : Type :=
| MainStep
| TaskSettles (j : nat) (o : Relayed).

Fixpoint setNth {A : Type} (n : nat) (x : A) (l : list A) : list A :=
  match l, n with
  | [], _ => []
  | _ :: l', O => x :: l'
  | y :: l', S n' => y :: setNth n' x l'
  end.

Definition submittedCount (st : State) : nat :=
  List.length (filter isSubmitted (slots st)).

Section Run.

(** The grouped positions, and what building the transaction of one does:
    [createNegRiskRedeemTx] or [createCtfRedeemTx] returns, or throws. *)
Variable Position : Type.
Variable buildTx : Position -> Thrown + Transactions.Transaction.
Variable positions : list Position.

(** [CONFIG.app.maxConcurrentRedemptions]. *)
Variable maxConcurrentRedemptions : Z.

(** [main] returns before the loop when there is nothing to redeem. *)
Definition init : State :=
  mkState (newSemaphore maxConcurrentRedemptions)
          (match positions with
           | [] => Done (mkMainResult 0 0 None)
           | _ :: _ => AtAcquire 0
           end)
          [].

(** The synchronous start of the task of a position, up to its first await:
    a builder that throws is caught at once and the [finally] releases. *)
Definition startTask (pos : Position) (s : Semaphore) : Semaphore * Slot :=
  match buildTx pos with
  | inl e => (fst (release s), Settled (caught e))
  | inr _ => (s, Submitted)
  end.

Definition allSettled (l : list Slot) : option (list RedemptionResult) :=
  fold_right (fun s acc =>
                match s, acc with
                | Settled r, Some rs => Some (r :: rs)
                | _, _ => None
                end) (Some []) l.

(** One step of the event loop; [None] when the event cannot happen in the
    state. *)
Definition exec (e : Event) (st : State) : option State :=
  match e with
  | MainStep =>
      match pc st with
      | AtAcquire i =>
          let '(s', granted) := acquire i (sem st) in
          Some (mkState s' (if granted then Resumed i else Blocked i) (slots st))
      | Blocked _ => None
      | Resumed i =>
          match nth_error positions i with
          | None => None
          | Some pos =>
              let '(s', slot) := startTask pos (sem st) in
              Some (mkState s'
                      (if (S i <? List.length positions)%nat then Sleeping i else Joining)
                      (slots st ++ [slot]))
          end
      | Sleeping i => Some (mkState (sem st) (AtAcquire (S i)) (slots st))
      | Joining =>
          match allSettled (slots st) with
          | Some results =>
              Some (mkState (sem st)
                      (Done (aggregate (List.length positions) results)) (slots st))
          | None => None
          end
      | Done _ => None
      end
  | TaskSettles j o =>
      match nth_error (slots st) j with
      | Some Submitted =>
          let '(s', woken) := release (sem st) in
          Some (mkState s'
                  (match woken with Some i => Resumed i | None => pc st end)
                  (setNth j (Settled (settle o)) (slots st)))
      | _ => None
      end
  end.

Fixpoint run (evs : list Event) (st : State) : option State :=
  match evs with
  | [] => Some st
  | e :: evs' =>
      match exec e st with
      | Some st' => run evs' st'
      | None => None
      end
  end.

End Run.

(** ** Properties: the permit count *)

Section Invariant.

Variable Position : Type.
Variable buildTx : Position -> Thrown + Transactions.Transaction.
Variable positions : list Position.
Variable N : Z.

Local Abbreviation exec := (exec Position buildTx positions).
Local Abbreviation run := (run Position buildTx positions).
Local Abbreviation init := (init Position positions N).

(** The permit that [main] holds between the end of [acquire()] and the start
    of the task. *)
Definition held (p : Pc) : Z :=
  match p with Resumed _ => 1 | _ => 0 end.

Definition pcFits (st : State) : Prop :=
  match pc st with
  | AtAcquire i | Blocked i | Resumed i =>
      (i < List.length positions)%nat /\ List.length (slots st) = i
  | Sleeping i =>
      (S i < List.length positions)%nat /\ List.length (slots st) = S i
  | Joining => List.length (slots st) = List.length positions
  | Done _ => True
  end.

Record Inv (st : State) : Prop := mkInv {
  inv_max : maxConcurrent (sem st) = N;
  inv_range : 0 <= current (sem st) <= N;
  inv_count : current (sem st) = Z.of_nat (submittedCount st) + held (pc st);
  inv_queue : waitQueue (sem st) = match pc st with Blocked i => [i] | _ => [] end;
  inv_full : match pc st with Blocked _ => current (sem st) = N | _ => True end;
  inv_pc : pcFits st
}.

Lemma setNth_length : forall (A : Type) (l : list A) n x,
  List.length (setNth n x l) = List.length l.
Proof.
  induction l as [|y l IH]; intros [|n] x; simpl; auto.
Qed.

Lemma setNth_settles : forall l j r,
  nth_error l j = Some Submitted ->
  S (List.length (filter isSubmitted (setNth j (Settled r) l)))
  = List.length (filter isSubmitted l).
Proof.
  induction l as [|s l IH]; intros [|j] r H; simpl in *; try discriminate.
  - injection H as ->. reflexivity.
  - destruct s; simpl; [f_equal|]; now apply IH.
Qed.

Lemma submitted_snoc : forall l s,
  List.length (filter isSubmitted (l ++ [s]))
  = (List.length (filter isSubmitted l) + (if isSubmitted s then 1 else 0))%nat.
Proof.
  intros. rewrite filter_app, length_app. simpl. now destruct (isSubmitted s).
Qed.

Lemma init_Inv : 0 <= N -> Inv init.
Proof.
  intros HN.
  constructor; unfold init, submittedCount, pcFits, held;
    destruct positions as [|p ps]; simpl; auto; lia.
Qed.

Lemma exec_Inv : forall e st st', Inv st -> exec e st = Some st' -> Inv st'.
Proof.
  intros e st st' [Hmax Hrange Hcount Hqueue Hfull Hpc] Hexec.
  unfold submittedCount, pcFits in *.
  destruct st as [[m c q] p sl]. simpl in *. subst m.
  destruct e as [|j o]; simpl in Hexec.
  - destruct p as [i|i|i|i| |r]; try discriminate; unfold held in *.
    + (* acquire *)
      unfold acquire in Hexec. simpl in Hexec.
      destruct (Z.ltb_spec c N); injection Hexec as <-;
        constructor; simpl; unfold submittedCount, pcFits; simpl; subst q; auto; lia.
    + (* the task starts *)
      destruct (nth_error positions i) as [pos|] eqn:Hpos; [|discriminate].
      unfold startTask, release in Hexec. simpl in Hexec. subst q.
      destruct (buildTx pos) as [err|tx]; simpl in Hexec; injection Hexec as <-;
        (constructor; simpl; unfold submittedCount, pcFits, held; simpl;
         rewrite ?submitted_snoc, ?length_app; simpl;
         destruct (Nat.ltb_spec (S i) (List.length positions)); simpl; auto; lia).
    + (* the delay has passed *)
      injection Hexec as <-.
      constructor; simpl; unfold submittedCount, pcFits, held; simpl; auto; lia.
    + (* every promise has settled *)
      destruct (allSettled sl); [|discriminate]. injection Hexec as <-.
      constructor; simpl; unfold submittedCount, pcFits, held; simpl; auto; lia.
  - destruct (nth_error sl j) as [[|r]|] eqn:Hj; try discriminate.
    pose proof (setNth_settles sl j (settle o) Hj) as Hless.
    unfold release in Hexec. simpl in Hexec.
    destruct p as [i|i|i|i| |r]; subst q; simpl in Hexec; injection Hexec as <-;
      unfold held in *;
      constructor; simpl; unfold submittedCount, pcFits, held; simpl;
      rewrite ?setNth_length; auto; simpl in *; lia.
Qed.

Lemma run_Inv : forall evs st st', Inv st -> run evs st = Some st' -> Inv st'.
Proof.
  induction evs as [|e evs IH]; intros st st' HI Hrun; simpl in Hrun.
  - now injection Hrun as <-.
  - destruct (exec e st) as [st1|] eqn:He; [|discriminate].
    eapply IH; [|exact Hrun]. eapply exec_Inv; eauto.
Qed.

(** C3. From the start of the loop, after any sequence of steps of [main] and
    of task completions in any order: the semaphore's counter is between 0 and
    the configured maximum; it equals the number of tasks awaiting the relayer
    plus the permit [main] may hold between [acquire()] and the start of a task,
    so at most the maximum number of positions are submitted and unsettled; a
    task is started only by [main] holding a permit; and every way a submitted
    task can end (the submission rejects or times out, the wait rejects, the
    wait resolves with success, on-chain failure or no hash) runs [release()],
    which finds the counter at 1 or more. The same holds of a task whose
    builder throws before anything is submitted. *)
Theorem semaphore_bound : forall evs st,
  0 <= N ->
  run evs init = Some st ->
  0 <= current (sem st) <= N
  /\ current (sem st) = Z.of_nat (submittedCount st) + held (pc st)
  /\ Z.of_nat (submittedCount st) <= N
  /\ (forall e st', exec e st = Some st' ->
        (List.length (slots st) < List.length (slots st'))%nat ->
        exists i, pc st = Resumed i /\ e = MainStep)
  /\ (forall j, nth_error (slots st) j = Some Submitted ->
        forall o, exists st',
          exec (TaskSettles j o) st = Some st'
          /\ sem st' = fst (release (sem st))
          /\ 1 <= current (sem st)
          /\ S (submittedCount st') = submittedCount st)
  /\ (forall i pos e, pc st = Resumed i -> nth_error positions i = Some pos ->
        buildTx pos = inl e ->
        exists st',
          exec MainStep st = Some st'
          /\ sem st' = fst (release (sem st))
          /\ 1 <= current (sem st)
          /\ submittedCount st' = submittedCount st).
Proof.
  intros evs st HN Hrun.
  pose proof (run_Inv evs init st (init_Inv HN) Hrun) as HI.
  destruct HI as [Hmax Hrange Hcount Hqueue Hfull Hpc].
  split; [exact Hrange|]. split; [exact Hcount|].
  split; [unfold held in Hcount; destruct (pc st); lia|].
  split; [|split].
  - intros e st' Hexec Hgrow. destruct e as [|j o]; simpl in Hexec.
    + destruct (pc st) as [i|i|i|i| |r] eqn:Hp; try discriminate.
      * destruct (acquire i (sem st)). injection Hexec as <-. simpl in Hgrow. lia.
      * eauto.
      * injection Hexec as <-. simpl in Hgrow. lia.
      * destruct (allSettled (slots st)); [|discriminate].
        injection Hexec as <-. simpl in Hgrow. lia.
    + destruct (nth_error (slots st) j) as [[|r]|]; try discriminate.
      destruct (release (sem st)). injection Hexec as <-.
      simpl in Hgrow. rewrite setNth_length in Hgrow. lia.
  - intros j Hj o. simpl. rewrite Hj.
    destruct (release (sem st)) as [s' woken] eqn:Hrel.
    eexists. split; [reflexivity|]. simpl.
    split; [reflexivity|].
    assert (Hpos : (0 < submittedCount st)%nat).
    { unfold submittedCount.
      pose proof (setNth_settles (slots st) j (settle o) Hj). lia. }
    split; [unfold held in Hcount; destruct (pc st); lia|].
    unfold submittedCount. simpl. now apply setNth_settles.
  - intros i pos e Hp Hpos Hbuild. simpl. rewrite Hp, Hpos.
    unfold startTask. rewrite Hbuild.
    eexists. split; [reflexivity|]. simpl.
    split; [reflexivity|].
    split; [rewrite Hp in Hcount; simpl in Hcount; lia|].
    unfold submittedCount. simpl. rewrite submitted_snoc. simpl. lia.
Qed.

End Invariant.

(** ** Properties: the results and the aggregate *)

Lemma classify_success_hash : forall result,
  success (classify result) = true -> truthy (txHash (classify result)) = true.
Proof.
  intros [[[h|] st]|]; simpl; try discriminate.
  destruct (h =? "")%string eqn:Hh; simpl; [discriminate|].
  destruct (match st with Some s => (s =? "STATE_FAILED")%string | None => false end);
    simpl; [discriminate|]. intros _. now rewrite Hh.
Qed.

Lemma settle_success_hash : forall o,
  success (settle o) = true -> truthy (txHash (settle o)) = true.
Proof.
  intros [e|e|result]; simpl; try discriminate. apply classify_success_hash.
Qed.

(** A thrown value never yields a success. *)
Lemma caught_fails : forall e,
  success (caught e) = false /\ txHash (caught e) = None /\ error (caught e) <> None.
Proof. intros e. simpl. repeat split. discriminate. Qed.

Lemma allSettled_spec : forall l rs,
  allSettled l = Some rs <-> l = map Settled rs.
Proof.
  induction l as [|s l IH]; intros rs; simpl.
  - split; intros H.
    + injection H as <-. reflexivity.
    + destruct rs; [reflexivity | discriminate].
  - destruct s as [|r].
    + split; [discriminate|]. destruct rs; discriminate.
    + destruct (allSettled l) as [rs'|] eqn:Hl.
      * split; intros H.
        -- injection H as <-. simpl. f_equal. now apply IH.
        -- destruct rs as [|r0 rs0]; [discriminate|]. simpl in H.
           injection H as -> H. apply IH in H. now injection H as ->.
      * split; [discriminate|]. intros H.
        destruct rs as [|r0 rs0]; [discriminate|]. simpl in H.
        injection H as _ H. apply IH in H. discriminate.
Qed.

Lemma nth_error_setNth : forall (A : Type) (l : list A) j k x,
  nth_error (setNth j x l) k
  = if (k =? j)%nat then option_map (fun _ => x) (nth_error l k) else nth_error l k.
Proof.
  induction l as [|y l IH]; intros [|j] [|k] x; simpl; auto.
  now destruct (k =? j)%nat.
Qed.

Lemma successfulTxs_of_results : forall results,
  Forall (fun r => success r = true -> truthy (txHash r) = true) results ->
  successfulTxs results = filter success results.
Proof.
  induction 1 as [|r rs Hr _ IH]; simpl; [reflexivity|].
  destruct (success r) eqn:Hs; simpl.
  - rewrite (Hr eq_refl). simpl. now f_equal.
  - exact IH.
Qed.

Section Aggregation.

Variable Position : Type.
Variable buildTx : Position -> Thrown + Transactions.Transaction.
Variable positions : list Position.
Variable N : Z.

Local Abbreviation exec := (exec Position buildTx positions).
Local Abbreviation run := (run Position buildTx positions).
Local Abbreviation init := (init Position positions N).

Lemma run_snoc : forall evs e st st',
  run (evs ++ [e]) st = Some st' <->
  exists mid, run evs st = Some mid /\ exec e mid = Some st'.
Proof.
  induction evs as [|e0 evs IH]; intros e st st'; simpl.
  - split.
    + intros H. exists st. split; [reflexivity|].
      destruct (Orchestrator.exec Position buildTx positions e st); [exact H | discriminate].
    + intros (mid & Hm & He). injection Hm as <-. now rewrite He.
  - destruct (Orchestrator.exec Position buildTx positions e0 st) as [s|].
    + apply IH.
    + split; [discriminate|]. intros (mid & Hm & _). discriminate.
Qed.

(** Where a slot's content comes from, for a run that took the events [evs]. *)
Record Hist (evs : list Event) (st : State) : Prop := mkHist {
  hist_settled : forall j r,
    nth_error (slots st) j = Some (Settled r) ->
    exists pos, nth_error positions j = Some pos
      /\ ((exists e, buildTx pos = inl e /\ r = caught e)
          \/ (exists tx o, buildTx pos = inr tx /\ In (TaskSettles j o) evs
                           /\ r = settle o));
  hist_event : forall j o,
    In (TaskSettles j o) evs -> nth_error (slots st) j = Some (Settled (settle o));
  hist_submitted : forall j,
    nth_error (slots st) j = Some Submitted ->
    exists pos tx, nth_error positions j = Some pos /\ buildTx pos = inr tx;
  hist_done : forall r,
    pc st = Done r ->
    (positions = [] /\ r = mkMainResult 0 0 None /\ slots st = [])
    \/ (exists results, slots st = map Settled results
                        /\ List.length results = List.length positions
                        /\ r = aggregate (List.length positions) results)
}.

Lemma init_Hist : Hist [] init.
Proof.
  constructor; unfold init; simpl.
  - intros [|j] r H; discriminate.
  - intros j o [].
  - intros [|j] H; discriminate.
  - intros r H. destruct positions; [|discriminate].
    injection H as <-. left. auto.
Qed.

Lemma exec_Hist : forall evs e st st',
  Inv Position positions N st -> Hist evs st -> exec e st = Some st' -> Hist (evs ++ [e]) st'.
Proof.
  intros evs e st st' HI [Hset Hev Hsub Hdone] Hexec.
  destruct HI as [_ _ _ _ _ Hpc]. unfold pcFits in Hpc.
  destruct e as [|j o]; simpl in Hexec.
  - (* a step of main: no event is added to the settled ones *)
    assert (Hin : forall j o, In (TaskSettles j o) (evs ++ [MainStep])
                              -> In (TaskSettles j o) evs).
    { intros j o H. apply in_app_or in H as [H|[H|[]]]; [exact H | discriminate]. }
    destruct (pc st) as [i|i|i|i| |r] eqn:Hp; try discriminate.
    + destruct (acquire i (sem st)) as [s' g]. injection Hexec as <-.
      constructor; simpl.
      * intros j r H. destruct (Hset j r H) as (pos & Hpos & [Hl|(tx & o & Hb & Ho & Hr)]);
          exists pos; split; auto. right. exists tx, o. repeat split; auto.
        apply in_or_app. now left.
      * intros j o H. apply Hev. now apply Hin.
      * exact Hsub.
      * intros r H. destruct g; discriminate.
    + destruct (nth_error positions i) as [pos|] eqn:Hpos; [|discriminate].
      destruct Hpc as [Hi Hlen].
      unfold startTask in Hexec.
      destruct (buildTx pos) as [err|tx] eqn:Hb; injection Hexec as <-;
        constructor; simpl.
      * intros j r H.
        destruct (Nat.lt_ge_cases j (List.length (slots st))) as [Hlt|Hge].
        -- rewrite nth_error_app1 in H by exact Hlt.
           destruct (Hset j r H) as (p & Hp' & [Hl|(tx & o & Hb' & Ho & Hr)]);
             exists p; split; auto. right. exists tx, o. repeat split; auto.
           apply in_or_app. now left.
        -- rewrite nth_error_app2 in H by exact Hge.
           destruct (j - List.length (slots st))%nat as [|d] eqn:Hd;
             [|destruct d; discriminate].
           simpl in H. injection H as <-.
           assert (j = i) by lia. subst j.
           exists pos. split; [exact Hpos|]. left. now exists err.
      * intros j o H. apply Hin in H. specialize (Hev j o H).
        rewrite nth_error_app1; [exact Hev|].
        apply nth_error_Some. congruence.
      * intros j H.
        destruct (Nat.lt_ge_cases j (List.length (slots st))) as [Hlt|Hge].
        -- rewrite nth_error_app1 in H by exact Hlt. now apply Hsub.
        -- rewrite nth_error_app2 in H by exact Hge.
           destruct (j - List.length (slots st))%nat as [|d]; [discriminate|].
           destruct d; discriminate.
      * intros r H. destruct (S i <? List.length positions)%nat; discriminate.
      * intros j r H.
        destruct (Nat.lt_ge_cases j (List.length (slots st))) as [Hlt|Hge].
        -- rewrite nth_error_app1 in H by exact Hlt.
           destruct (Hset j r H) as (p & Hp' & [Hl|(tx' & o & Hb' & Ho & Hr)]);
             exists p; split; auto. right. exists tx', o. repeat split; auto.
           apply in_or_app. now left.
        -- rewrite nth_error_app2 in H by exact Hge.
           destruct (j - List.length (slots st))%nat as [|d]; [discriminate|].
           destruct d; discriminate.
      * intros j o H. apply Hin in H. specialize (Hev j o H).
        rewrite nth_error_app1; [exact Hev|].
        apply nth_error_Some. congruence.
      * intros j H.
        destruct (Nat.lt_ge_cases j (List.length (slots st))) as [Hlt|Hge].
        -- rewrite nth_error_app1 in H by exact Hlt. now apply Hsub.
        -- rewrite nth_error_app2 in H by exact Hge.
           assert (j = i).
           { destruct (j - List.length (slots st))%nat as [|d] eqn:Hd; [lia|].
             destruct d; discriminate. }
           subst j. now exists pos, tx.
      * intros r H. destruct (S i <? List.length positions)%nat; discriminate.
    + injection Hexec as <-. constructor; simpl.
      * intros j r H. destruct (Hset j r H) as (pos & Hpos & [Hl|(tx & o & Hb & Ho & Hr)]);
          exists pos; split; auto. right. exists tx, o. repeat split; auto.
        apply in_or_app. now left.
      * intros j o H. apply Hev. now apply Hin.
      * exact Hsub.
      * discriminate.
    + destruct (allSettled (slots st)) as [results|] eqn:Hall; [|discriminate].
      injection Hexec as <-. constructor; simpl.
      * intros j r H. destruct (Hset j r H) as (pos & Hpos & [Hl|(tx & o & Hb & Ho & Hr)]);
          exists pos; split; auto. right. exists tx, o. repeat split; auto.
        apply in_or_app. now left.
      * intros j o H. apply Hev. now apply Hin.
      * exact Hsub.
      * intros r H. injection H as <-. right. exists results.
        apply allSettled_spec in Hall. split; [exact Hall|]. split; [|reflexivity].
        rewrite <- Hpc, Hall. now rewrite length_map.
  - (* task [j] settles *)
    destruct (nth_error (slots st) j) as [[|r0]|] eqn:Hj; try discriminate.
    destruct (release (sem st)) as [s' woken]. injection Hexec as <-.
    destruct (Hsub j Hj) as (pos & tx & Hpos & Hb).
    constructor; simpl.
    + intros k r H. rewrite nth_error_setNth in H.
      destruct (Nat.eqb_spec k j) as [Heq|Hne].
      * subst k. rewrite Hj in H. simpl in H. injection H as <-.
        exists pos. split; [exact Hpos|]. right. exists tx, o.
        repeat split; auto. apply in_or_app. right. now left.
      * destruct (Hset k r H) as (p & Hp' & [Hl|(tx' & o' & Hb' & Ho & Hr)]);
          exists p; split; auto. right. exists tx', o'. repeat split; auto.
        apply in_or_app. now left.
    + intros k o' H. rewrite nth_error_setNth.
      apply in_app_or in H as [H|[H|[]]].
      * specialize (Hev k o' H).
        destruct (Nat.eqb_spec k j) as [Heq|Hne]; [congruence | exact Hev].
      * injection H as <- <-. rewrite Nat.eqb_refl, Hj. reflexivity.
    + intros k H. rewrite nth_error_setNth in H.
      destruct (Nat.eqb_spec k j) as [Heq|Hne].
      * subst k. rewrite Hj in H. discriminate.
      * now apply Hsub.
    + intros r H.
      assert (Hp : pc st = Done r) by (destruct woken; [discriminate | exact H]).
      destruct (Hdone r Hp) as [(_ & _ & Hs)|(results & Hs & _)].
      * rewrite Hs in Hj. destruct j; discriminate.
      * rewrite Hs, nth_error_map in Hj. destruct (nth_error results j); discriminate.
Qed.

Lemma run_Hist : forall evs st,
  0 <= N -> run evs init = Some st -> Inv Position positions N st /\ Hist evs st.
Proof.
  induction evs as [|e evs IH] using rev_ind; intros st HN Hrun.
  - simpl in Hrun. injection Hrun as <-. split; [now apply init_Inv | apply init_Hist].
  - apply run_snoc in Hrun as (mid & Hmid & He).
    destruct (IH mid HN Hmid) as [HI HH]. split.
    + eapply exec_Inv; eauto.
    + eapply exec_Hist; eauto.
Qed.

End Aggregation.

Section Completion.

Variable Position : Type.
Variable buildTx : Position -> Thrown + Transactions.Transaction.
Variable positions : list Position.
Variable N : Z.

Local Abbreviation exec := (exec Position buildTx positions).
Local Abbreviation run := (run Position buildTx positions).
Local Abbreviation init := (init Position positions N).

(** How the awaits of the task of each position end, by position index. *)
Variable os : nat -> Relayed.

(** The result of the task of position [i]. *)
Definition resultOf (i : nat) (pos : Position) : RedemptionResult :=
  match buildTx pos with
  | inl e => caught e
  | inr _ => settle (os i)
  end.

Fixpoint expectedResults (i : nat) (rest : list Position) : list RedemptionResult :=
  match rest with
  | [] => []
  | pos :: rest' => resultOf i pos :: expectedResults (S i) rest'
  end.

(** One schedule among many: each task settles before the next iteration. *)
Fixpoint schedule (i : nat) (rest : list Position) : list Event :=
  match rest with
  | [] => [MainStep]
  | pos :: rest' =>
      MainStep :: MainStep
        :: (match buildTx pos with
            | inl _ => []
            | inr _ => [TaskSettles i (os i)]
            end)
        ++ (match rest' with [] => [] | _ :: _ => [MainStep] end)
        ++ schedule (S i) rest'
  end.

Definition idleAt (i : nat) (rest : list Position) (rs : list RedemptionResult) : State :=
  mkState (mkSemaphore N 0 [])
          (match rest with [] => Joining | _ :: _ => AtAcquire i end)
          (map Settled rs).

Lemma allSettled_map : forall rs, allSettled (map Settled rs) = Some rs.
Proof. intros rs. now apply allSettled_spec. Qed.

Lemma setNth_last : forall (A : Type) (l : list A) x y,
  setNth (List.length l) y (l ++ [x]) = l ++ [y].
Proof. induction l as [|z l IH]; intros x y; simpl; [reflexivity|]. now rewrite IH. Qed.

Lemma run_app : forall evs1 evs2 st mid,
  run evs1 st = Some mid -> run (evs1 ++ evs2) st = run evs2 mid.
Proof.
  induction evs1 as [|e evs1 IH]; intros evs2 st mid H; simpl in *.
  - now injection H as <-.
  - destruct (Orchestrator.exec Position buildTx positions e st) as [s|]; [|discriminate].
    now apply IH.
Qed.

Lemma schedule_runs : forall rest done rs,
  1 <= N ->
  positions = done ++ rest ->
  List.length rs = List.length done ->
  run (schedule (List.length done) rest) (idleAt (List.length done) rest rs)
  = Some (mkState (mkSemaphore N 0 [])
            (Done (aggregate (List.length positions)
                     (rs ++ expectedResults (List.length done) rest)))
            (map Settled (rs ++ expectedResults (List.length done) rest))).
Proof.
  induction rest as [|pos rest' IH]; intros done rs HN Hsplit Hlen.
  - simpl. unfold idleAt. simpl. rewrite allSettled_map, app_nil_r. reflexivity.
  - assert (Hnth : nth_error positions (List.length done) = Some pos).
    { rewrite Hsplit, nth_error_app2, Nat.sub_diag by apply Nat.le_refl. reflexivity. }
    assert (Hmore : (S (List.length done) <? List.length positions)%nat
                    = match rest' with [] => false | _ :: _ => true end).
    { rewrite Hsplit, length_app. simpl.
      destruct rest'; simpl.
      - apply Nat.ltb_ge. lia.
      - apply Nat.ltb_lt. lia. }
    assert (Hnext : forall r,
              run (match rest' with [] => [] | _ :: _ => [MainStep] end
                     ++ schedule (S (List.length done)) rest')
                  (mkState (mkSemaphore N 0 [])
                     (if match rest' with [] => false | _ :: _ => true end
                      then Sleeping (List.length done) else Joining)
                     (map Settled (rs ++ [r])))
              = Some (mkState (mkSemaphore N 0 [])
                        (Done (aggregate (List.length positions)
                                 ((rs ++ [r]) ++ expectedResults (S (List.length done)) rest')))
                        (map Settled ((rs ++ [r]) ++ expectedResults (S (List.length done)) rest')))).
    { intros r.
      specialize (IH (done ++ [pos]) (rs ++ [r]) HN).
      rewrite !length_app in IH. simpl in IH.
      rewrite !Nat.add_1_r in IH.
      rewrite <- IH.
      - destruct rest'; reflexivity.
      - rewrite Hsplit, <- app_assoc. reflexivity.
      - now rewrite Hlen. }
    cbn [schedule]. unfold idleAt.
    cbn [Orchestrator.run Orchestrator.exec pc sem slots].
    unfold acquire. cbn [current maxConcurrent waitQueue].
    replace (0 <? N) with true by (symmetry; apply Z.ltb_lt; lia).
    cbn [Orchestrator.run Orchestrator.exec pc sem slots].
    rewrite Hnth. unfold startTask.
    cbn [expectedResults]. unfold resultOf.
    destruct (buildTx pos) as [e|tx].
    + cbn [fst release current maxConcurrent waitQueue sem pc slots app].
      rewrite Hmore. replace (0 + 1 - 1) with 0 by lia.
      change [Settled (caught e)] with (map Settled [caught e]).
      rewrite <- (map_app Settled rs [caught e]).
      rewrite (Hnext (caught e)). rewrite <- !app_assoc. reflexivity.
    + cbn [app Orchestrator.run Orchestrator.exec pc sem slots].
      replace (nth_error (map Settled rs ++ [Submitted]) (List.length done))
        with (Some Submitted).
      2:{ rewrite nth_error_app2; rewrite length_map, Hlen;
          [now rewrite Nat.sub_diag | apply Nat.le_refl]. }
      unfold release. cbn [current maxConcurrent waitQueue sem pc slots].
      rewrite Hmore. replace (0 + 1 - 1) with 0 by lia.
      rewrite <- Hlen, <- (length_map Settled rs), setNth_last.
      rewrite length_map, Hlen.
      change [Settled (settle (os (List.length done)))]
        with (map Settled [settle (os (List.length done))]).
      rewrite <- (map_app Settled rs [settle (os (List.length done))]).
      rewrite (Hnext (settle (os (List.length done)))). rewrite <- !app_assoc. reflexivity.
Qed.

(** The aggregate of a pass in which every rejection carries a value whose
    properties can be read. When [main] returns from such a pass, whatever the
    order in which the tasks settled: every position has a settled result; the
    result of
    a position is the conversion of what its own builder threw or of how its own
    awaits ended, a caught error giving [success: false] with an error text;
    the aggregate counts the results with [success: true], reports the number of
    positions, and lists the transaction hashes of exactly the successful
    results, in position order. And for every way the positions' awaits may
    end, with at least one permit, some run does return. *)
Theorem aggregate_awaits_all :
  0 <= N ->
  (forall evs st r,
      run evs init = Some st -> pc st = Done r ->
      (positions = [] /\ r = mkMainResult 0 0 None)
      \/ exists results,
           slots st = map Settled results
           /\ List.length results = List.length positions
           /\ (forall j pos, nth_error positions j = Some pos ->
                 (exists e, buildTx pos = inl e
                            /\ nth_error results j = Some (caught e))
                 \/ (exists tx o, buildTx pos = inr tx
                                  /\ In (TaskSettles j o) evs
                                  /\ nth_error results j = Some (settle o)))
           /\ redeemed r = List.length (filter success results)
           /\ total r = List.length positions
           /\ transactions r = Some (hashesOf (filter success results)))
  /\ (forall e, settle (ExecuteRejected e) = caught e
                /\ settle (WaitRejected e) = caught e
                /\ success (caught e) = false
                /\ error (caught e) <> None)
  /\ (1 <= N -> positions <> [] ->
      exists st,
        run (schedule 0 positions) init = Some st
        /\ pc st = Done (aggregate (List.length positions) (expectedResults 0 positions))).
Proof.
  intros HN. split; [|split].
  - intros evs st r Hrun Hdone.
    destruct (run_Hist Position buildTx positions N evs st HN Hrun) as [HI HH].
    destruct HH as [Hset Hev Hsub Hd].
    destruct (Hd r Hdone) as [(He & Hr & _)|(results & Hs & Hlen & Hr)]; [left; auto|].
    right. exists results. split; [exact Hs|]. split; [exact Hlen|].
    assert (Hper : forall j pos, nth_error positions j = Some pos ->
                 (exists e, buildTx pos = inl e
                            /\ nth_error results j = Some (caught e))
                 \/ (exists tx o, buildTx pos = inr tx
                                  /\ In (TaskSettles j o) evs
                                  /\ nth_error results j = Some (settle o))).
    { intros j pos Hpos.
      assert (Hj : (j < List.length results)%nat).
      { rewrite Hlen. apply nth_error_Some. congruence. }
      destruct (nth_error results j) as [rj|] eqn:Hrj;
        [|apply nth_error_None in Hrj; lia].
      assert (Hslot : nth_error (slots st) j = Some (Settled rj)).
      { rewrite Hs, nth_error_map, Hrj. reflexivity. }
      destruct (Hset j rj Hslot) as (pos' & Hpos' & Hwhy).
      assert (pos' = pos) by congruence. subst pos'.
      destruct Hwhy as [(e & Hb & ->)|(tx & o & Hb & Ho & ->)].
      - left. exists e. auto.
      - right. exists tx, o. auto. }
    split; [exact Hper|].
    subst r. cbn [redeemed total transactions aggregate].
    repeat split. f_equal. f_equal.
    apply successfulTxs_of_results.
    apply Forall_forall. intros rj Hin.
    apply In_nth_error in Hin as (j & Hj).
    assert (Hslot : nth_error (slots st) j = Some (Settled rj)).
    { rewrite Hs, nth_error_map, Hj. reflexivity. }
    destruct (Hset j rj Hslot) as (pos & _ & [(e & _ & ->)|(tx & o & _ & _ & ->)]).
    + discriminate.
    + apply settle_success_hash.
  - intros e. repeat split. simpl. discriminate.
  - intros HN1 Hne.
    pose proof (schedule_runs positions [] [] HN1 eq_refl eq_refl) as H.
    cbn [List.length app] in H.
    eexists. split.
    + etransitivity; [|exact H].
      f_equal. unfold Orchestrator.init, idleAt, newSemaphore.
      destruct positions; [contradiction | reflexivity].
    + reflexivity.
Qed.

End Completion.

(** ** A pass over three positions with two permits *)

Definition sampleTx : Transactions.Transaction :=
  Transactions.mkTransaction Transactions.ctf
    (Transactions.mkCallData "redeemPositions(address,bytes32,bytes32,uint256[])" [])
    "0".

Definition hashA : string :=
  "0x00000000000000000000000000000000000000000000000000000000000000aa".
Definition hashC : string :=
  "0x00000000000000000000000000000000000000000000000000000000000000cc".

Definition confirmed (hash : string) : Relayed :=
  WaitResolved (Some (mkTxResult (Some hash) (Some "STATE_CONFIRMED"))).

Definition timedOut : Relayed :=
  ExecuteRejected (mkThrown true "Relayer execution timed out").

(** The third [acquire()] finds both permits taken and waits; the second
    submission then times out and hands its permit over; the first and the
    third settle last. *)
Definition samplePass : list Event :=
  [ MainStep; MainStep; MainStep;          (* acquire, start 0, delay *)
    MainStep; MainStep; MainStep;          (* acquire, start 1, delay *)
    MainStep;                              (* acquire: queued *)
    TaskSettles 1 timedOut;                (* release wakes main *)
    MainStep;                              (* start 2 *)
    TaskSettles 2 (confirmed hashC);
    TaskSettles 0 (confirmed hashA);
    MainStep ].                            (* Promise.all resolves *)

Definition sampleRun (evs : list Event) : option State :=
  run nat (fun _ => inr sampleTx) [0; 1; 2]%nat evs
      (init nat [0; 1; 2]%nat 2).

Example samplePass_blocks :
  option_map (fun st => (current (sem st), waitQueue (sem st), pc st, submittedCount st))
             (sampleRun (firstn 7 samplePass))
  = Some (2, [2%nat], Blocked 2, 2%nat).
Proof. reflexivity. Qed.

Example samplePass_result :
  option_map pc (sampleRun samplePass)
  = Some (Done (mkMainResult 2 3 (Some [hashA; hashC]))).
Proof. reflexivity. Qed.

Lemma semaphore_bound_witness :
  0 <= 2
  /\ sampleRun (firstn 7 samplePass)
     = Some (mkState (mkSemaphore 2 2 [2%nat]) (Blocked 2) [Submitted; Submitted])
  /\ 0 <= 2 <= 2.
Proof.
  split; [lia|]. split; [reflexivity|].
  apply (proj1 (semaphore_bound nat (fun _ => inr sampleTx) [0; 1; 2]%nat 2
                  (firstn 7 samplePass)
                  (mkState (mkSemaphore 2 2 [2%nat]) (Blocked 2) [Submitted; Submitted])
                  ltac:(lia) eq_refl)).
Defined.

Lemma aggregate_awaits_all_witness :
  0 <= 2
  /\ exists st,
       run nat (fun _ => inr sampleTx) [0; 1; 2]%nat
           (schedule nat (fun _ => inr sampleTx)
              (fun j => if (j =? 1)%nat then timedOut else confirmed hashA)
              0 [0; 1; 2]%nat)
           (init nat [0; 1; 2]%nat 2) = Some st
       /\ pc st = Done (mkMainResult 2 3 (Some [hashA; hashA])).
Proof.
  split; [lia|].
  apply (proj2 (proj2 (aggregate_awaits_all nat (fun _ => inr sampleTx) [0; 1; 2]%nat 2
                         (fun j => if (j =? 1)%nat then timedOut else confirmed hashA)
                         ltac:(lia)))).
  - lia.
  - discriminate.
Defined.

(** ** Properties: the shape of a result *)

Definition isSet (s : option string) : bool :=
  match s with Some _ => true | None => false end.

(** The reading of "exactly one of the success-path fields (with
    [success: true]) or the error field (with [success: false])". *)
Definition exclusiveWithFlag (r : RedemptionResult) : Prop :=
  (success r = true /\ isSet (txHash r) = true /\ isSet (url r) = true
   /\ isSet (error r) = false)
  \/ (success r = false /\ isSet (error r) = true
      /\ isSet (txHash r) = false /\ isSet (url r) = false).

(** The relayer reports a transaction that failed on-chain. *)
Definition failedOnChain : Relayed :=
  WaitResolved (Some (mkTxResult (Some hashA) (Some "STATE_FAILED"))).

(** C10, where it fails as stated: the result of a transaction that failed
    on-chain has [success: false], carries the hash and the explorer URL, and
    has no error text. *)
Lemma redemptionResult_counterexample :
  settle failedOnChain
  = mkResult false (Some hashA) (Some ("https://polygonscan.com/tx/" ++ hashA)%string) None
  /\ ~ exclusiveWithFlag (settle failedOnChain).
Proof.
  split; [reflexivity|].
  intros [(H & _)|(_ & H & _)]; discriminate.
Qed.

(** C10, as the code has it. Every result a task produces, from a caught
    error or from the relayer's answer, sets either both [txHash] and [url] or
    [error], never both groups and never neither; [error] goes with
    [success: false], and [success: true] goes with [txHash] and [url]; the
    result with [txHash], [url] and [success: false] is the one of a hash whose
    state is [STATE_FAILED]. *)
Theorem redemptionResult_shape : forall r,
  (exists e, r = caught e) \/ (exists o, r = settle o) ->
  (isSet (txHash r) = isSet (url r))
  /\ (isSet (error r) = negb (isSet (txHash r)))
  /\ (isSet (error r) = true -> success r = false)
  /\ (success r = true -> isSet (txHash r) = true /\ isSet (url r) = true)
  /\ (success r = false -> isSet (txHash r) = true ->
        exists hash, r = settle (WaitResolved
                                   (Some (mkTxResult (Some hash) (Some "STATE_FAILED"))))).
Proof.
  assert (Hcaught : forall e,
    (isSet (txHash (caught e)) = isSet (url (caught e)))
    /\ (isSet (error (caught e)) = negb (isSet (txHash (caught e))))
    /\ (isSet (error (caught e)) = true -> success (caught e) = false)
    /\ (success (caught e) = true ->
          isSet (txHash (caught e)) = true /\ isSet (url (caught e)) = true)
    /\ (success (caught e) = false -> isSet (txHash (caught e)) = true ->
          exists hash, caught e = settle (WaitResolved
                                   (Some (mkTxResult (Some hash) (Some "STATE_FAILED")))))).
  { intros e. simpl. repeat split; try discriminate. }
  intros r [(e & ->)|(o & ->)]; [apply Hcaught|].
  destruct o as [e|e|result]; try apply Hcaught.
  destruct result as [[[hash|] st]|]; simpl;
    try (repeat split; intros; discriminate).
  destruct (hash =? "")%string eqn:Hh; simpl;
    [repeat split; intros; discriminate|].
  destruct st as [s|]; [destruct (String.eqb_spec s "STATE_FAILED") as [->|Hs]|];
    simpl; repeat split; intros; try discriminate.
  exists hash. rewrite Hh. reflexivity.
Qed.

Lemma redemptionResult_shape_witness :
  (exists o, settle failedOnChain = settle o)
  /\ isSet (error (settle failedOnChain)) = negb (isSet (txHash (settle failedOnChain))).
Proof.
  split; [now exists failedOnChain|].
  apply (proj1 (proj2 (redemptionResult_shape (settle failedOnChain)
                         (or_intror (ex_intro _ failedOnChain eq_refl))))).
Defined.

(** ** Building the transaction of a position ([redeem.ts]) *)

(** What the first statements of the task's [try] block throw: [BigInt] its
    [RangeError], or a builder one of its errors. *)
Inductive BuildError : Type :=
| AmountNotInteger
| BuilderThrows (e : Transactions.Error).

(** [if (pos.negativeRisk) { ... createNegRiskRedeemTx(pos.conditionId,
    calculateRedeemAmounts(pos.outcomes.map(o => o.size))) } else {
    createCtfRedeemTx(pos.conditionId) }]. *)
Definition buildTx (pos : Fetcher.Position Transactions.number)
  : BuildError + Transactions.Transaction :=
  if Fetcher.negativeRisk _ pos then
    let sizes := map (Fetcher.size _) (Fetcher.outcomes _ pos) in
    match Transactions.calculateRedeemAmounts sizes with
    | None => inl AmountNotInteger
    | Some amounts =>
        match Transactions.createNegRiskRedeemTx (Fetcher.conditionId _ pos) amounts with
        | inl e => inl (BuilderThrows e)
        | inr tx => inr tx
        end
    end
  else
    match Transactions.createCtfRedeemTx (Fetcher.conditionId _ pos) with
    | inl e => inl (BuilderThrows e)
    | inr tx => inr tx
    end.

(** For the positions that [getRedeemablePositions] returns, whatever the
    response held, the checks of the builders never fire in [redeem.ts]: a
    position that is not negative-risk always gets its CTF transaction; a
    negative-risk one gets the adapter transaction that carries one amount per
    outcome, unless a size times a million is not a number or plus infinity
    ([BigInt] throws) or an amount does not fit a [uint256] (the encoder
    throws). *)
Theorem buildTx_of_grouped :
  forall (raw : Type) (zero : Transactions.number)
         (add : Transactions.number -> Transactions.number -> Transactions.number)
         (numberOrZero : raw -> Transactions.number)
         (max0 : Transactions.number -> Transactions.number)
         (positions : list (Fetcher.RawPositionData raw))
         (g : Fetcher.Position Transactions.number),
    In g (fst (Fetcher.groupPositions _ raw zero add numberOrZero max0 positions)) ->
    (forall e, buildTx g = inl (BuilderThrows e) ->
               Transactions.isValidationError e = false)
    /\ (Fetcher.negativeRisk _ g = false ->
        exists tx, buildTx g = inr tx
                   /\ Transactions.to tx = Transactions.ctf)
    /\ (Fetcher.negativeRisk _ g = true ->
        (buildTx g = inl AmountNotInteger
         <-> Exists (fun o => Transactions.refused
                                (Transactions.times (Fetcher.size _ o) Transactions.million)
                              = true)
                    (Fetcher.outcomes _ g))
        /\ forall amounts,
             Transactions.calculateRedeemAmounts
               (map (Fetcher.size _) (Fetcher.outcomes _ g)) = Some amounts ->
             List.length amounts = List.length (Fetcher.outcomes _ g)
             /\ (Forall (fun a => a < 2 ^ 256) amounts ->
                 exists tx, buildTx g = inr tx
                            /\ Transactions.to tx = Transactions.negRiskAdapter
                            /\ Transactions.decodeAmounts (Transactions.data tx)
                               = Some amounts)).
Proof.
  intros raw zero add numberOrZero max0 positions g Hin.
  destruct (Fetcher.grouped_wellformed _ raw zero add numberOrZero max0 positions g Hin)
    as [Hcid Hout].
  pose proof (Transactions.createCtfRedeemTx_accepts _ Hcid) as Hbuilt.
  unfold buildTx.
  destruct (Fetcher.negativeRisk _ g) eqn:Hneg.
  - set (sizes := map (Fetcher.size _) (Fetcher.outcomes _ g)).
    pose proof (Transactions.calculateRedeemAmounts_returns sizes) as Hsome.
    pose proof (Transactions.calculateRedeemAmounts_throws sizes) as Hnone.
    assert (Hsizes : sizes <> []).
    { unfold sizes. destruct (Fetcher.outcomes _ g); [contradiction | discriminate]. }
    destruct (Transactions.calculateRedeemAmounts sizes) as [amounts|] eqn:Hcalc.
    + destruct (Hsome amounts eq_refl) as (Hlen & Hnn & _).
      assert (Hne : amounts <> []).
      { intros ->. destruct sizes; [contradiction | discriminate]. }
      split; [|split; [discriminate|]].
      * intros e He.
        destruct (Transactions.createNegRiskRedeemTx (Fetcher.conditionId _ g) amounts)
          as [e'|tx] eqn:Hb; [|discriminate].
        injection He as <-.
        unfold Transactions.createNegRiskRedeemTx in Hb. rewrite Hcid in Hb. cbn [negb] in Hb.
        destruct amounts as [|a0 rest]; [contradiction|]. cbn [List.length Nat.eqb] in Hb.
        rewrite Transactions.find_forall_none in Hb.
        -- unfold Transactions.encodeNegRiskRedeem in Hb.
           destruct (Transactions.encodeUint256s (a0 :: rest)) as [e0|ws] eqn:Henc;
             [|discriminate].
           assert (e' = e0) by congruence. subst e'. clear Hb.
           revert e0 Henc.
           generalize (a0 :: rest). intros l.
           induction l as [|x l IH]; intros e0 Henc; [discriminate|].
           cbn [Transactions.encodeUint256s] in Henc.
           unfold Transactions.encodeUint256 in Henc.
           destruct ((0 <=? x) && (x <=? Transactions.uint256Max)).
           ++ destruct (Transactions.encodeUint256s l) as [e1|ws]; [|discriminate].
              injection Henc as <-. now apply IH.
           ++ injection Henc as <-. reflexivity.
        -- eapply Forall_impl; [|exact Hnn]. intros x Hx. apply Z.ltb_ge. exact Hx.
      * intros _. split.
        -- split.
           { intros Hb.
             destruct (Transactions.createNegRiskRedeemTx (Fetcher.conditionId _ g) amounts);
               discriminate. }
           intros Hex. exfalso.
           assert (Hn : Some amounts = None).
           { apply Hnone. unfold sizes. apply Exists_exists in Hex as (o & Ho & Hr).
             apply Exists_exists. exists (Fetcher.size _ o). split; [|exact Hr].
             now apply in_map. }
           discriminate.
        -- intros amounts' Heq. injection Heq as <-.
           split; [unfold sizes in Hlen; now rewrite length_map in Hlen|].
           intros Hfit.
           rewrite (Transactions.createNegRiskRedeemTx_accepts _ amounts Hcid Hne).
           ++ eexists. split; [reflexivity|]. cbn [Transactions.to Transactions.data].
              split; [reflexivity|]. unfold Transactions.decodeAmounts.
              cbn [Transactions.words]. rewrite !Z.eqb_refl. reflexivity.
           ++ apply Forall_forall. intros x Hx.
              rewrite Forall_forall in Hnn, Hfit. split; auto.
    + split; [discriminate|]. split; [discriminate|].
      intros _. split; [|discriminate].
      split; [intros _|reflexivity].
      pose proof (proj1 Hnone eq_refl) as Hex. unfold sizes in Hex.
      apply Exists_exists in Hex as (s & Hs & Hr).
      apply in_map_iff in Hs as (o & <- & Ho).
      apply Exists_exists. exists o. split; assumption.
  - rewrite Hbuilt. split; [discriminate|]. split; [|discriminate].
    intros _. eexists. split; reflexivity.
Qed.

(** A negative-risk market held on one side: 111 shares of YES, none of NO.
    The response's numbers are taken as they are. *)
Definition sampleNegRisk : list (Fetcher.RawPositionData Transactions.number) :=
  [ Fetcher.mkRaw _ (Some Transactions.sampleConditionId) (Some "Who wins?") true
      (Some "YES") (SpecFloat.S754_zero false)
      (SpecFloat.S754_finite false 111 0) (SpecFloat.S754_finite false 111 0);
    Fetcher.mkRaw _ (Some Transactions.sampleConditionId) (Some "Who wins?") true
      (Some "NO") (SpecFloat.S754_finite false 1 0)
      (SpecFloat.S754_zero false) (SpecFloat.S754_zero false) ].

Definition sampleGroups : list (Fetcher.Position Transactions.number) :=
  fst (Fetcher.groupPositions _ _ (SpecFloat.S754_zero false) (SpecFloat.SFadd 53 1024)
         (fun x => x) (fun x => x) sampleNegRisk).

Example buildTx_sample :
  map buildTx sampleGroups
  = [ inr (Transactions.mkTransaction Transactions.negRiskAdapter
             (Transactions.mkCallData "redeemPositions(bytes32,uint256[])"
                [161; 64; 2; 111000000; 0])
             "0") ].
Proof. vm_compute. reflexivity. Qed.

Lemma buildTx_of_grouped_witness :
  (exists g, In g sampleGroups
             /\ forall e, buildTx g = inl (BuilderThrows e) ->
                          Transactions.isValidationError e = false).
Proof.
  eexists. split; [left; reflexivity|].
  apply (proj1 (buildTx_of_grouped _ (SpecFloat.S754_zero false) (SpecFloat.SFadd 53 1024)
                  (fun x => x) (fun x => x) sampleNegRisk _ (or_introl eq_refl))).
Defined.

(** ** The exit code ([redeem.ts], the handler of [main()]) *)

(** [process.exit(...)] in [.then(result => ...)]. [setup] is [result.setup]
    ([None] when it is [undefined]), [checkOnly] is [result.checkOnly] as a
    condition. *)
Definition exitCode (setup : option bool) (checkOnly : bool) (result : MainResult) : Z :=
  match setup with
  | Some done => if done then 0 else 1
  | None =>
      if checkOnly then 0
      else if (0 <? redeemed result)%nat || (total result =? 0)%nat then 0 else 1
  end.

Lemma filter_success_positive : forall results,
  (0 < List.length (filter success results))%nat
  <-> Exists (fun r => success r = true) results.
Proof.
  induction results as [|r results IH]; simpl.
  - split; [lia | intros H; inversion H].
  - destruct (success r) eqn:Hr; simpl.
    + split; [intros _; now apply Exists_cons_hd | lia].
    + rewrite IH. split; [now apply Exists_cons_tl|].
      intros H. inversion H; subst; [congruence | assumption].
Qed.

Section ExitCode.

Variable Position : Type.
Variable buildTransaction : Position -> Thrown + Transactions.Transaction.
Variable positions : list Position.
Variable N : Z.

(** The process of a redemption run exits with 0 or 1, and with 0 exactly
    when there was nothing to redeem or at least one redemption settled with
    [success: true]: one success among failures is a success of the run, and a
    run whose redemptions all failed exits with 1. A set-up run exits by
    [result.setup] alone and a check-only run with 0. *)
Theorem exitCode_of_run :
  0 <= N ->
  forall evs st r,
    run Position buildTransaction positions evs (init Position positions N) = Some st ->
    pc st = Done r ->
    (exitCode None false r = 0
     <-> positions = []
         \/ exists j result, nth_error (slots st) j = Some (Settled result)
                             /\ success result = true)
    /\ (exitCode None false r = 0 \/ exitCode None false r = 1)
    /\ exitCode None true r = 0
    /\ (forall checkOnly, exitCode (Some true) checkOnly r = 0
                          /\ exitCode (Some false) checkOnly r = 1).
Proof.
  intros HN evs st r Hrun Hdone.
  destruct (run_Hist Position buildTransaction positions N evs st HN Hrun) as [_ HH].
  destruct HH as [_ _ _ Hd].
  split; [|split; [|split]].
  - destruct (Hd r Hdone) as [(He & Hr & _)|(results & Hs & Hlen & Hr)].
    + subst r. cbn. split; [intros _; now left | reflexivity].
    + subst r. unfold exitCode, aggregate. cbn [redeemed total].
      destruct (0 <? List.length (filter success results))%nat eqn:Hpos.
      * cbn [orb]. split; [intros _|reflexivity]. right.
        apply Nat.ltb_lt in Hpos. apply filter_success_positive in Hpos.
        apply Exists_exists in Hpos as (result & Hin & Hok).
        apply In_nth_error in Hin as [j Hj]. exists j, result. split; [|exact Hok].
        rewrite Hs. rewrite nth_error_map, Hj. reflexivity.
      * cbn [orb]. apply Nat.ltb_ge in Hpos.
        destruct (List.length positions =? 0)%nat eqn:Hz.
        -- split; [intros _; left|reflexivity].
           apply Nat.eqb_eq in Hz. now destruct positions.
        -- split; [discriminate|]. intros [He|(j & result & Hj & Hok)].
           ++ subst positions. discriminate.
           ++ exfalso. rewrite Hs, nth_error_map in Hj.
              destruct (nth_error results j) as [r'|] eqn:Hr'; [|discriminate].
              injection Hj as ->. apply nth_error_In in Hr'.
              assert (Hex : Exists (fun r => success r = true) results).
              { apply Exists_exists. eauto. }
              apply filter_success_positive in Hex. lia.
  - unfold exitCode.
    destruct ((0 <? redeemed r)%nat || (total r =? 0)%nat); auto.
  - reflexivity.
  - intros checkOnly. split; reflexivity.
Qed.

End ExitCode.

(** The state the sample run above ends in: two redemptions confirmed, one
    timed out. The process exits with 0. *)
Definition sampleFinal : State :=
  mkState (mkSemaphore 2 0 [])
          (Done (mkMainResult 2 3 (Some [hashA; hashC])))
          [ Settled (settle (confirmed hashA));
            Settled (settle timedOut);
            Settled (settle (confirmed hashC)) ].

Lemma exitCode_of_run_witness :
  0 <= 2
  /\ sampleRun samplePass = Some sampleFinal
  /\ exitCode None false (mkMainResult 2 3 (Some [hashA; hashC])) = 0.
Proof.
  assert (Hrun : sampleRun samplePass = Some sampleFinal) by (vm_compute; reflexivity).
  split; [lia|]. split; [exact Hrun|].
  apply (proj2 (proj1 (exitCode_of_run nat (fun _ => inr sampleTx) [0; 1; 2]%nat 2
                         ltac:(lia) samplePass sampleFinal
                         (mkMainResult 2 3 (Some [hashA; hashC])) Hrun eq_refl))).
  right. exists 0%nat, (settle (confirmed hashA)). split; reflexivity.
Defined.

(** ** Progress *)

Section Progress.

Variable Position : Type.
Variable buildTransaction : Position -> Thrown + Transactions.Transaction.
Variable positions : list Position.
Variable N : Z.

Local Abbreviation exec := (exec Position buildTransaction positions).
Local Abbreviation run := (run Position buildTransaction positions).
Local Abbreviation init := (init Position positions N).

Lemma submitted_exists : forall l,
  (0 < List.length (filter isSubmitted l))%nat ->
  exists j, nth_error l j = Some Submitted.
Proof.
  induction l as [|s l IH]; simpl; [lia|].
  destruct s as [|r]; simpl.
  - intros _. now exists 0%nat.
  - intros H. destruct (IH H) as [j Hj]. now exists (S j).
Qed.

Lemma allSettled_or_submitted : forall l,
  (exists results, allSettled l = Some results)
  \/ exists j, nth_error l j = Some Submitted.
Proof.
  induction l as [|s l IH].
  - left. now exists [].
  - destruct s as [|r].
    + right. now exists 0%nat.
    + destruct IH as [[results H]|[j Hj]].
      * left. exists (r :: results). unfold allSettled in *. simpl. now rewrite H.
      * right. now exists (S j).
Qed.

(** The orchestrator cannot get stuck. With a limit of at least 1, in every
    state a run can reach, [main] has returned, or its continuation can run, or
    it waits (for a permit, or in [Promise.all]) while a submitted redemption
    is still outstanding, and the settlement of that redemption, whatever the
    relayer answers, is a step the state accepts. While [main] waits for a
    permit exactly [N] redemptions are outstanding. *)
Theorem no_deadlock : forall evs st,
  1 <= N ->
  run evs init = Some st ->
  ((exists r, pc st = Done r)
   \/ (exists st', exec MainStep st = Some st')
   \/ (((exists i, pc st = Blocked i) \/ pc st = Joining)
       /\ exists j, nth_error (slots st) j = Some Submitted
                    /\ forall o, exists st', exec (TaskSettles j o) st = Some st'))
  /\ (forall i, pc st = Blocked i -> Z.of_nat (submittedCount st) = N).
Proof.
  intros evs st HN Hrun.
  assert (HN0 : 0 <= N) by lia.
  destruct (run_Hist Position buildTransaction positions N evs st HN0 Hrun) as [HI _].
  destruct HI as [Hmax Hrange Hcount Hqueue Hfull Hpc].
  assert (Hsettle : forall j, nth_error (slots st) j = Some Submitted ->
                      forall o, exists st', exec (TaskSettles j o) st = Some st').
  { intros j Hj o. unfold Orchestrator.exec. rewrite Hj.
    destruct (release (sem st)) as [s' woken]. eauto. }
  split.
  - unfold pcFits in Hpc. destruct (pc st) as [i|i|i|i| |r] eqn:Hpcst.
    + right. left. unfold Orchestrator.exec. rewrite Hpcst.
      destruct (acquire i (sem st)) as [s' granted]. eauto.
    + right. right. split; [left; eauto|].
      cbn [held] in Hcount. assert (Hpos : (0 < submittedCount st)%nat) by lia.
      destruct (submitted_exists (slots st) Hpos) as [j Hj]. exists j. auto.
    + right. left. unfold Orchestrator.exec. rewrite Hpcst.
      destruct Hpc as [Hlt _].
      destruct (nth_error positions i) as [pos|] eqn:Hpos;
        [|apply nth_error_None in Hpos; lia].
      destruct (startTask Position buildTransaction pos (sem st)) as [s' slot]. eauto.
    + right. left. unfold Orchestrator.exec. rewrite Hpcst. eauto.
    + destruct (allSettled_or_submitted (slots st)) as [[results Hall]|[j Hj]].
      * right. left. unfold Orchestrator.exec. rewrite Hpcst, Hall. eauto.
      * right. right. split; [now right|]. exists j. auto.
    + left. eauto.
  - intros i Hi. rewrite Hi in Hfull, Hcount. cbn [held] in Hcount. lia.
Qed.

End Progress.

(** In the sample run, with the third [acquire()] queued, two redemptions are
    outstanding and either settlement wakes [main]. *)
Lemma no_deadlock_witness :
  1 <= 2
  /\ option_map pc (sampleRun (firstn 7 samplePass)) = Some (Blocked 2)
  /\ Z.of_nat (submittedCount
                 (mkState (mkSemaphore 2 2 [2%nat]) (Blocked 2) [Submitted; Submitted])) = 2.
Proof.
  split; [lia|]. split; [reflexivity|].
  apply (proj2 (no_deadlock nat (fun _ => inr sampleTx) [0; 1; 2]%nat 2
                  (firstn 7 samplePass)
                  (mkState (mkSemaphore 2 2 [2%nat]) (Blocked 2) [Submitted; Submitted])
                  ltac:(lia) eq_refl) 2%nat eq_refl).
Defined.

(** ** Termination *)

Section Termination.

Variable Position : Type.
Variable buildTransaction : Position -> Thrown + Transactions.Transaction.
Variable positions : list Position.
Variable N : Z.

Local Abbreviation exec := (exec Position buildTransaction positions).
Local Abbreviation run := (run Position buildTransaction positions).
Local Abbreviation init := (init Position positions N).

(** The steps [main] still has to take, from where it stands: three for each
    position to come (acquire, start, delay), the delay after the last one
    left out, and the last for [Promise.all]. *)
Definition mainLeft (p : Pc) : Z :=
  let n := Z.of_nat (List.length positions) in
  match p with
  | AtAcquire i => 3 * (n - Z.of_nat i) + 1
  | Blocked i => 3 * (n - Z.of_nat i)
  | Resumed i => 3 * (n - Z.of_nat i)
  | Sleeping i => 3 * (n - Z.of_nat i) - 1
  | Joining => 1
  | Done _ => 0
  end.

(** The positions whose redemption has not settled yet. *)
Definition tasksLeft (st : State) : Z :=
  Z.of_nat (List.length positions)
  - (Z.of_nat (List.length (slots st)) - Z.of_nat (submittedCount st)).

Definition stepsLeft (st : State) : Z := mainLeft (pc st) + tasksLeft st.

Lemma submittedCount_le : forall st,
  (submittedCount st <= List.length (slots st))%nat.
Proof. intros st. unfold submittedCount. apply filter_length_le. Qed.

(** Every step uses up one of the steps left. *)
Lemma exec_stepsLeft : forall evs e st st',
  Inv Position positions N st -> Hist Position buildTransaction positions evs st ->
  exec e st = Some st' ->
  stepsLeft st' < stepsLeft st.
Proof.
  intros evs e st st' [Hmax Hrange Hcount Hqueue Hfull Hpc] [_ _ _ Hdone] Hexec.
  pose proof (submittedCount_le st) as Hle.
  unfold stepsLeft, tasksLeft, submittedCount, pcFits in *.
  destruct st as [[m c q] p sl]. cbn [pc slots sem waitQueue current maxConcurrent] in *.
  destruct e as [|j o]; cbn [Orchestrator.exec pc slots sem] in Hexec.
  - destruct p as [i|i|i|i| |r]; try discriminate.
    + unfold acquire in Hexec. cbn [current maxConcurrent waitQueue] in Hexec.
      destruct (c <? m); injection Hexec as <-; cbn [pc slots mainLeft]; lia.
    + destruct (nth_error positions i) as [pos|] eqn:Hpos; [|discriminate].
      unfold startTask in Hexec.
      destruct (buildTransaction pos) as [err|tx]; cbn [fst] in Hexec;
        injection Hexec as <-;
        cbn [pc slots]; rewrite submitted_snoc, length_app; cbn [isSubmitted List.length];
        destruct (Nat.ltb_spec (S i) (List.length positions)); cbn [mainLeft]; lia.
    + injection Hexec as <-. cbn [pc slots mainLeft]. lia.
    + destruct (allSettled sl); [|discriminate]. injection Hexec as <-.
      cbn [pc slots mainLeft]. lia.
  - destruct (nth_error sl j) as [[|r]|] eqn:Hj; try discriminate.
    pose proof (setNth_settles sl j (settle o) Hj) as Hless.
    assert (Hbound : (List.length sl <= List.length positions)%nat).
    { destruct p as [i|i|i|i| |r]; try lia.
      destruct (Hdone r eq_refl) as [(_ & _ & Hs)|(results & Hs & Hlen & _)].
      - rewrite Hs. cbn [List.length]. lia.
      - rewrite Hs, length_map. lia. }
    unfold release in Hexec. cbn [waitQueue current maxConcurrent] in Hexec.
    destruct q as [|who rest]; injection Hexec as <-; cbn [pc slots];
      rewrite setNth_length.
    + lia.
    + destruct p as [i|i|i|i| |r]; try discriminate; injection Hqueue as -> ->;
        cbn [mainLeft]; lia.
Qed.

(** Every run is finite, and short. A run of [k] events leaves at most
    [4 n + 1 - k] steps to take, for [n] positions: [main] takes three steps
    for a position and one for [Promise.all], and each redemption settles
    once. So no run has more than [4 n + 1] events. *)
Theorem run_is_bounded : forall evs st,
  0 <= N ->
  run evs init = Some st ->
  0 <= stepsLeft st
  /\ Z.of_nat (List.length evs) + stepsLeft st <= 4 * Z.of_nat (List.length positions) + 1
  /\ Z.of_nat (List.length evs) <= 4 * Z.of_nat (List.length positions) + 1.
Proof.
  intros evs st HN Hrun.
  assert (Hnn : 0 <= stepsLeft st).
  { destruct (run_Hist Position buildTransaction positions N evs st HN Hrun) as [HI HH].
    destruct HI as [_ _ _ _ _ Hpc]. destruct HH as [_ _ _ Hdone].
    pose proof (submittedCount_le st) as Hle.
    unfold stepsLeft, tasksLeft, mainLeft, pcFits in *.
    destruct (pc st) as [i|i|i|i| |r]; try lia.
    destruct (Hdone r eq_refl) as [(_ & _ & Hs)|(results & Hs & Hlen & _)].
    - rewrite Hs in *. simpl in *. lia.
    - rewrite Hs, length_map in *. lia. }
  assert (Hsum : Z.of_nat (List.length evs) + stepsLeft st
                 <= 4 * Z.of_nat (List.length positions) + 1).
  { clear Hnn. revert st Hrun.
    induction evs as [|e evs IH] using rev_ind; intros st Hrun.
    - simpl in Hrun. injection Hrun as <-.
      unfold stepsLeft, tasksLeft, mainLeft, submittedCount, Orchestrator.init.
      destruct positions as [|p ps]; simpl List.length; simpl pc; simpl slots;
        cbn [filter List.length]; lia.
    - apply run_snoc in Hrun as (mid & Hmid & He).
      destruct (run_Hist Position buildTransaction positions N evs mid HN Hmid) as [HI HH].
      pose proof (exec_stepsLeft evs e mid st HI HH He) as Hstep.
      specialize (IH mid Hmid). rewrite length_app. simpl List.length. lia. }
  split; [exact Hnn|]. split; [exact Hsum|]. lia.
Qed.

End Termination.

(** The sample run: twelve events for three positions, and none left. *)
Lemma run_is_bounded_witness :
  0 <= 2
  /\ sampleRun samplePass = Some sampleFinal
  /\ Z.of_nat (List.length samplePass) <= 4 * 3 + 1.
Proof.
  assert (Hrun : sampleRun samplePass = Some sampleFinal) by (vm_compute; reflexivity).
  split; [lia|]. split; [exact Hrun|].
  apply (proj2 (proj2 (run_is_bounded nat (fun _ => inr sampleTx) [0; 1; 2]%nat 2
                         samplePass sampleFinal ltac:(lia) Hrun))).
Defined.

(** ** A rejection by [null] or [undefined]

    The [catch] block of the task first takes the message,
    [error instanceof Error ? error.message : 'Unknown error'], which every
    value passes. It then reads [errorWithTx.transactionHash]. A value that has
    properties answers that read, and the block returns [caught]; [null] and
    [undefined] have none, the read throws a [TypeError], the [finally] still
    releases the permit, and the promise of the task rejects instead of
    resolving to a result. *)

(** What [catch (error)] binds. *)
Inductive Caught : Type :=
| Readable (e : Thrown)           (* any value but [null] and [undefined] *)
| Nullish (isNull : bool).        (* [null], or [undefined] *)

(** The [TypeError] of reading a property of [null] or [undefined]. *)
Definition nullishTypeError (isNull : bool) : Thrown :=
  mkThrown true
    ("Cannot read properties of " ++ (if isNull then "null" else "undefined")
     ++ " (reading 'transactionHash')").

(** The [catch] block on any value: the result it returns, or the
    [TypeError] it throws. *)
Definition catchBlock (v : Caught) : Thrown + RedemptionResult :=
  match v with
  | Readable e => inr (caught e)
  | Nullish isNull => inl (nullishTypeError isNull)
  end.

(** ** The pass, with such rejections

    The steps of [exec], and with them the step of a task whose awaits end
    with a rejection by [null] or [undefined]: its [catch] block throws, its
    [finally] releases the permit and wakes a waiter, and its promise rejects
    with the [TypeError]. From then on the pass can only end badly. Once
    [main] awaits [Promise.all(results)], that promise rejects with the reason
    of the first rejection, and [main] with it; the [catch] handler of
    [main()] prints [Fatal error] and exits with 1. Before that no handler is
    attached to the promise of the task: Node (18 or later is required) reports
    an unhandled rejection and ends the process with code 1, at a moment that
    is left open here. *)

Inductive AnyEvent : Type :=
| Plain (e : Event)
| TaskThrows (j : nat) (isNull : bool)
| ProcessExits.

(** How a pass ends when it does not end with [main] returning. *)
Inductive Ending : Type :=
| MainRejects (reason : Thrown)          (* [Fatal error: reason], exit code 1 *)
| UnhandledRejection (reason : Thrown).  (* the process was ended, exit code 1 *)

(** [rejected] lists the tasks whose promise has rejected, with the reason,
    in the order in which they rejected; the slot of such a task stays as it
    was pushed. *)
Record AnyState : Type := mkAny {
  inner : State;
  rejected : list (nat * Thrown);
  ended : option Ending
}.

Definition hasRejected (j : nat) (st : AnyState) : bool :=
  existsb (fun rejection => Nat.eqb j (fst rejection)) (rejected st).

Section AnyRun.

Variable Position : Type.
Variable buildTx : Position -> Thrown + Transactions.Transaction.
Variable positions : list Position.
Variable maxConcurrentRedemptions : Z.

Local Abbreviation exec := (exec Position buildTx positions).

Definition going (st : AnyState) (next : option State) : option AnyState :=
  option_map (fun s => mkAny s (rejected st) None) next.

(** [main] awaits [Promise.all(results)] and one of the promises has
    rejected. *)
Definition joinRejects (st : AnyState) : option Thrown :=
  match pc (inner st), rejected st with
  | Joining, (_, reason) :: _ => Some reason
  | _, _ => None
  end.

Definition execAny (e : AnyEvent) (st : AnyState) : option AnyState :=
  match ended st with
  | Some _ => None
  | None =>
      match e with
      | Plain MainStep =>
          match joinRejects st with
          | Some reason => Some (mkAny (inner st) (rejected st) (Some (MainRejects reason)))
          | None => going st (exec MainStep (inner st))
          end
      | Plain (TaskSettles j o) =>
          if hasRejected j st then None
          else going st (exec (TaskSettles j o) (inner st))
      | TaskThrows j isNull =>
          if hasRejected j st then None
          else
            match nth_error (slots (inner st)) j with
            | Some Submitted =>
                let '(s', woken) := release (sem (inner st)) in
                Some (mkAny (mkState s'
                               (match woken with
                                | Some i => Resumed i
                                | None => pc (inner st)
                                end)
                               (slots (inner st)))
                            (rejected st ++ [(j, nullishTypeError isNull)]) None)
            | _ => None
            end
      | ProcessExits =>
          match rejected st with
          | (_, reason) :: _ =>
              Some (mkAny (inner st) (rejected st) (Some (UnhandledRejection reason)))
          | [] => None
          end
      end
  end.

Fixpoint runAny (evs : list AnyEvent) (st : AnyState) : option AnyState :=
  match evs with
  | [] => Some st
  | e :: evs' =>
      match execAny e st with
      | Some st' => runAny evs' st'
      | None => None
      end
  end.

Definition initAny : AnyState :=
  mkAny (init Position positions maxConcurrentRedemptions) [] None.

(** What [main] has returned, if it has. *)
Definition returned (st : AnyState) : option MainResult :=
  match ended st, pc (inner st) with
  | None, Done r => Some r
  | _, _ => None
  end.

(** The exit code of a pass that is over. *)
Definition exitCodeAny (st : AnyState) : option Z :=
  match ended st, pc (inner st) with
  | Some _, _ => Some 1
  | None, Done r => Some (exitCode None false r)
  | None, _ => None
  end.

(** A pass in which no task throws is a pass of [exec]. *)
Lemma execAny_plain : forall e st,
  execAny (Plain e) (mkAny st [] None)
  = option_map (fun s => mkAny s [] None) (exec e st).
Proof.
  intros [|j o] st; cbn [execAny ended rejected inner hasRejected existsb going].
  - replace (joinRejects (mkAny st [] None)) with (@None Thrown); [reflexivity|].
    unfold joinRejects. cbn [inner rejected]. destruct (pc st); reflexivity.
  - reflexivity.
Qed.

Lemma runAny_plain : forall evs st,
  runAny (map Plain evs) (mkAny st [] None)
  = option_map (fun s => mkAny s [] None) (run Position buildTx positions evs st).
Proof.
  induction evs as [|e evs IH]; intros st; cbn [map runAny run]; [reflexivity|].
  rewrite execAny_plain.
  destruct (exec e st) as [st'|]; cbn [option_map]; [apply IH | reflexivity].
Qed.

Lemma runAny_snoc : forall evs e st st',
  runAny (evs ++ [e]) st = Some st' <->
  exists mid, runAny evs st = Some mid /\ execAny e mid = Some st'.
Proof.
  induction evs as [|e0 evs IH]; intros e st st'; cbn [app runAny].
  - split.
    + intros H. exists st. split; [reflexivity|].
      destruct (execAny e st); [exact H | discriminate].
    + intros (mid & Hm & He). injection Hm as <-. now rewrite He.
  - destruct (execAny e0 st) as [s|].
    + apply IH.
    + split; [discriminate|]. intros (mid & Hm & _). discriminate.
Qed.

(** What a pass keeps true: the slot of a task that has thrown stays
    submitted, every task that has thrown is listed, and [main] has not
    returned while a task is still submitted. *)
Record Doomed (evs : list AnyEvent) (st : AnyState) : Prop := mkDoomed {
  doomed_slot : forall j, In j (map fst (rejected st)) ->
                          nth_error (slots (inner st)) j = Some Submitted;
  doomed_listed : forall j isNull,
    In (TaskThrows j isNull) evs -> In j (map fst (rejected st));
  doomed_done : forall r j, pc (inner st) = Done r ->
                            nth_error (slots (inner st)) j <> Some Submitted
}.

Lemma hasRejected_false : forall j st,
  hasRejected j st = false -> ~ In j (map fst (rejected st)).
Proof.
  intros j st H Hin. unfold hasRejected in H.
  assert (Ht : existsb (fun rejection => Nat.eqb j (fst rejection)) (rejected st) = true).
  { apply in_map_iff in Hin as (rejection & Hfst & Hin).
    apply existsb_exists. exists rejection. split; [exact Hin|].
    rewrite Hfst. apply Nat.eqb_refl. }
  congruence.
Qed.

Lemma exec_Doomed_inner : forall e (st st' : State) (listed : list nat),
  (forall j, In j listed -> nth_error (slots st) j = Some Submitted) ->
  (forall r j, pc st = Done r -> nth_error (slots st) j <> Some Submitted) ->
  (forall j o, e = TaskSettles j o -> ~ In j listed) ->
  exec e st = Some st' ->
  (forall j, In j listed -> nth_error (slots st') j = Some Submitted)
  /\ (forall r j, pc st' = Done r -> nth_error (slots st') j <> Some Submitted).
Proof.
  intros e st st' listed Hslot Hdone Hfree Hexec.
  destruct e as [|k o]; cbn [Orchestrator.exec] in Hexec.
  - destruct (pc st) as [i|i|i|i| |r] eqn:Hp; try discriminate.
    + destruct (acquire i (sem st)) as [s' g]. injection Hexec as <-.
      cbn [slots pc]. split; [exact Hslot|]. intros r j H. destruct g; discriminate.
    + destruct (nth_error positions i) as [pos|]; [|discriminate].
      destruct (startTask Position buildTx pos (sem st)) as [s' slot].
      injection Hexec as <-. cbn [slots pc]. split.
      * intros j Hj. specialize (Hslot j Hj).
        rewrite nth_error_app1; [exact Hslot|]. apply nth_error_Some. congruence.
      * intros r j H. destruct (S i <? List.length positions)%nat; discriminate.
    + injection Hexec as <-. cbn [slots pc]. split; [exact Hslot | discriminate].
    + destruct (allSettled (slots st)) as [results|] eqn:Hall; [|discriminate].
      injection Hexec as <-. cbn [slots pc]. split; [exact Hslot|].
      intros r j _. apply allSettled_spec in Hall. rewrite Hall, nth_error_map.
      destruct (nth_error results j); discriminate.
  - destruct (nth_error (slots st) k) as [[|r0]|] eqn:Hk; try discriminate.
    destruct (release (sem st)) as [s' woken]. injection Hexec as <-.
    cbn [slots pc]. split.
    + intros j Hj. rewrite nth_error_setNth.
      destruct (Nat.eqb_spec j k) as [->|Hne]; [|now apply Hslot].
      exfalso. now apply (Hfree k o eq_refl).
    + intros r j H.
      assert (Hp : pc st = Done r) by (destruct woken; [discriminate | exact H]).
      exfalso. now apply (Hdone r k Hp).
Qed.

Lemma execAny_Doomed : forall evs e st st',
  Doomed evs st -> execAny e st = Some st' -> Doomed (evs ++ [e]) st'.
Proof.
  intros evs e st st' [Hslot Hlisted Hdone] Hexec.
  unfold execAny in Hexec. destruct (ended st); [discriminate|].
  assert (Hkeep : forall e', (forall j b, e' <> TaskThrows j b) ->
            forall j isNull, In (TaskThrows j isNull) (evs ++ [e']) ->
                             In j (map fst (rejected st))).
  { intros e' Hno j b Hin. apply in_app_or in Hin as [Hin|[Hin|[]]].
    - now apply (Hlisted j b).
    - exfalso. now apply (Hno j b). }
  destruct e as [[|k o]|k isNull|].
  - destruct (joinRejects st) as [reason|].
    + injection Hexec as <-. constructor; cbn [inner rejected].
      * exact Hslot.
      * apply Hkeep. discriminate.
      * exact Hdone.
    + unfold going in Hexec.
      destruct (exec MainStep (inner st)) as [s|] eqn:He; [|discriminate].
      injection Hexec as <-.
      destruct (exec_Doomed_inner MainStep (inner st) s (map fst (rejected st))
                  Hslot Hdone ltac:(discriminate) He) as [H1 H2].
      constructor; cbn [inner rejected];
        [exact H1 | apply Hkeep; discriminate | exact H2].
  - destruct (hasRejected k st) eqn:Hk; [discriminate|].
    unfold going in Hexec.
    destruct (exec (TaskSettles k o) (inner st)) as [s|] eqn:He; [|discriminate].
    injection Hexec as <-.
    destruct (exec_Doomed_inner (TaskSettles k o) (inner st) s (map fst (rejected st))
                Hslot Hdone) as [H1 H2]; [|exact He|].
    { intros j o' Heq. injection Heq as -> _. now apply hasRejected_false. }
    constructor; cbn [inner rejected];
      [exact H1 | apply Hkeep; discriminate | exact H2].
  - destruct (hasRejected k st) eqn:Hk; [discriminate|].
    destruct (nth_error (slots (inner st)) k) as [[|r0]|] eqn:Hslotk; try discriminate.
    destruct (release (sem (inner st))) as [s' woken]. injection Hexec as <-.
    constructor; cbn [inner rejected slots pc]; rewrite ?map_app; cbn [map fst].
    + intros j Hj. apply in_app_or in Hj as [Hj|[<-|[]]];
        [now apply Hslot | exact Hslotk].
    + intros j b Hin. apply in_or_app. apply in_app_or in Hin as [Hin|[Hin|[]]].
      * left. now apply (Hlisted j b).
      * injection Hin as <- _. right. now left.
    + intros r j H.
      assert (Hp : pc (inner st) = Done r) by (destruct woken; [discriminate | exact H]).
      exfalso. now apply (Hdone r k Hp).
  - destruct (rejected st) as [|[j0 reason] rest]; [discriminate|].
    injection Hexec as <-. constructor; cbn [inner rejected].
    + exact Hslot.
    + apply Hkeep. discriminate.
    + exact Hdone.
Qed.

Lemma runAny_Doomed : forall evs st,
  runAny evs initAny = Some st -> Doomed evs st.
Proof.
  induction evs as [|e evs IH] using rev_ind; intros st Hrun.
  - cbn [runAny] in Hrun. injection Hrun as <-.
    constructor; unfold initAny, init; cbn [inner rejected slots pc].
    + intros j [].
    + intros j b [].
    + intros r j _. destruct j; discriminate.
  - apply runAny_snoc in Hrun as (mid & Hmid & He).
    eapply execAny_Doomed; [apply IH; exact Hmid | exact He].
Qed.

(** Once a task has thrown, [main] does not return, whatever is still
    scheduled and in whatever order; and a pass that is over without [main]
    having returned has exit code 1. *)
Lemma thrown_never_returns : forall evs st j isNull,
  runAny evs initAny = Some st ->
  In (TaskThrows j isNull) evs ->
  returned st = None
  /\ (forall code, exitCodeAny st = Some code -> code = 1).
Proof.
  intros evs st j isNull Hrun Hin.
  destruct (runAny_Doomed evs st Hrun) as [Hslot Hlisted Hdone].
  assert (Hnot : forall r, pc (inner st) <> Done r).
  { intros r Hp. apply (Hdone r j Hp). apply Hslot. now apply (Hlisted j isNull). }
  unfold returned, exitCodeAny. destruct (ended st).
  - split; [reflexivity|]. intros code H. now injection H as <-.
  - destruct (pc (inner st)) as [i|i|i|i| |r] eqn:Hp;
      try (split; [reflexivity | discriminate]).
    exfalso. now apply (Hnot r).
Qed.

End AnyRun.

(** The pass of the specification's example, three positions and two
    permits, in which the second submission fails: by [null] here, and by an
    [Error] in [samplePass]. The third [acquire()] waits; the second task's
    [catch] block throws, its [finally] hands the permit over, and its promise
    rejects; the two other redemptions are confirmed; [Promise.all] then
    rejects. *)
Definition nullPass : list AnyEvent :=
  [ Plain MainStep; Plain MainStep; Plain MainStep;
    Plain MainStep; Plain MainStep; Plain MainStep;
    Plain MainStep;
    TaskThrows 1 true;
    Plain MainStep;
    Plain (TaskSettles 2 (confirmed hashC));
    Plain (TaskSettles 0 (confirmed hashA));
    Plain MainStep ].

Definition sampleRunAny (evs : list AnyEvent) : option AnyState :=
  runAny nat (fun _ => inr sampleTx) [0; 1; 2]%nat evs
         (initAny nat [0; 1; 2]%nat 2).

(** C6, on the code. The relayer's [execute] for the second of three
    positions rejects with [null], the two others are confirmed. The [catch]
    block does not convert the rejection into a result: it throws, the promise
    of the task rejects, [Promise.all] rejects with it, and [main] returns no
    aggregate; the two confirmed redemptions are reported nowhere and the
    process exits with 1. The same pass with an [Error] in place of [null]
    returns [{redeemed: 2, total: 3}] with both hashes and exits with 0. And in
    general: in every pass, in whatever order its steps are taken, once the
    awaits of one task have ended with a rejection by [null] or [undefined],
    [main] does not return, and the exit code of the pass is 1. *)
Theorem null_rejection_aborts_aggregate :
  catchBlock (Nullish true)
  = inl (mkThrown true "Cannot read properties of null (reading 'transactionHash')")
  /\ (forall e, catchBlock (Readable e) = inr (caught e))
  /\ option_map (fun st => (ended st, returned st, exitCodeAny st, slots (inner st)))
                (sampleRunAny nullPass)
     = Some (Some (MainRejects (nullishTypeError true)), None, Some 1,
             [ Settled (settle (confirmed hashA)); Submitted;
               Settled (settle (confirmed hashC)) ])
  /\ option_map (fun st => (ended st, returned st, exitCodeAny st))
                (sampleRunAny (firstn 8 nullPass ++ [ProcessExits]))
     = Some (Some (UnhandledRejection (nullishTypeError true)), None, Some 1)
  /\ option_map (fun st => (ended st, returned st, exitCodeAny st))
                (sampleRunAny (map Plain samplePass))
     = Some (None, Some (mkMainResult 2 3 (Some [hashA; hashC])), Some 0)
  /\ (forall (Position : Type) (buildTx : Position -> Thrown + Transactions.Transaction)
             (positions : list Position) (N : Z) evs st j isNull,
        runAny Position buildTx positions evs (initAny Position positions N) = Some st ->
        In (TaskThrows j isNull) evs ->
        returned st = None
        /\ (forall code, exitCodeAny st = Some code -> code = 1))
  /\ (forall (Position : Type) (buildTx : Position -> Thrown + Transactions.Transaction)
             (positions : list Position) (N : Z) evs,
        runAny Position buildTx positions (map Plain evs) (initAny Position positions N)
        = option_map (fun s => mkAny s [] None)
            (run Position buildTx positions evs (init Position positions N))).
Proof.
  split; [reflexivity|]. split; [reflexivity|]. split; [reflexivity|].
  split; [reflexivity|]. split; [reflexivity|]. split.
  - intros Position buildTx positions N evs st j isNull Hrun Hin.
    exact (thrown_never_returns Position buildTx positions N evs st j isNull Hrun Hin).
  - intros Position buildTx positions N evs. apply runAny_plain.
Qed.

End Orchestrator.

(* ===================================================================== *)
(** * Credential vault ([src/keyManager.ts]) *)
(* ===================================================================== *)

Module Vault.

(** A [Buffer]: a sequence of bytes. *)
Definition Buffer : Type := list ascii.

(** ** [Buffer] and hexadecimal text *)

(** The digit of a value below 16, as [buf.toString('hex')] writes it. *)
Definition hexChar (d : nat) : ascii :=
  nth d (list_ascii_of_string "0123456789abcdef") "0"%char.

(** [buf.toString('hex')]: two lowercase digits per byte. *)
Fixpoint toHex (b : Buffer) : string :=
  match b with
  | [] => EmptyString
  | c :: b' =>
      String (hexChar (nat_of_ascii c / 16))
        (String (hexChar (nat_of_ascii c mod 16)) (toHex b'))
  end.

(** [Buffer.from(s, 'hex')]: one byte per pair of hexadecimal digits of either
    case; the decoding stops at the first pair that is not two digits, and a
    last single character is dropped (Node's documentation of the ['hex']
    encoding: "data truncated when first non-hexadecimal value encountered"). *)
Fixpoint fromHex (s : string) : Buffer :=
  match s with
  | String a (String b rest) =>
      match Hex.digitValue a, Hex.digitValue b with
      | Some x, Some y => ascii_of_nat (Z.to_nat (16 * x + y)) :: fromHex rest
      | _, _ => []
      end
  | _ => []
  end.

Fixpoint bufferEqb (a b : Buffer) : bool :=
  match a, b with
  | [], [] => true
  | x :: a', y :: b' => Ascii.eqb x y && bufferEqb a' b'
  | _, _ => false
  end.

(** ** The secrets and the record on disk *)

(** [EncryptedKeys] of [types.ts]. *)
Record EncryptedKeys : Type := mkKeys {
  privateKey : string;
  funderAddress : string;
  apiKey : string;
  apiSecret : string;
  apiPassphrase : string
}.

(** [EncryptedData] of [types.ts]: four strings of hexadecimal digits. *)
Record EncryptedData : Type := mkData {
  salt : string;
  iv : string;
  encrypted : string;
  tag : string
}.

(** What [JSON.parse] returns: the object of five strings, or some other
    value, which [decrypt] hands on unchecked ([as EncryptedKeys]). *)
Inductive Json : Type :=
| KeysObject (keys : EncryptedKeys)
| OtherValue (text : string).

(** What [loadKeys] throws. The last two are thrown by [createDecipheriv] and
    by [decipher.setAuthTag], before the [try] block is entered. *)
Inductive VaultError : Type :=
| KeyFileNotFound                 (* 'Key file not found. Run setup first.' *)
| DecryptionError                 (* 'Invalid password or corrupted key file' *)
| InvalidIv
| InvalidAuthTagLength (n : nat).

(** ** The runtime's primitives

    [node:crypto] and [JSON] are not part of the repository. They enter as the
    functions below, with the structure the standards fix and nothing about
    their strength:
    - PBKDF2 with HMAC-SHA256 uses the password only as the HMAC key, and HMAC
      (RFC 2104) brings a key to the block length of 64 bytes: a longer key is
      hashed first, and the key is then filled up with zero bytes. [prf] is
      the rest of the derivation, a function of that block;
    - AES-256-GCM encrypts in counter mode, so encryption and decryption are
      the same function [gcmCrypt] of key and IV, and [gcmTag] is the 16-byte
      tag of key, IV, associated data and ciphertext;
    - [jsonStringify], [jsonParse] and [utf8Decode] are [JSON.stringify],
      [JSON.parse] ([None] when it throws) and the decoding of bytes into a
      string. *)
Record Runtime : Type := mkRuntime {
  sha256 : Buffer -> Buffer;
  prf : Buffer -> Buffer -> Z -> nat -> Buffer;
  gcmCrypt : Buffer -> Buffer -> Buffer -> Buffer;
  gcmTag : Buffer -> Buffer -> Buffer -> Buffer -> Buffer;
  jsonStringify : EncryptedKeys -> string;
  jsonParse : string -> option Json;
  utf8Decode : Buffer -> string
}.

(** What is used of them: decrypting a ciphertext under its key and IV gives
    the plaintext back, a tag has 16 bytes, and the text of a bundle parses
    back to the bundle, also after a passage through bytes. *)
Record Lawful (rt : Runtime) : Prop := mkLawful {
  gcmCrypt_involutive : forall key iv data,
    gcmCrypt rt key iv (gcmCrypt rt key iv data) = data;
  gcmTag_length : forall key iv aad data,
    List.length (gcmTag rt key iv aad data) = 16%nat;
  json_round_trip : forall keys,
    jsonParse rt (jsonStringify rt keys) = Some (KeysObject keys);
  utf8_round_trip : forall keys,
    utf8Decode rt (list_ascii_of_string (jsonStringify rt keys)) = jsonStringify rt keys
}.

Section KeyManager.

Variable rt : Runtime.

(** The HMAC key block of a password (RFC 2104, section 2). *)
Definition hmacKeyBlock (password : string) : Buffer :=
  let k := list_ascii_of_string password in
  let k' := if (List.length k <=? 64)%nat then k else sha256 rt k in
  k' ++ repeat zero (64 - List.length k').

(** [crypto.pbkdf2Sync(password, salt, iterations, keylen, 'sha256')]. *)
Definition pbkdf2Sync (password : string) (saltBuffer : Buffer)
    (iterations : Z) (keylen : nat) : Buffer :=
  prf rt (hmacKeyBlock password) saltBuffer iterations keylen.

(** [deriveKey]; [this.keyLength] is 32. *)
Definition deriveKey (password : string) (saltBuffer : Buffer) : Buffer :=
  pbkdf2Sync password saltBuffer 100000 32.

(** [encrypt]. [saltBytes] and [ivBytes] are what [crypto.randomBytes(32)] and
    [crypto.randomBytes(this.ivLength)] return. *)
Definition encrypt (data : EncryptedKeys) (password : string)
    (saltBytes ivBytes : Buffer) : EncryptedData :=
  let key := deriveKey password saltBytes in
  let ciphertext :=
    gcmCrypt rt key ivBytes (list_ascii_of_string (jsonStringify rt data)) in
  let tagBytes := gcmTag rt key ivBytes saltBytes ciphertext in
  mkData (toHex saltBytes) (toHex ivBytes) (toHex ciphertext) (toHex tagBytes).

(** The tag lengths [decipher.setAuthTag] accepts for GCM when
    [createDecipheriv] was given no [authTagLength] option, as here: those of
    NIST SP 800-38D, 4, 8 and 12 to 16 bytes; any other length makes it throw.
    (Node lists the acceptance of the shorter ones as deprecation DEP0182.) *)
Definition isValidGcmTagLength (n : nat) : bool :=
  (n =? 4)%nat || (n =? 8)%nat || ((12 <=? n)%nat && (n <=? 16)%nat).

(** [decrypt]. [createDecipheriv] refuses an empty IV. [decipher.final]
    compares the tag it was given with as many leading bytes of the tag it
    computed; a mismatch, or a [JSON.parse] that throws, ends in the [catch],
    and what [decipher.update] had returned by then is dropped with it. *)
Definition decrypt (encryptedData : EncryptedData) (password : string)
  : VaultError + Json :=
  let saltBuffer := fromHex (salt encryptedData) in
  let ivBuffer := fromHex (iv encryptedData) in
  let tagBuffer := fromHex (tag encryptedData) in
  let key := deriveKey password saltBuffer in
  if (List.length ivBuffer =? 0)%nat then inl InvalidIv
  else if negb (isValidGcmTagLength (List.length tagBuffer))
  then inl (InvalidAuthTagLength (List.length tagBuffer))
  else
    let ciphertext := fromHex (encrypted encryptedData) in
    let computed := gcmTag rt key ivBuffer saltBuffer ciphertext in
    if bufferEqb (firstn (List.length tagBuffer) computed) tagBuffer
    then
      match jsonParse rt (utf8Decode rt (gcmCrypt rt key ivBuffer ciphertext)) with
      | Some value => inr value
      | None => inl DecryptionError
      end
    else inl DecryptionError.

(** The key file: absent, or holding a record. The file's text is
    [JSON.stringify(encrypted, null, 2)] and is read back with [JSON.parse]; a
    file stands here for the record of four strings that its text holds. *)
Definition KeyFile : Type := option EncryptedData.

(** [storeKeys]: the file is written, whatever it held. *)
Definition storeKeys (keys : EncryptedKeys) (password : string)
    (saltBytes ivBytes : Buffer) (file : KeyFile) : KeyFile :=
  Some (encrypt keys password saltBytes ivBytes).

(** [loadKeys]. *)
Definition loadKeys (password : string) (file : KeyFile) : VaultError + Json :=
  match file with
  | None => inl KeyFileNotFound
  | Some encryptedData => decrypt encryptedData password
  end.

(** [isSetup] and [reset]. *)
Definition isSetup (file : KeyFile) : bool :=
  match file with Some _ => true | None => false end.

Definition reset (file : KeyFile) : bool * KeyFile := (isSetup file, None).

(** ** Tampering with the stored tag *)

(** The string with its last character replaced. *)
Fixpoint replaceLast (c : ascii) (s : string) : string :=
  match s with
  | EmptyString => EmptyString
  | String _ EmptyString => String c EmptyString
  | String a rest => String a (replaceLast c rest)
  end.

(** One byte of the [tag] field is overwritten: its last character becomes
    [c]. *)
Definition tamperTag (c : ascii) (d : EncryptedData) : EncryptedData :=
  mkData (salt d) (iv d) (encrypted d) (replaceLast c (tag d)).

End KeyManager.

(** ** Properties of the hexadecimal codec *)

Lemma fromHex_byte : forall c rest,
  fromHex (String (hexChar (nat_of_ascii c / 16))
             (String (hexChar (nat_of_ascii c mod 16)) rest))
  = c :: fromHex rest.
Proof.
  intros c rest. destruct c as [[] [] [] [] [] [] [] []]; reflexivity.
Qed.

Lemma fromHex_toHex_app : forall b rest,
  fromHex (toHex b ++ rest)%string = b ++ fromHex rest.
Proof.
  induction b as [|c b IH]; intros rest; [reflexivity|].
  cbn [toHex String.append]. rewrite fromHex_byte, IH. reflexivity.
Qed.

(** Decoding what was encoded gives the bytes back. *)
Lemma fromHex_toHex : forall b, fromHex (toHex b) = b.
Proof.
  intros b. rewrite <- (app_nil_r b) at 2.
  change (b ++ []) with (b ++ fromHex EmptyString).
  rewrite <- fromHex_toHex_app.
  f_equal. induction (toHex b) as [|a s IH]; simpl; congruence.
Qed.

Lemma toHex_app : forall a b, toHex (a ++ b) = (toHex a ++ toHex b)%string.
Proof.
  induction a as [|c a IH]; intros b; simpl; [reflexivity|]. now rewrite IH.
Qed.

Lemma replaceLast_pair : forall s a b c,
  replaceLast c (s ++ String a (String b EmptyString))
  = (s ++ String a (String c EmptyString))%string.
Proof.
  induction s as [|x s IH]; intros a b c; simpl; [reflexivity|].
  rewrite IH. destruct s; reflexivity.
Qed.

Lemma bufferEqb_eq : forall a b, bufferEqb a b = true <-> a = b.
Proof.
  induction a as [|x a IH]; intros [|y b]; simpl; split; intros H;
    try discriminate; try reflexivity.
  - apply andb_true_iff in H as [Hx Hab].
    apply Ascii.eqb_eq in Hx. apply IH in Hab. congruence.
  - injection H as -> ->. rewrite Ascii.eqb_refl. now apply IH.
Qed.

(** A buffer of 16 bytes, written in hexadecimal with its last character
    replaced by one that is no hexadecimal digit, decodes to its first 15
    bytes. *)
Lemma fromHex_tampered : forall t c,
  List.length t = 16%nat ->
  Hex.digitValue c = None ->
  fromHex (replaceLast c (toHex t)) = firstn 15 t.
Proof.
  intros t c Hlen Hc.
  destruct (exists_last (l := t)) as (front & lastByte & ->);
    [intros ->; discriminate|].
  rewrite length_app in Hlen. simpl in Hlen.
  assert (Hfront : List.length front = 15%nat) by lia.
  rewrite toHex_app. cbn [toHex]. rewrite replaceLast_pair, fromHex_toHex_app.
  rewrite firstn_app, Hfront, Nat.sub_diag, firstn_O, app_nil_r.
  rewrite firstn_all2 by lia.
  rewrite <- (app_nil_r front) at 2. f_equal.
  cbn [fromHex].
  destruct (Hex.digitValue (hexChar (nat_of_ascii lastByte / 16)));
    rewrite ?Hc; reflexivity.
Qed.

(** ** Properties of the vault *)

Section VaultProperties.

Variable rt : Runtime.
Hypothesis laws : Lawful rt.


(** What [decrypt] does to a record that [encrypt] made, for any password. *)
Lemma decrypt_encrypt : forall keys P Q saltBytes ivBytes,
  List.length ivBytes = 16%nat ->
  decrypt rt (encrypt rt keys P saltBytes ivBytes) Q
  = let ciphertext :=
      gcmCrypt rt (deriveKey rt P saltBytes) ivBytes
               (list_ascii_of_string (jsonStringify rt keys)) in
    if bufferEqb (gcmTag rt (deriveKey rt Q saltBytes) ivBytes saltBytes ciphertext)
                 (gcmTag rt (deriveKey rt P saltBytes) ivBytes saltBytes ciphertext)
    then match jsonParse rt (utf8Decode rt
                               (gcmCrypt rt (deriveKey rt Q saltBytes) ivBytes ciphertext))
         with
         | Some value => inr value
         | None => inl DecryptionError
         end
    else inl DecryptionError.
Proof.
  intros keys P Q saltBytes ivBytes Hiv. unfold decrypt, encrypt.
  cbn [salt iv encrypted tag]. rewrite !fromHex_toHex.
  rewrite Hiv. cbn [Nat.eqb].
  rewrite !(gcmTag_length rt laws). cbn [isValidGcmTagLength Nat.eqb Nat.leb orb andb negb].
  rewrite firstn_all2 by (rewrite (gcmTag_length rt laws); apply Nat.le_refl).
  reflexivity.
Qed.

(** Any password that derives the key of the record opens it. *)
Lemma decrypt_encrypt_same_key : forall keys P Q saltBytes ivBytes,
  List.length ivBytes = 16%nat ->
  deriveKey rt Q saltBytes = deriveKey rt P saltBytes ->
  decrypt rt (encrypt rt keys P saltBytes ivBytes) Q = inr (KeysObject keys).
Proof.
  intros keys P Q saltBytes ivBytes Hiv Hkey. rewrite decrypt_encrypt by exact Hiv.
  cbv zeta.
  rewrite Hkey.
  replace (bufferEqb _ _) with true by (symmetry; now apply bufferEqb_eq).
  rewrite (gcmCrypt_involutive rt laws), (utf8_round_trip rt laws), (json_round_trip rt laws).
  reflexivity.
Qed.

(** What [loadKeys] does, with the original password, to the record of
    [encrypt] whose [tag] field was replaced by any text: it returns the bundle
    exactly when the text decodes to a leading part of the tag of an accepted
    length. *)
Lemma loadKeys_replaced_tag : forall keys P saltBytes ivBytes tag',
  List.length ivBytes = 16%nat ->
  let record := encrypt rt keys P saltBytes ivBytes in
  let stored := fromHex (tag record) in
  loadKeys rt P (Some (mkData (salt record) (iv record) (encrypted record) tag'))
  = if isValidGcmTagLength (List.length (fromHex tag'))
    then if bufferEqb (firstn (List.length (fromHex tag')) stored) (fromHex tag')
         then inr (KeysObject keys)
         else inl DecryptionError
    else inl (InvalidAuthTagLength (List.length (fromHex tag'))).
Proof.
  intros keys P saltBytes ivBytes tag' Hiv. cbv zeta.
  unfold loadKeys, decrypt, encrypt. cbn [salt iv encrypted tag].
  rewrite !fromHex_toHex. rewrite Hiv. cbn [Nat.eqb].
  destruct (isValidGcmTagLength (List.length (fromHex tag'))); cbn [negb];
    [|reflexivity].
  destruct (bufferEqb _ _); [|reflexivity].
  rewrite (gcmCrypt_involutive rt laws), (utf8_round_trip rt laws), (json_round_trip rt laws).
  reflexivity.
Qed.

(** A [tag] field that still decodes to 16 bytes, but not to the stored ones,
    is refused with the decryption error under the original password. *)
Theorem changed_tag_bytes_refused : forall keys P saltBytes ivBytes tag',
  List.length ivBytes = 16%nat ->
  List.length (fromHex tag') = 16%nat ->
  fromHex tag' <> fromHex (tag (encrypt rt keys P saltBytes ivBytes)) ->
  loadKeys rt P (Some (mkData (toHex saltBytes) (toHex ivBytes)
                         (encrypted (encrypt rt keys P saltBytes ivBytes)) tag'))
  = inl DecryptionError.
Proof.
  intros keys P saltBytes ivBytes tag' Hiv Hlen Hne.
  pose proof (loadKeys_replaced_tag keys P saltBytes ivBytes tag' Hiv) as H.
  cbv zeta in H. cbn [salt iv encrypt] in H. rewrite H. clear H.
  rewrite Hlen. cbn [isValidGcmTagLength Nat.eqb Nat.leb orb andb].
  destruct (bufferEqb _ _) eqn:Heq; [|reflexivity].
  apply bufferEqb_eq in Heq. exfalso. apply Hne. rewrite <- Heq.
  apply firstn_all2. cbn [encrypt tag]. rewrite fromHex_toHex.
  rewrite (gcmTag_length rt laws). apply Nat.le_refl.
Qed.

(** C2, on the code: take the record that [storeKeys] wrote and overwrite
    the last character of its [tag] field with any character that is no
    hexadecimal digit. The record differs from the stored one in that one byte
    of the tag only, and [loadKeys] with the original password still returns
    the bundle: [Buffer.from] cuts the tag to 15 bytes, a length [setAuthTag]
    accepts, and 15 bytes are all that is compared. *)
Theorem tampered_tag_unlocks : forall keys P saltBytes ivBytes c,
  List.length ivBytes = 16%nat ->
  Hex.digitValue c = None ->
  let record := encrypt rt keys P saltBytes ivBytes in
  tag (tamperTag c record) <> tag record
  /\ String.length (tag (tamperTag c record)) = String.length (tag record)
  /\ (forall k, (k < 31)%nat -> get k (tag (tamperTag c record)) = get k (tag record))
  /\ salt (tamperTag c record) = salt record
  /\ iv (tamperTag c record) = iv record
  /\ encrypted (tamperTag c record) = encrypted record
  /\ loadKeys rt P (Some (tamperTag c record)) = inr (KeysObject keys).
Proof.
  intros keys P saltBytes ivBytes c Hiv Hc. cbv zeta.
  set (key := deriveKey rt P saltBytes).
  set (ciphertext := gcmCrypt rt key ivBytes (list_ascii_of_string (jsonStringify rt keys))).
  set (t := gcmTag rt key ivBytes saltBytes ciphertext).
  assert (Ht : List.length t = 16%nat) by apply (gcmTag_length rt laws).
  assert (Hrec : encrypt rt keys P saltBytes ivBytes
                 = mkData (toHex saltBytes) (toHex ivBytes) (toHex ciphertext) (toHex t))
    by reflexivity.
  rewrite Hrec. unfold tamperTag. cbn [salt iv encrypted tag].
  assert (Hdec : fromHex (replaceLast c (toHex t)) = firstn 15 t)
    by now apply fromHex_tampered.
  split.
  { intros Heq. rewrite Heq, fromHex_toHex in Hdec.
    assert (Hl : List.length t = List.length (firstn 15 t)) by congruence.
    rewrite length_firstn in Hl. lia. }
  destruct (exists_last (l := t)) as (front & lastByte & Hsplit);
    [intros E; rewrite E in Ht; discriminate|].
  assert (Hfront : List.length front = 15%nat).
  { rewrite Hsplit, length_app in Ht. simpl in Ht. lia. }
  assert (Hhex : forall b, String.length (toHex b) = (2 * List.length b)%nat).
  { induction b as [|x b IH]; simpl; [reflexivity|]. rewrite IH. lia. }
  assert (Hshape : replaceLast c (toHex t)
                   = (toHex front
                      ++ String (hexChar (nat_of_ascii lastByte / 16))
                           (String c EmptyString))%string).
  { rewrite Hsplit, toHex_app. cbn [toHex]. apply replaceLast_pair. }
  assert (Horig : toHex t
                  = (toHex front
                     ++ String (hexChar (nat_of_ascii lastByte / 16))
                          (String (hexChar (nat_of_ascii lastByte mod 16)) EmptyString))%string).
  { rewrite Hsplit, toHex_app. reflexivity. }
  split.
  { assert (Happ : forall s u, String.length (s ++ u)
                               = (String.length s + String.length u)%nat).
    { induction s as [|x s IH]; intros u; simpl; [reflexivity|]. now rewrite IH. }
    rewrite Hshape, Horig, !Happ. reflexivity. }
  split.
  { intros k Hk. rewrite Hshape, Horig.
    assert (Hget : forall s a b n, (n < S (String.length s))%nat ->
              get n (s ++ String a (String b EmptyString))
              = get n (s ++ String a EmptyString)).
    { induction s as [|x s IH]; intros a b [|n] Hn; simpl in *; try reflexivity.
      - lia.
      - apply IH. lia. }
    rewrite !Hget; [reflexivity | rewrite Hhex; lia | rewrite Hhex; lia]. }
  repeat split.
  unfold loadKeys, decrypt. cbn [salt iv encrypted tag].
  rewrite Hdec, !fromHex_toHex.
  rewrite Hiv. cbn [Nat.eqb].
  rewrite length_firstn, Ht. cbn [Nat.min isValidGcmTagLength Nat.eqb Nat.leb orb andb negb].
  fold key. fold ciphertext. fold t.
  replace (bufferEqb (firstn 15 t) (firstn 15 t)) with true
    by (symmetry; now apply bufferEqb_eq).
  unfold ciphertext. rewrite (gcmCrypt_involutive rt laws), (utf8_round_trip rt laws),
    (json_round_trip rt laws). reflexivity.
Qed.

End VaultProperties.


(** ** A small runtime, to run the vault on

    The laws are satisfiable: a runtime whose cipher is the identity, whose tag
    is the first 16 bytes of the key, and whose JSON is a self-delimiting
    encoding of the five fields. *)

Fixpoint encodeField (s : string) : string :=
  match s with
  | EmptyString => "0"
  | String c s' => String "1" (String c (encodeField s'))
  end.

Fixpoint decodeField (input : string) : option (string * string) :=
  match input with
  | String "0" rest => Some (EmptyString, rest)
  | String "1" (String c rest) =>
      match decodeField rest with
      | Some (s, rest') => Some (String c s, rest')
      | None => None
      end
  | _ => None
  end.

Definition toyStringify (k : EncryptedKeys) : string :=
  (encodeField (privateKey k) ++ encodeField (funderAddress k)
   ++ encodeField (apiKey k) ++ encodeField (apiSecret k)
   ++ encodeField (apiPassphrase k))%string.

Definition toyParse (text : string) : option Json :=
  match decodeField text with
  | Some (a, r1) =>
    match decodeField r1 with
    | Some (b, r2) =>
      match decodeField r2 with
      | Some (c, r3) =>
        match decodeField r3 with
        | Some (d, r4) =>
          match decodeField r4 with
          | Some (e, EmptyString) => Some (KeysObject (mkKeys a b c d e))
          | _ => None
          end
        | None => None
        end
      | None => None
      end
    | None => None
    end
  | None => None
  end.

Definition toyRuntime : Runtime :=
  mkRuntime (fun _ => repeat zero 32)
            (fun block _ _ keylen => firstn keylen block)
            (fun _ _ data => data)
            (fun key _ _ _ => firstn 16 (key ++ repeat zero 16))
            toyStringify
            toyParse
            string_of_list_ascii.

Lemma decodeField_encodeField : forall s rest,
  decodeField (encodeField s ++ rest) = Some (s, rest).
Proof.
  induction s as [|c s IH]; intros rest; simpl; [reflexivity|]. now rewrite IH.
Qed.

Lemma decodeField_encodeField_end : forall s,
  decodeField (encodeField s) = Some (s, EmptyString).
Proof.
  induction s as [|c s IH]; simpl; [reflexivity|]. now rewrite IH.
Qed.

Lemma toyRuntime_lawful : Lawful toyRuntime.
Proof.
  constructor.
  - intros key iv data. reflexivity.
  - intros key iv aad data. cbn [toyRuntime gcmTag].
    rewrite length_firstn, length_app, repeat_length. lia.
  - intros [a b c d e]. cbn [toyRuntime jsonParse jsonStringify].
    unfold toyParse, toyStringify.
    cbn [privateKey funderAddress apiKey apiSecret apiPassphrase].
    rewrite !decodeField_encodeField, decodeField_encodeField_end. reflexivity.
  - intros keys. cbn [toyRuntime utf8Decode jsonStringify].
    apply string_of_list_ascii_of_string.
Qed.

Definition sampleKeys : EncryptedKeys :=
  mkKeys "0x11" "0x22" "key" "secret" "pass phrase".

Definition sampleSalt : Buffer := repeat "s"%char 32.
Definition sampleIv : Buffer := repeat "i"%char 16.

Example vault_sample_opens :
  loadKeys toyRuntime "correct horse"
           (storeKeys toyRuntime sampleKeys "correct horse" sampleSalt sampleIv None)
  = inr (KeysObject sampleKeys).
Proof. reflexivity. Qed.

Example vault_sample_refuses :
  loadKeys toyRuntime "wrong horse"
           (storeKeys toyRuntime sampleKeys "correct horse" sampleSalt sampleIv None)
  = inl DecryptionError.
Proof. reflexivity. Qed.

Example vault_sample_missing : loadKeys toyRuntime "correct horse" None = inl KeyFileNotFound.
Proof. reflexivity. Qed.

(** A tag that lost its last byte and a half is refused before the [try]. *)
Example vault_sample_short_tag :
  loadKeys toyRuntime "correct horse"
    (Some (mkData "00" "00" "00" "0102030405060708090a0b"))
  = inl (InvalidAuthTagLength 11)
  /\ loadKeys toyRuntime "correct horse"
       (Some (mkData "00" "zz" "00" "0102030405060708090a0b0c0d0e0f10"))
     = inl InvalidIv.
Proof. split; reflexivity. Qed.

Lemma tampered_tag_unlocks_witness :
  Lawful toyRuntime
  /\ List.length sampleIv = 16%nat
  /\ Hex.digitValue "g"%char = None
  /\ loadKeys toyRuntime "correct horse"
              (Some (tamperTag "g"%char
                       (encrypt toyRuntime sampleKeys "correct horse"
                          sampleSalt sampleIv)))
     = inr (KeysObject sampleKeys).
Proof.
  split; [exact toyRuntime_lawful|]. split; [reflexivity|]. split; [reflexivity|].
  apply (tampered_tag_unlocks toyRuntime toyRuntime_lawful sampleKeys "correct horse"
           sampleSalt sampleIv "g"%char eq_refl eq_refl).
Defined.

Lemma changed_tag_bytes_refused_witness :
  Lawful toyRuntime
  /\ List.length sampleIv = 16%nat
  /\ loadKeys toyRuntime "correct horse"
       (Some (mkData (toHex sampleSalt) (toHex sampleIv)
                (encrypted (encrypt toyRuntime sampleKeys "correct horse"
                              sampleSalt sampleIv))
                "636f727265637420686f727365000001"))
     = inl DecryptionError.
Proof.
  split; [exact toyRuntime_lawful|]. split; [reflexivity|].
  apply (changed_tag_bytes_refused toyRuntime toyRuntime_lawful sampleKeys "correct horse"
           sampleSalt sampleIv "636f727265637420686f727365000001" eq_refl eq_refl).
  discriminate.
Defined.

(** The stored tag and the tampered one, in the small runtime. *)
Example vault_sample_tags :
  tag (encrypt toyRuntime sampleKeys "correct horse" sampleSalt sampleIv)
  = "636f727265637420686f727365000000"
  /\ tag (tamperTag "g"%char
            (encrypt toyRuntime sampleKeys "correct horse" sampleSalt sampleIv))
     = "636f727265637420686f72736500000g".
Proof. split; reflexivity. Qed.

(** ** Opening a vault with another password

    That a vault refuses a wrong password is not a fact of [keyManager.ts]
    alone: the code compares a tag and parses a text, and it is the cipher that
    makes a wrong key fail one of the two. What is assumed of the cipher is
    said here and is a hypothesis of nothing else. *)



(** A string of [n] zero bytes. *)
Definition zeroBytes (n : nat) : string := string_of_list_ascii (repeat zero n).





Section WrongPassword.

Variable rt : Runtime.
Hypothesis laws : Lawful rt.



End WrongPassword.
(** ** A runtime that authenticates

    The assumption is satisfiable together with the laws: a runtime whose
    keys have 32 bytes, the first 16 of which are the tag and the last 16 a
    pad that is combined by exclusive or with the first 16 bytes of the data,
    and whose JSON texts start with a fixed line of 16 characters. Another key
    changes the tag or breaks that line. *)

Definition xorByte (a b : ascii) : ascii :=
  match a, b with
  | Ascii a0 a1 a2 a3 a4 a5 a6 a7, Ascii b0 b1 b2 b3 b4 b5 b6 b7 =>
      Ascii (xorb a0 b0) (xorb a1 b1) (xorb a2 b2) (xorb a3 b3)
            (xorb a4 b4) (xorb a5 b5) (xorb a6 b6) (xorb a7 b7)
  end.

Fixpoint xorPrefix (pad data : Buffer) : Buffer :=
  match pad, data with
  | p :: pad', d :: data' => xorByte d p :: xorPrefix pad' data'
  | _, _ => data
  end.

Definition headerLine : string := "{{{{{{{{{{{{{{{{".

Fixpoint dropHeader (n : nat) (text : string) : option string :=
  match n with
  | O => Some text
  | S n' =>
      match text with
      | String c rest => if Ascii.eqb c "{" then dropHeader n' rest else None
      | EmptyString => None
      end
  end.

Definition sealedStringify (k : EncryptedKeys) : string :=
  (headerLine ++ toyStringify k)%string.

Definition sealedParse (text : string) : option Json :=
  match dropHeader 16 text with
  | Some body => toyParse body
  | None => None
  end.

Definition sealedRuntime : Runtime :=
  mkRuntime (fun _ => repeat zero 32)
            (fun block _ _ keylen => firstn keylen (block ++ repeat zero keylen))
            (fun key _ data => xorPrefix (skipn 16 key) data)
            (fun key _ _ _ => firstn 16 (key ++ repeat zero 16))
            sealedStringify
            sealedParse
            string_of_list_ascii.









(** On that runtime: a password that shares the tag half of the key and
    differs in the pad is refused by the parse, one that differs in the tag
    half is refused by the tag, and the password followed by a zero byte
    opens the vault. *)
Example vault_sealed_samples :
  let file := storeKeys sealedRuntime sampleKeys "correct horse battery staple"
                sampleSalt sampleIv None in
  loadKeys sealedRuntime "correct horse battery staple" file = inr (KeysObject sampleKeys)
  /\ loadKeys sealedRuntime "correct horse battery stable" file = inl DecryptionError
  /\ loadKeys sealedRuntime "Correct horse battery staple" file = inl DecryptionError
  /\ loadKeys sealedRuntime ("correct horse battery staple" ++ zeroBytes 1) file
     = inr (KeysObject sampleKeys).
Proof. repeat split. Qed.

(** The laws alone do not make a vault refuse anything: the small runtime
    above, whose cipher is the identity and whose tag reads 16 bytes of the key,
    is lawful and opens the vault for a password that differs from the 26th
    byte on. The cipher there has no pad that the other key would get wrong. *)
Example vault_unauthenticated_opens :
  loadKeys toyRuntime "correct horse battery stable"
    (storeKeys toyRuntime sampleKeys "correct horse battery staple" sampleSalt sampleIv None)
  = inr (KeysObject sampleKeys)
  /\ deriveKey toyRuntime "correct horse battery stable" sampleSalt
     <> deriveKey toyRuntime "correct horse battery staple" sampleSalt.
Proof. split; [reflexivity | intros H; vm_compute in H; discriminate]. Qed.


(** ** The setup wizard and [getKeys] *)

(** What the user types at the seven prompts of [setupWizard], in their
    order. *)
Record Answers : Type := mkAnswers {
  enteredPrivateKey : string;
  enteredFunderAddress : string;
  enteredApiKey : string;
  enteredApiSecret : string;
  enteredApiPassphrase : string;
  enteredPassword : string;
  enteredConfirmation : string
}.

(** What [setupWizard] throws. *)
Inductive WizardError : Type :=
| PasswordsDoNotMatch            (* 'Passwords do not match' *)
| PasswordTooShort.              (* 'Password must be at least 8 characters long' *)

Section Wizard.

Variable rt : Runtime.

(** [s.trim()] and [s.length] of a JavaScript string. Nothing is assumed of
    them. *)
Variable trim : string -> string.
Variable codeUnits : string -> nat.

(** The bundle the wizard builds from the answers. *)
Definition keysOf (a : Answers) : EncryptedKeys :=
  mkKeys (trim (enteredPrivateKey a)) (trim (enteredFunderAddress a))
         (trim (enteredApiKey a)) (trim (enteredApiSecret a))
         (trim (enteredApiPassphrase a)).

(** [setupWizard()]: the value it returns or the error it throws, and the
    key file it leaves. [saltBytes] and [ivBytes] are the random bytes of the
    [encrypt] inside [storeKeys]. *)
Definition setupWizard (a : Answers) (saltBytes ivBytes : Buffer) (file : KeyFile)
  : (WizardError + EncryptedKeys) * KeyFile :=
  if negb (enteredPassword a =? enteredConfirmation a)%string
  then (inl PasswordsDoNotMatch, file)
  else if (codeUnits (enteredPassword a) <? 8)%nat
  then (inl PasswordTooShort, file)
  else (inr (keysOf a), storeKeys rt (keysOf a) (enteredPassword a) saltBytes ivBytes file).

(** [getKeys(password)]: [if (!password)] asks for the password, and [typed]
    is the answer; otherwise the argument is used. *)
Definition getKeys (password : option string) (typed : string) (file : KeyFile)
  : VaultError + Json :=
  match password with
  | Some given => if (given =? "")%string then loadKeys rt typed file
                  else loadKeys rt given file
  | None => loadKeys rt typed file
  end.

Hypothesis laws : Lawful rt.

(** The wizard, from the answers to the key file.
    - It throws for two passwords that differ, and otherwise for a password
      of fewer than 8 code units, in that order; in both cases the key file is
      left as it was, present or not.
    - Otherwise it writes the file, whatever was there, and returns the five
      secrets, each trimmed; the password is taken as typed.
    - What it has written opens again: [loadKeys], and [getKeys] whether the
      password is passed or typed at the prompt, return the bundle the wizard
      returned. *)
Theorem setupWizard_spec : forall a saltBytes ivBytes file,
  List.length ivBytes = 16%nat ->
  (enteredPassword a <> enteredConfirmation a ->
     setupWizard a saltBytes ivBytes file = (inl PasswordsDoNotMatch, file))
  /\ (enteredPassword a = enteredConfirmation a ->
      (codeUnits (enteredPassword a) < 8)%nat ->
      setupWizard a saltBytes ivBytes file = (inl PasswordTooShort, file))
  /\ (enteredPassword a = enteredConfirmation a ->
      (8 <= codeUnits (enteredPassword a))%nat ->
      let file' := snd (setupWizard a saltBytes ivBytes file) in
      fst (setupWizard a saltBytes ivBytes file) = inr (keysOf a)
      /\ isSetup file' = true
      /\ loadKeys rt (enteredPassword a) file' = inr (KeysObject (keysOf a))
      /\ getKeys (Some (enteredPassword a)) (enteredPassword a) file'
         = inr (KeysObject (keysOf a))
      /\ (forall envPassword,
            envPassword = None \/ envPassword = Some "" ->
            getKeys envPassword (enteredPassword a) file' = inr (KeysObject (keysOf a)))).
Proof.
  intros a saltBytes ivBytes file Hiv. unfold setupWizard.
  split; [|split].
  - intros Hne. apply String.eqb_neq in Hne. now rewrite Hne.
  - intros Heq Hshort. apply String.eqb_eq in Heq. rewrite Heq. cbn [negb].
    apply Nat.ltb_lt in Hshort. now rewrite Hshort.
  - intros Heq Hlong. apply String.eqb_eq in Heq. rewrite Heq. cbn [negb].
    apply Nat.ltb_ge in Hlong. rewrite Hlong. cbn [fst snd].
    assert (Hload : loadKeys rt (enteredPassword a)
                      (storeKeys rt (keysOf a) (enteredPassword a) saltBytes ivBytes file)
                    = inr (KeysObject (keysOf a))).
    { unfold loadKeys, storeKeys. now apply decrypt_encrypt_same_key. }
    split; [reflexivity|]. split; [reflexivity|]. split; [exact Hload|].
    split.
    + unfold getKeys. destruct (enteredPassword a =? "")%string; exact Hload.
    + intros envPassword [->| ->]; exact Hload.
Qed.

End Wizard.

(** The wizard on the small runtime: a confirmation that differs leaves the
    file alone; matching passwords store the trimmed secrets. *)
Definition sampleAnswers (confirmation : string) : Answers :=
  mkAnswers " 0xkey " "0xfunder" "k" "s" "p" "correct horse" confirmation.

(** A [trim] for the samples: it drops the blanks at both ends. *)
Fixpoint dropBlanks (s : string) : string :=
  match s with
  | String " " rest => dropBlanks rest
  | _ => s
  end.

Fixpoint reverse (acc s : string) : string :=
  match s with
  | EmptyString => acc
  | String c rest => reverse (String c acc) rest
  end.

Definition sampleTrim (s : string) : string :=
  reverse "" (dropBlanks (reverse "" (dropBlanks s))).

Example setupWizard_mismatch :
  setupWizard toyRuntime sampleTrim String.length (sampleAnswers "correct hors")
    sampleSalt sampleIv None
  = (inl PasswordsDoNotMatch, None).
Proof. reflexivity. Qed.

Lemma setupWizard_spec_witness :
  Lawful toyRuntime
  /\ List.length sampleIv = 16%nat
  /\ (8 <= String.length "correct horse")%nat
  /\ loadKeys toyRuntime "correct horse"
       (snd (setupWizard toyRuntime sampleTrim String.length (sampleAnswers "correct horse")
               sampleSalt sampleIv None))
     = inr (KeysObject (mkKeys "0xkey" "0xfunder" "k" "s" "p")).
Proof.
  split; [exact toyRuntime_lawful|]. split; [reflexivity|]. split; [simpl; lia|].
  apply (proj2 (proj2 (setupWizard_spec toyRuntime sampleTrim String.length
                         toyRuntime_lawful (sampleAnswers "correct horse")
                         sampleSalt sampleIv None eq_refl)) eq_refl).
  simpl. lia.
Defined.

End Vault.

(* ===================================================================== *)
(** * Logger ([src/utils.ts], [utils.js]) *)
(* ===================================================================== *)

Module Logger.

(** [LogLevel] of [types.ts]: the levels the four methods pass. *)
Inductive LogLevel : Type := ERROR | WARN | INFO | DEBUG.

(** [LOG_LEVELS]. *)
Definition LOG_LEVELS (level : LogLevel) : Z :=
  match level with
  | ERROR => 0
  | WARN => 1
  | INFO => 2
  | DEBUG => 3
  end.

(** The level a string names: the keys of [LOG_LEVELS], in capitals. *)
Definition levelOfName (name : string) : option LogLevel :=
  if (name =? "ERROR")%string then Some ERROR
  else if (name =? "WARN")%string then Some WARN
  else if (name =? "INFO")%string then Some INFO
  else if (name =? "DEBUG")%string then Some DEBUG
  else None.

(** [shouldLog(level)]: [LOG_LEVELS[level] <= LOG_LEVELS[this.level]].
    [this.level] is the string the constructor was given, [CONFIG.logging.level]
    for the global logger, which is a cast of an environment variable; for a
    string that is no key of [LOG_LEVELS] the right-hand side is no number and
    the comparison is false. *)
Definition shouldLog (thisLevel : string) (level : LogLevel) : bool :=
  match levelOfName thisLevel with
  | Some threshold => LOG_LEVELS level <=? LOG_LEVELS threshold
  | None => false
  end.

(** Where a method writes. *)
Inductive Console : Type := ConsoleError | ConsoleWarn | ConsoleLog.

Definition consoleOf (level : LogLevel) : Console :=
  match level with
  | ERROR => ConsoleError
  | WARN => ConsoleWarn
  | INFO => ConsoleLog
  | DEBUG => ConsoleLog
  end.

(** [error], [warn], [info] and [debug]: the formatted line goes to the
    method's console when [shouldLog] allows it; [formatted] stands for
    [this.formatMessage(level, message, data)]. *)
Definition log (thisLevel : string) (level : LogLevel) (formatted : string)
  : list (Console * string) :=
  if shouldLog thisLevel level then [(consoleOf level, formatted)] else [].

(** [(process.env['LOG_LEVEL'] || 'INFO') as LogLevel] of [config.ts]. *)
Definition configuredLevel (envLogLevel : option string) : string :=
  match envLogLevel with
  | Some name => if (name =? "")%string then "INFO" else name
  | None => "INFO"
  end.

(** ** Properties *)

(** The levels are nested. Under a threshold that names a level, a message is
    written exactly when its level is at most as verbose as the threshold, so
    errors are always written and whatever is written under one threshold is
    written under every more verbose one. Under any other threshold, such as
    the lowercase [debug], nothing is written, errors included. With no
    [LOG_LEVEL] in the environment, or an empty one, everything but [debug]
    messages is written. *)
Theorem shouldLog_levels :
  (forall name threshold level,
     levelOfName name = Some threshold ->
     (shouldLog name level = true <-> LOG_LEVELS level <= LOG_LEVELS threshold)
     /\ shouldLog name ERROR = true)
  /\ (forall name name' t t' level,
        levelOfName name = Some t -> levelOfName name' = Some t' ->
        LOG_LEVELS t <= LOG_LEVELS t' ->
        shouldLog name level = true -> shouldLog name' level = true)
  /\ (forall name level formatted,
        levelOfName name = None ->
        shouldLog name level = false /\ log name level formatted = [])
  /\ levelOfName "debug" = None
  /\ (forall envLogLevel level,
        envLogLevel = None \/ envLogLevel = Some "" ->
        (shouldLog (configuredLevel envLogLevel) level = true <-> level <> DEBUG)).
Proof.
  split; [|split; [|split; [|split]]].
  - intros name threshold level Hname. unfold shouldLog. rewrite Hname. split.
    + apply Z.leb_le.
    + apply Z.leb_le. destruct threshold; simpl; lia.
  - intros name name' t t' level Hn Hn' Hle. unfold shouldLog. rewrite Hn, Hn'.
    intros H. apply Z.leb_le in H. apply Z.leb_le. lia.
  - intros name level formatted Hname. unfold log, shouldLog. rewrite Hname. split; reflexivity.
  - reflexivity.
  - intros envLogLevel level [->| ->]; destruct level; simpl;
      split; intros H; try reflexivity; try discriminate; try congruence.
Qed.

End Logger.

(* ===================================================================== *)
(** * Configuration ([src/config.ts]) *)
(* ===================================================================== *)

Module Config.

(** The entries of [CONFIG] that [validateConfig] reads or
    [loadEnvironmentOverrides] writes. [contracts] keeps the order of the
    object's keys, which is the order [Object.entries] visits. *)
Record t : Type := mk {
  relayerUrl : string;
  dataApiUrl : string;
  rpcUrl : string;
  requestsPerMinute : Z;
  contracts : list (string * string);
  loggingLevel : string;
  maxConcurrentRedemptions : Z
}.

(** [CONFIG] as the module initialises it; [envLogLevel] is
    [process.env['LOG_LEVEL']] at that moment. *)
Definition CONFIG (envLogLevel : option string) : t :=
  mk "https://relayer-v2.polymarket.com"
     "https://data-api.polymarket.com"
     "https://polygon-bor-rpc.publicnode.com"
     30
     [ ("ctf", Transactions.ctf);
       ("usdc", Transactions.usdc);
       ("negRiskAdapter", Transactions.negRiskAdapter) ]
     (Logger.configuredLevel envLogLevel)
     3.

(** What [validateConfig] throws. *)
Inductive ConfigError : Type :=
| InvalidContractAddress (name address : string)
| RelayerUrlNotHttps
| DataApiUrlNotHttps
| RequestsPerMinuteNotPositive.

(** [validateConfig()]: [None] when it returns. *)
Definition validateConfig (c : t) : option ConfigError :=
  match find (fun entry => negb (Validators.isValidAddress (snd entry))) (contracts c) with
  | Some (name, address) => Some (InvalidContractAddress name address)
  | None =>
      if negb (String.prefix "https://" (relayerUrl c)) then Some RelayerUrlNotHttps
      else if negb (String.prefix "https://" (dataApiUrl c)) then Some DataApiUrlNotHttps
      else if requestsPerMinute c <=? 0 then Some RequestsPerMinuteNotPositive
      else None
  end.

(** The three variables [loadEnvironmentOverrides] reads; [None] is a
    variable that is not set. *)
Record Env : Type := mkEnv {
  RPC_URL : option string;
  LOG_LEVEL : option string;
  MAX_CONCURRENT_REDEMPTIONS : option string
}.

(** A string in a condition. *)
Definition nonEmpty (s : option string) : option string :=
  match s with
  | Some text => if (text =? "")%string then None else Some text
  | None => None
  end.

Section Overrides.

(** [parseInt(text, 10)]: the integer that the leading digits of [text]
    write, sign included, or [None] for [NaN]. Nothing is assumed of it. *)
Variable parseInt : string -> option Z.

(** [loadEnvironmentOverrides()]. *)
Definition loadEnvironmentOverrides (env : Env) (c : t) : t :=
  let c1 :=
    match nonEmpty (RPC_URL env) with
    | Some url =>
        mk (relayerUrl c) (dataApiUrl c) url (requestsPerMinute c) (contracts c)
           (loggingLevel c) (maxConcurrentRedemptions c)
    | None => c
    end in
  let c2 :=
    match nonEmpty (LOG_LEVEL env) with
    | Some level =>
        if existsb (String.eqb level) ["ERROR"; "WARN"; "INFO"; "DEBUG"]
        then mk (relayerUrl c1) (dataApiUrl c1) (rpcUrl c1) (requestsPerMinute c1)
                (contracts c1) level (maxConcurrentRedemptions c1)
        else c1
    | None => c1
    end in
  match nonEmpty (MAX_CONCURRENT_REDEMPTIONS env) with
  | Some text =>
      match parseInt text with
      | Some parsed =>
          if parsed >? 0
          then mk (relayerUrl c2) (dataApiUrl c2) (rpcUrl c2) (requestsPerMinute c2)
                  (contracts c2) (loggingLevel c2) parsed
          else c2
      | None => c2
      end
  | None => c2
  end.

(** The configuration the program runs with: the module's initial value, then
    the overrides, both reading the same environment. *)
Definition effective (env : Env) : t :=
  loadEnvironmentOverrides env (CONFIG (LOG_LEVEL env)).

(** ** Properties *)

Lemma overrides_keep_validated : forall env c,
  relayerUrl (loadEnvironmentOverrides env c) = relayerUrl c
  /\ dataApiUrl (loadEnvironmentOverrides env c) = dataApiUrl c
  /\ requestsPerMinute (loadEnvironmentOverrides env c) = requestsPerMinute c
  /\ contracts (loadEnvironmentOverrides env c) = contracts c.
Proof.
  intros env c. unfold loadEnvironmentOverrides.
  destruct (nonEmpty (RPC_URL env)); destruct (nonEmpty (LOG_LEVEL env)) as [level|];
    try destruct (existsb (String.eqb level) _);
    destruct (nonEmpty (MAX_CONCURRENT_REDEMPTIONS env)) as [text|];
    try destruct (parseInt text) as [parsed|]; try destruct (parsed >? 0);
    repeat split.
Qed.

Lemma overrides_limit : forall env c,
  maxConcurrentRedemptions (loadEnvironmentOverrides env c) = maxConcurrentRedemptions c
  \/ 0 < maxConcurrentRedemptions (loadEnvironmentOverrides env c).
Proof.
  intros env c. unfold loadEnvironmentOverrides.
  destruct (nonEmpty (RPC_URL env)); destruct (nonEmpty (LOG_LEVEL env)) as [level|];
    try destruct (existsb (String.eqb level) _);
    destruct (nonEmpty (MAX_CONCURRENT_REDEMPTIONS env)) as [text|];
    try destruct (parseInt text) as [parsed|];
    try destruct (Z.gtb_spec parsed 0);
    cbn [maxConcurrentRedemptions]; auto.
Qed.

Lemma included_names : forall level,
  existsb (String.eqb level) ["ERROR"; "WARN"; "INFO"; "DEBUG"] = true ->
  Logger.levelOfName level <> None.
Proof.
  intros level H. unfold Logger.levelOfName. cbn [existsb] in H.
  destruct (level =? "ERROR")%string; [discriminate|].
  destruct (level =? "WARN")%string; [discriminate|].
  destruct (level =? "INFO")%string; [discriminate|].
  destruct (level =? "DEBUG")%string; [discriminate|].
  discriminate.
Qed.

Lemma nonEmpty_spec : forall s text, nonEmpty s = Some text -> text <> "".
Proof.
  intros [s|] text; simpl; [|discriminate].
  destruct (String.eqb_spec s ""); [discriminate|]. intros H. injection H as <-. assumption.
Qed.

(** The environment cannot break the configuration. Whatever the three
    variables hold, [loadEnvironmentOverrides] leaves the verdict of
    [validateConfig] as it was, keeps a positive concurrency limit positive and
    a non-empty RPC URL non-empty, and sets no logging level outside the four
    names; the configuration as shipped passes [validateConfig]; so the
    program always runs with a configuration that passes it and with a
    concurrency limit of at least 1, which is 3 unless
    [MAX_CONCURRENT_REDEMPTIONS] parses to a positive integer; and its logging
    level is the one the module started with, [LOG_LEVEL] or ['INFO'], valid
    or not: the override of the level changes nothing. *)
Theorem environment_keeps_config_valid : forall env,
  (forall c,
     validateConfig (loadEnvironmentOverrides env c) = validateConfig c
     /\ (0 < maxConcurrentRedemptions c ->
         0 < maxConcurrentRedemptions (loadEnvironmentOverrides env c))
     /\ (rpcUrl c <> "" -> rpcUrl (loadEnvironmentOverrides env c) <> "")
     /\ (loggingLevel (loadEnvironmentOverrides env c) = loggingLevel c
         \/ Logger.levelOfName (loggingLevel (loadEnvironmentOverrides env c)) <> None))
  /\ validateConfig (effective env) = None
  /\ 1 <= maxConcurrentRedemptions (effective env)
  /\ (maxConcurrentRedemptions (effective env) = 3
      \/ exists text, nonEmpty (MAX_CONCURRENT_REDEMPTIONS env) = Some text
                      /\ parseInt text = Some (maxConcurrentRedemptions (effective env)))
  /\ loggingLevel (effective env) = Logger.configuredLevel (LOG_LEVEL env).
Proof.
  intros env.
  assert (Hgen : forall c,
     validateConfig (loadEnvironmentOverrides env c) = validateConfig c
     /\ (0 < maxConcurrentRedemptions c ->
         0 < maxConcurrentRedemptions (loadEnvironmentOverrides env c))
     /\ (rpcUrl c <> "" -> rpcUrl (loadEnvironmentOverrides env c) <> "")
     /\ (loggingLevel (loadEnvironmentOverrides env c) = loggingLevel c
         \/ Logger.levelOfName (loggingLevel (loadEnvironmentOverrides env c)) <> None)).
  { intros c. split; [|split; [|split]].
    - destruct (overrides_keep_validated env c) as (H1 & H2 & H3 & H4).
      unfold validateConfig. rewrite H1, H2, H3, H4. reflexivity.
    - intros Hpos. destruct (overrides_limit env c) as [->|H]; assumption.
    - intros Hne. unfold loadEnvironmentOverrides.
      destruct (nonEmpty (RPC_URL env)) as [url|] eqn:Hurl;
        [apply nonEmpty_spec in Hurl|];
        destruct (nonEmpty (LOG_LEVEL env)) as [level|];
        try destruct (existsb (String.eqb level) _);
        destruct (nonEmpty (MAX_CONCURRENT_REDEMPTIONS env)) as [text|];
        try destruct (parseInt text) as [parsed|]; try destruct (parsed >? 0);
        cbn [rpcUrl]; assumption.
    - unfold loadEnvironmentOverrides.
      destruct (nonEmpty (RPC_URL env)) as [url|];
        destruct (nonEmpty (LOG_LEVEL env)) as [level|];
        try destruct (existsb (String.eqb level) _) eqn:Hlevel;
        destruct (nonEmpty (MAX_CONCURRENT_REDEMPTIONS env)) as [text|];
        try destruct (parseInt text) as [parsed|]; try destruct (parsed >? 0);
        cbn [loggingLevel]; auto;
        right; now apply included_names. }
  split; [exact Hgen|].
  unfold effective.
  destruct (Hgen (CONFIG (LOG_LEVEL env))) as (Hv & Hpos & _).
  split; [rewrite Hv; reflexivity|].
  split; [|split].
  - assert (0 < maxConcurrentRedemptions
                  (loadEnvironmentOverrides env (CONFIG (LOG_LEVEL env)))).
    { apply Hpos. reflexivity. }
    lia.
  - unfold loadEnvironmentOverrides.
    destruct (nonEmpty (RPC_URL env)) as [url|];
      destruct (nonEmpty (LOG_LEVEL env)) as [level|];
      try destruct (existsb (String.eqb level) _);
      destruct (nonEmpty (MAX_CONCURRENT_REDEMPTIONS env)) as [text|];
      try destruct (parseInt text) as [parsed|] eqn:Hparse; try destruct (parsed >? 0);
      cbn [maxConcurrentRedemptions CONFIG]; auto;
      right; exists text; auto.
  - assert (Hlevel : forall level, nonEmpty (LOG_LEVEL env) = Some level ->
                       Logger.configuredLevel (LOG_LEVEL env) = level).
    { intros level. unfold nonEmpty, Logger.configuredLevel.
      destruct (LOG_LEVEL env) as [name|]; [|discriminate].
      destruct (name =? "")%string; [discriminate|]. congruence. }
    unfold loadEnvironmentOverrides.
    destruct (nonEmpty (RPC_URL env)) as [url|];
      destruct (nonEmpty (LOG_LEVEL env)) as [level|] eqn:Hl;
      try destruct (existsb (String.eqb level) _);
      destruct (nonEmpty (MAX_CONCURRENT_REDEMPTIONS env)) as [text|];
      try destruct (parseInt text) as [parsed|]; try destruct (parsed >? 0);
      cbn [loggingLevel CONFIG]; try reflexivity; symmetry; now apply Hlevel.
Qed.

End Overrides.

End Config.

(* ===================================================================== *)
(** * Transaction manager ([src/transactionManager.ts]) *)
(* ===================================================================== *)

Module TransactionManager.

(** [TransactionInfo]: the two properties the class reads, as in the result
    of [response.wait()]. *)
Definition TransactionInfo : Type := Orchestrator.TxResult.

(** What a call of the relayer client ends with. *)
Inductive Answer (A : Type) : Type :=
| Resolves (value : A)
| Rejects (e : Orchestrator.Thrown).
Arguments Resolves {A} value.
Arguments Rejects {A} e.

(** [error instanceof Error ? error.message : 'Unknown error']. *)
Definition errorMsg (e : Orchestrator.Thrown) : string :=
  if Orchestrator.isErrorInstance e then Orchestrator.message e else "Unknown error".

(** [tx.state === STATE]. *)
Definition inState (name : string) (tx : TransactionInfo) : bool :=
  match Orchestrator.state tx with
  | Some s => (s =? name)%string
  | None => false
  end.

(** [getTransactions()]: [result ?? []], and [[]] when the client rejects. *)
Definition getTransactions (answer : Answer (option (list TransactionInfo)))
  : list TransactionInfo :=
  match answer with
  | Resolves (Some result) => result
  | Resolves None => []
  | Rejects _ => []
  end.

(** [getFailedTransactions()] and [getSuccessfulTransactions()]. *)
Definition getFailedTransactions (answer : Answer (option (list TransactionInfo)))
  : list TransactionInfo :=
  filter (inState "STATE_FAILED") (getTransactions answer).

Definition getSuccessfulTransactions (answer : Answer (option (list TransactionInfo)))
  : list TransactionInfo :=
  filter (fun tx => inState "STATE_CONFIRMED" tx || inState "STATE_EXECUTED" tx)
         (getTransactions answer).

(** What [waitWithProgress] prints after its first line, by kind. *)
Inductive Report : Type :=
| ReportSuccess (hash url : string)        (* [SUCCESS!], [Tx: hash], [url] *)
| ReportFailedOnChain (hash url : string)  (* [FAILED ON-CHAIN!], [Tx: hash], [url] *)
| ReportNoHash                             (* [FAILED - no transaction hash returned] *)
| ReportError (message : string).          (* [ERROR - message] *)

(** [waitWithProgress(executeResponse)]; [answer] is what
    [executeResponse.wait()] ends with. *)
Definition waitWithProgress (answer : Answer (option TransactionInfo))
  : Report * option TransactionInfo :=
  match answer with
  | Resolves info =>
      (match info with
       | Some i =>
           match Orchestrator.transactionHash i with
           | Some hash =>
               if negb (hash =? "")%string then
                 let txUrl := ("https://polygonscan.com/tx/" ++ hash)%string in
                 if inState "STATE_FAILED" i
                 then ReportFailedOnChain hash txUrl
                 else ReportSuccess hash txUrl
               else ReportNoHash
           | None => ReportNoHash
           end
       | None => ReportNoHash
       end, info)
  | Rejects e => (ReportError (errorMsg e), None)
  end.

(** The result [main] would record for what [waitWithProgress] reports. *)
Definition resultOfReport (r : Report) : Orchestrator.RedemptionResult :=
  match r with
  | ReportSuccess hash url => Orchestrator.mkResult true (Some hash) (Some url) None
  | ReportFailedOnChain hash url => Orchestrator.mkResult false (Some hash) (Some url) None
  | ReportNoHash => Orchestrator.mkResult false None None (Some "No transaction hash")
  | ReportError message => Orchestrator.mkResult false None None (Some message)
  end.

(** ** Properties *)

(** [waitWithProgress] and the task of [main] read a relayer result alike:
    for whatever [wait()] resolves to, the report of the one is the result of
    the other, with the same hash, the same link and the same verdict, and the
    value is handed back unchanged; for a rejection both take the message by
    the same rule, the manager returning [null] where the task records a
    failure. *)
Theorem waitWithProgress_agrees_with_main :
  (forall info,
     resultOfReport (fst (waitWithProgress (Resolves info))) = Orchestrator.classify info
     /\ snd (waitWithProgress (Resolves info)) = info)
  /\ (forall e,
        resultOfReport (fst (waitWithProgress (Rejects e))) = Orchestrator.caught e
        /\ snd (waitWithProgress (Rejects e)) = None).
Proof.
  split.
  - intros [[[hash|] [st|]]|]; cbn [waitWithProgress fst snd Orchestrator.classify
      Orchestrator.transactionHash Orchestrator.state inState];
      try (split; reflexivity);
      destruct (hash =? "")%string; cbn [negb];
      try destruct (st =? "STATE_FAILED")%string; split; reflexivity.
  - intros e. split; reflexivity.
Qed.

Lemma inState_exclusive : forall a b tx,
  a <> b -> inState a tx = true -> inState b tx = false.
Proof.
  intros a b tx Hab. unfold inState. destruct (Orchestrator.state tx) as [s|]; [|discriminate].
  intros H. apply String.eqb_eq in H. subst s. apply String.eqb_neq. exact Hab.
Qed.

(** The two listings of one answer of the relayer. Each keeps the relayer's
    order and holds only transactions of the answer; a transaction is listed
    as failed exactly when its state is [STATE_FAILED] and as successful
    exactly when it is [STATE_CONFIRMED] or [STATE_EXECUTED], so none is in
    both, and a pending one, or one without a state, is in neither; when the
    relayer rejects, or answers [null], both are empty and nothing is
    thrown. *)
Theorem listings_partition : forall answer,
  (forall tx,
     In tx (getFailedTransactions answer)
     <-> In tx (getTransactions answer) /\ Orchestrator.state tx = Some "STATE_FAILED")
  /\ (forall tx,
        In tx (getSuccessfulTransactions answer)
        <-> In tx (getTransactions answer)
            /\ (Orchestrator.state tx = Some "STATE_CONFIRMED"
                \/ Orchestrator.state tx = Some "STATE_EXECUTED"))
  /\ (forall tx, In tx (getFailedTransactions answer) ->
                 ~ In tx (getSuccessfulTransactions answer))
  /\ (List.length (getFailedTransactions answer)
      + List.length (getSuccessfulTransactions answer)
      <= List.length (getTransactions answer))%nat
  /\ ((forall result, answer <> Resolves (Some result)) ->
      getFailedTransactions answer = [] /\ getSuccessfulTransactions answer = []).
Proof.
  intros answer.
  assert (Hstate : forall name tx,
            inState name tx = true <-> Orchestrator.state tx = Some name).
  { intros name tx. unfold inState. destruct (Orchestrator.state tx) as [s|].
    - rewrite String.eqb_eq. split; congruence.
    - split; discriminate. }
  split; [|split; [|split; [|split]]].
  - intros tx. unfold getFailedTransactions. rewrite filter_In, Hstate. reflexivity.
  - intros tx. unfold getSuccessfulTransactions.
    rewrite filter_In, orb_true_iff, !Hstate. reflexivity.
  - intros tx Hf Hs. unfold getFailedTransactions, getSuccessfulTransactions in *.
    apply filter_In in Hf as [_ Hf]. apply filter_In in Hs as [_ Hs].
    apply Hstate in Hf. apply orb_true_iff in Hs. rewrite !Hstate in Hs.
    destruct Hs as [Hs|Hs]; congruence.
  - unfold getFailedTransactions, getSuccessfulTransactions.
    induction (getTransactions answer) as [|tx l IH]; [simpl; lia|].
    cbn [filter].
    destruct (inState "STATE_FAILED" tx) eqn:Hf.
    + rewrite (inState_exclusive "STATE_FAILED" "STATE_CONFIRMED" tx) by (discriminate || assumption).
      rewrite (inState_exclusive "STATE_FAILED" "STATE_EXECUTED" tx) by (discriminate || assumption).
      simpl. lia.
    + destruct (inState "STATE_CONFIRMED" tx || inState "STATE_EXECUTED" tx); simpl; lia.
  - intros Hno. unfold getFailedTransactions, getSuccessfulTransactions.
    destruct answer as [[result|]|e]; [exfalso; now apply (Hno result)| | ]; split; reflexivity.
Qed.

End TransactionManager.

(* ===================================================================== *)
(** * Start of [main]: the modes and the keys ([src/redeem.ts]) *)
(* ===================================================================== *)

Module Startup.

(** [process.argv.includes('--check')], [('--setup')] and [('--reset')]. *)
Record Flags : Type := mkFlags {
  checkOnly : bool;
  setupMode : bool;
  resetMode : bool
}.

(** Why [main] calls [process.exit(1)] before it has the keys. *)
Inductive ExitReason : Type :=
| ResetSetupFailed (e : Vault.WizardError)     (* '[ERROR] Reset/Setup failed:' *)
| SetupFailed (e : Vault.WizardError)          (* '[ERROR] Setup failed:' *)
| KeysNotConfigured                            (* '[ERROR] Keys not configured.' *)
| FailedToLoadKeys (e : Vault.VaultError)      (* '[ERROR] Failed to load keys:' *)
| KeysMalformed                                (* the text held no key bundle *)
| InvalidPrivateKeyFormat                      (* '[ERROR] Invalid private key format' *)
| InvalidFunderAddressFormat.                  (* '[ERROR] Invalid funder address format' *)

(** How the first part of [main] ends: the process exits with 1, [main]
    returns the result of a set-up ([setup], and [reset] when it is set), or it
    goes on with the keys. *)
Inductive Started : Type :=
| Exits (reason : ExitReason)
| ReturnsSetup (setup : bool) (reset : bool)
| GoesOn (keys : Vault.EncryptedKeys).

Section Start.

Variable rt : Vault.Runtime.
Variable trim : string -> string.
Variable codeUnits : string -> nat.

Local Abbreviation setupWizard := (Vault.setupWizard rt trim codeUnits).
Local Abbreviation getKeys := (Vault.getKeys rt).

(** [main] down to the validation of the loaded keys. [answers] is what the
    user types if the wizard runs, [envPassword] is
    [process.env['REDEEM_PASSWORD']], [typed] what the user types if the
    password is asked for. A bundle that is no object of strings fails the
    first validator, or makes the property access throw; the process exits
    with 1 either way. *)
Definition start (flags : Flags) (answers : Vault.Answers)
    (envPassword : option string) (typed : string)
    (saltBytes ivBytes : Vault.Buffer) (file : Vault.KeyFile)
  : Started * Vault.KeyFile :=
  if resetMode flags then
    let '(_, file1) := Vault.reset file in
    match setupWizard answers saltBytes ivBytes file1 with
    | (inr _, file2) => (ReturnsSetup true true, file2)
    | (inl e, file2) => (Exits (ResetSetupFailed e), file2)
    end
  else if setupMode flags then
    if Vault.isSetup file then (ReturnsSetup false false, file)
    else
      match setupWizard answers saltBytes ivBytes file with
      | (inr _, file2) => (ReturnsSetup true false, file2)
      | (inl e, file2) => (Exits (SetupFailed e), file2)
      end
  else if negb (Vault.isSetup file) then (Exits KeysNotConfigured, file)
  else
    match getKeys envPassword typed file with
    | inl e => (Exits (FailedToLoadKeys e), file)
    | inr (Vault.OtherValue _) => (Exits KeysMalformed, file)
    | inr (Vault.KeysObject keys) =>
        if negb (Validators.isValidPrivateKey (Vault.privateKey keys))
        then (Exits InvalidPrivateKeyFormat, file)
        else if negb (Validators.isValidAddress (Vault.funderAddress keys))
        then (Exits InvalidFunderAddressFormat, file)
        else (GoesOn keys, file)
    end.

(** The exit code of a start that does not go on. *)
Definition exitCodeOf (s : Started) : option Z :=
  match s with
  | Exits _ => Some 1
  | ReturnsSetup setup _ =>
      Some (Orchestrator.exitCode (Some setup) false (Orchestrator.mkMainResult 0 0 None))
  | GoesOn _ => None
  end.

Hypothesis laws : Vault.Lawful rt.

(** The modes of the command line.
    - [--reset] goes before [--setup] and before everything else: the key file
      is deleted first, so when the wizard then throws, no key file is left,
      whatever was there, and the process exits with 1.
    - [--setup] on a configured vault changes nothing and ends with exit code
      1; on an empty one it runs the wizard.
    - Without either flag the key file is never written. [main] goes on only
      with keys that were loaded under the password and whose private key and
      funder address pass their validators; a missing file, a password that
      does not open it, and keys of the wrong format each end with exit
      code 1.
    - After a set-up that succeeded, a start with the same password goes on
      with the secrets as the wizard trimmed them exactly when the trimmed
      private key and funder address pass the validators. *)
Theorem start_modes : forall flags answers envPassword typed saltBytes ivBytes file,
  List.length ivBytes = 16%nat ->
  let run := start flags answers envPassword typed saltBytes ivBytes file in
  (resetMode flags = true ->
     (exists keys, setupWizard answers saltBytes ivBytes None = (inr keys, snd run)
                   /\ fst run = ReturnsSetup true true
                   /\ exitCodeOf (fst run) = Some 0)
     \/ (exists e, fst run = Exits (ResetSetupFailed e) /\ snd run = None))
  /\ (resetMode flags = false -> setupMode flags = true -> Vault.isSetup file = true ->
      run = (ReturnsSetup false false, file) /\ exitCodeOf (fst run) = Some 1)
  /\ (resetMode flags = false -> setupMode flags = false ->
      snd run = file
      /\ (Vault.isSetup file = false -> fst run = Exits KeysNotConfigured)
      /\ (forall e, getKeys envPassword typed file = inl e ->
                    Vault.isSetup file = true -> fst run = Exits (FailedToLoadKeys e))
      /\ (forall keys, fst run = GoesOn keys ->
            getKeys envPassword typed file = inr (Vault.KeysObject keys)
            /\ Validators.isValidPrivateKey (Vault.privateKey keys) = true
            /\ Validators.isValidAddress (Vault.funderAddress keys) = true)
      /\ (exitCodeOf (fst run) = Some 1 \/ exists keys, fst run = GoesOn keys))
  /\ (forall flags',
        resetMode flags' = false -> setupMode flags' = false ->
        (resetMode flags = true \/ (setupMode flags = true /\ Vault.isSetup file = false)) ->
        (exists keys, fst (setupWizard answers saltBytes ivBytes None) = inr keys) ->
        let again :=
          start flags' answers (Some (Vault.enteredPassword answers))
                (Vault.enteredPassword answers) saltBytes ivBytes (snd run) in
        fst again =
          if negb (Validators.isValidPrivateKey (trim (Vault.enteredPrivateKey answers)))
          then Exits InvalidPrivateKeyFormat
          else if negb (Validators.isValidAddress (trim (Vault.enteredFunderAddress answers)))
          then Exits InvalidFunderAddressFormat
          else GoesOn (Vault.keysOf trim answers)).
Proof.
  intros flags answers envPassword typed saltBytes ivBytes file Hiv. cbv zeta.
  assert (Hwiz : forall f,
            setupWizard answers saltBytes ivBytes f
            = (inl Vault.PasswordsDoNotMatch, f)
            \/ setupWizard answers saltBytes ivBytes f
               = (inl Vault.PasswordTooShort, f)
            \/ (setupWizard answers saltBytes ivBytes f
                = (inr (Vault.keysOf trim answers),
                   Vault.storeKeys rt (Vault.keysOf trim answers)
                     (Vault.enteredPassword answers) saltBytes ivBytes f)
                /\ Vault.enteredPassword answers = Vault.enteredConfirmation answers
                /\ (8 <= codeUnits (Vault.enteredPassword answers))%nat)).
  { intros f. unfold Vault.setupWizard.
    destruct (String.eqb_spec (Vault.enteredPassword answers)
                (Vault.enteredConfirmation answers)) as [Heq|Hne]; cbn [negb]; [|now left].
    destruct (Nat.ltb_spec (codeUnits (Vault.enteredPassword answers)) 8);
      [right; now left | right; right; auto]. }
  split; [|split; [|split]].
  - intros Hreset. unfold start. rewrite Hreset. cbn [Vault.reset].
    destruct (Hwiz None) as [H|[H|(H & _)]]; rewrite H.
    + right. eexists. split; reflexivity.
    + right. eexists. split; reflexivity.
    + left. eexists. split; [reflexivity|]. split; reflexivity.
  - intros Hreset Hsetup Hfile. unfold start. rewrite Hreset, Hsetup, Hfile.
    split; reflexivity.
  - intros Hreset Hsetup. unfold start. rewrite Hreset, Hsetup.
    destruct (Vault.isSetup file) eqn:Hfile; cbn [negb].
    + destruct (getKeys envPassword typed file) as [e|[keys|text]] eqn:Hget.
      * cbn [fst snd]. split; [reflexivity|]. split; [discriminate|].
        split; [intros e' He'; congruence|]. split; [discriminate|]. now left.
      * destruct (Validators.isValidPrivateKey (Vault.privateKey keys)) eqn:Hpk; cbn [negb].
        -- destruct (Validators.isValidAddress (Vault.funderAddress keys)) eqn:Hfa; cbn [negb].
           ++ cbn [fst snd]. split; [reflexivity|]. split; [discriminate|].
              split; [discriminate|]. split; [|right; eauto].
              intros keys' Hk. injection Hk as <-. auto.
           ++ cbn [fst snd]. split; [reflexivity|]. split; [discriminate|].
              split; [discriminate|]. split; [discriminate|]. now left.
        -- cbn [fst snd]. split; [reflexivity|]. split; [discriminate|].
           split; [discriminate|]. split; [discriminate|]. now left.
      * cbn [fst snd]. split; [reflexivity|]. split; [discriminate|].
        split; [discriminate|]. split; [discriminate|]. now left.
    + cbn [fst snd]. split; [reflexivity|]. split; [reflexivity|].
      split; [discriminate|]. split; [discriminate|]. now left.
  - intros flags' Hreset' Hsetup' Hmode [keys Hkeys].
    assert (Hstored : snd (start flags answers envPassword typed saltBytes ivBytes file)
                      = Vault.storeKeys rt (Vault.keysOf trim answers)
                          (Vault.enteredPassword answers) saltBytes ivBytes None).
    { assert (Hnone : setupWizard answers saltBytes ivBytes None
                      = (inr (Vault.keysOf trim answers),
                         Vault.storeKeys rt (Vault.keysOf trim answers)
                           (Vault.enteredPassword answers) saltBytes ivBytes None)).
      { destruct (Hwiz None) as [H|[H|(H & _)]]; [rewrite H in Hkeys; discriminate ..|exact H]. }
      unfold start. destruct Hmode as [Hreset|[Hsetup Hfile]].
      - rewrite Hreset. cbn [Vault.reset]. rewrite Hnone. reflexivity.
      - destruct (resetMode flags).
        + cbn [Vault.reset]. rewrite Hnone. reflexivity.
        + rewrite Hsetup, Hfile. destruct file; [discriminate|]. rewrite Hnone. reflexivity. }
    rewrite Hstored. unfold start. rewrite Hreset', Hsetup'.
    set (file' := Vault.storeKeys rt (Vault.keysOf trim answers)
                    (Vault.enteredPassword answers) saltBytes ivBytes None).
    assert (Hset : Vault.isSetup file' = true) by reflexivity.
    rewrite Hset. cbn [negb].
    assert (Hget : getKeys (Some (Vault.enteredPassword answers))
                     (Vault.enteredPassword answers) file'
                   = inr (Vault.KeysObject (Vault.keysOf trim answers))).
    { unfold Vault.getKeys, Vault.loadKeys, file', Vault.storeKeys.
      destruct (Vault.enteredPassword answers =? "")%string;
        now apply Vault.decrypt_encrypt_same_key. }
    rewrite Hget. cbn [Vault.keysOf Vault.privateKey Vault.funderAddress].
    destruct (Validators.isValidPrivateKey (trim (Vault.enteredPrivateKey answers)));
      cbn [negb]; [|reflexivity].
    destruct (Validators.isValidAddress (trim (Vault.enteredFunderAddress answers)));
      reflexivity.
Qed.

End Start.

(** A reset whose confirmation differs deletes the vault that was there; a
    plain run on a vault never writes it. *)
Definition sampleVault : Vault.KeyFile :=
  Vault.storeKeys Vault.toyRuntime Vault.sampleKeys "correct horse"
    Vault.sampleSalt Vault.sampleIv None.

Example start_reset_mismatch :
  start Vault.toyRuntime Vault.sampleTrim String.length (mkFlags false true true)
        (Vault.sampleAnswers "correct hors") None "" Vault.sampleSalt Vault.sampleIv
        sampleVault
  = (Exits (ResetSetupFailed Vault.PasswordsDoNotMatch), None).
Proof. reflexivity. Qed.

Lemma start_modes_witness :
  Vault.Lawful Vault.toyRuntime
  /\ List.length Vault.sampleIv = 16%nat
  /\ snd (start Vault.toyRuntime Vault.sampleTrim String.length (mkFlags true false false)
             (Vault.sampleAnswers "") None "wrong horse" Vault.sampleSalt Vault.sampleIv
             sampleVault)
     = sampleVault.
Proof.
  split; [exact Vault.toyRuntime_lawful|]. split; [reflexivity|].
  apply (proj1 (proj1 (proj2 (proj2 (start_modes Vault.toyRuntime Vault.sampleTrim
                                        String.length Vault.toyRuntime_lawful
                                        (mkFlags true false false) (Vault.sampleAnswers "")
                                        None "wrong horse" Vault.sampleSalt Vault.sampleIv
                                        sampleVault eq_refl)))
                 eq_refl eq_refl)).
Defined.

End Startup.
